(** * parglare/grammar.py: grammar symbols, productions, grammar construction
      and the desugaring of repetition operators.

    A shallow embedding.  Python objects that the code shares and mutates
    (grammar symbols, references) live in a heap and are named by their
    address, so that [is] is equality of addresses and [==] is the
    [__eq__] of the class.  Exceptions are values of [exn]; a computation
    that reads or writes the heap is a function from the heap to a result. *)
From Stdlib Require Import ZArith Lia Ascii.
From stdpp Require Import base list strings option.

Local Open Scope Z_scope.
Local Open Scope nat_scope.

(** ** Strings *)

Module Str.

(** [s.replace(c, by)] for a one-character [c]. *)
Fixpoint replace_char (c : ascii) (by_ : string) (s : string) : string :=
  match s with
  | EmptyString => EmptyString
  | String x s' =>
      if Ascii.eqb x c then by_ +:+ replace_char c by_ s'
      else String x (replace_char c by_ s')
  end.

Definition newline : ascii := "010"%char.
Definition tab : ascii := "009"%char.
Definition backslash : ascii := "092"%char.

(** [s[pos:pos+n]] for non-negative [pos] and [n]. *)
Definition slice (s : string) (pos n : nat) : string := String.substring pos n s.

(** Truth value of a string: the empty string is false. *)
Definition truthy (s : string) : bool := negb (String.eqb s EmptyString).

Definition opt_truthy (s : option string) : bool :=
  match s with Some s => truthy s | None => false end.

Definition opt_eqb (a b : option string) : bool :=
  match a, b with
  | Some x, Some y => String.eqb x y
  | None, None => true
  | _, _ => false
  end.

Definition mem (s : string) (l : list string) : bool := existsb (String.eqb s) l.

Definition dquote : string := String "034"%char EmptyString.
Definition squote : string := String "039"%char EmptyString.
Definition quoted (s : string) : string := dquote +:+ s +:+ dquote.
Definition squoted (s : string) : string := squote +:+ s +:+ squote.

End Str.

(** [escape], grammar.py:36. *)
Definition escape (instr : string) : string :=
  Str.replace_char Str.tab (String Str.backslash "t")
    (Str.replace_char Str.newline (String Str.backslash "n") instr).

(** ** Constants, grammar.py:18-33 *)

Definition ASSOC_NONE : Z := 0.
Definition ASSOC_LEFT : Z := 1.
Definition ASSOC_RIGHT : Z := 2.
Definition DEFAULT_PRIORITY : Z := 10.
Definition MULT_ONE : string := "1".
Definition MULT_OPTIONAL : string := "0..1".
Definition MULT_ONE_OR_MORE : string := "1..*".
Definition MULT_ZERO_OR_MORE : string := "0..*".
Definition RESERVED_SYMBOL_NAMES : list string := ["EOF"; "STOP"; "EMPTY"].
Definition SPECIAL_SYMBOL_NAMES : list string := ["KEYWORD"; "LAYOUT"].

(** ** Exceptions *)

Inductive exn : Type :=
| GrammarError (message : string)
| AttributeError (attribute : string)
| TypeError
| IndexError
| ValueError
| AssertionError
| DanglingReference.
(* [DanglingReference] is not a Python exception: it is what the model
   answers when an address is outside the heap, which no reference held by
   a live Python object is. *)

Definition is_GrammarError (e : exn) : bool :=
  match e with GrammarError _ => true | _ => false end.

(** ** What the module imports: the [re] library, [os.path.realpath],
       [parglare.actions] and [pos_to_line_col] *)

Definition re_MULTILINE : Z := 8.
Definition re_IGNORECASE : Z := 2.

Class Imports : Type := {
  (** [re.compile(regex, flags)]: [None] when the pattern compiles, the
      report of [re.error] otherwise. *)
  re_compile_error : string -> Z -> option string;
  (** [re.compile(regex, flags).match(in_str, pos)]: the matched text
      ([m.group()]), or [None]. *)
  re_match : string -> Z -> string -> nat -> option string;
  (** [os.path.realpath(file_path)], which may raise. *)
  realpath : option string -> exn + string;
  (** [hasattr(parglare.actions, name)]. *)
  actmodule_hasattr : string -> bool;
  (** [pos_to_line_col(input_str, position)], formatted. *)
  pos_to_line_col : string -> nat -> string;
  (** [s.lower()], the method of Python's [str].  It follows the Unicode
      case mappings, so nothing is assumed of it here: it need not keep
      the length of a string, nor commute with slicing. *)
  str_lower : string -> string
}.

(** ** Recognizers, grammar.py:135-202 *)

Inductive Recognizer : Type :=
| StringRecognizer (value : string) (ignore_case : bool)
| RegExRecognizer (regex : string) (re_flags : Z) (ignore_case : bool)
| FunctionRecognizer (f : string -> nat -> option string).

Definition is_StringRecognizer (r : Recognizer) : bool :=
  match r with StringRecognizer _ _ => true | _ => false end.

Definition is_RegExRecognizer (r : Recognizer) : bool :=
  match r with RegExRecognizer _ _ _ => true | _ => false end.

Section WithImports.
Context `{Imports}.

(** [StringRecognizer.__init__] keeps [value_cmp], which is fixed by the two
    arguments. *)
Definition value_cmp (value : string) (ignore_case : bool) : string :=
  if ignore_case then str_lower value else value.

(** [StringRecognizer.__call__], grammar.py:151. *)
Definition StringRecognizer_call (value : string) (ignore_case : bool)
    (in_str : string) (pos : nat) : option string :=
  if ignore_case then
    if String.eqb (str_lower (Str.slice in_str pos (String.length value)))
                  (value_cmp value ignore_case)
    then Some value else None
  else
    if String.eqb (Str.slice in_str pos (String.length value))
                  (value_cmp value ignore_case)
    then Some value else None.

(** [esc_control_characters], grammar.py:160. *)
Definition esc_control_characters (regex : string) : string :=
  let unescapes : list (ascii * string) :=
    [ ("007"%char, String Str.backslash "a"); ("008"%char, String Str.backslash "b");
      ("012"%char, String Str.backslash "f"); ("010"%char, String Str.backslash "n");
      ("013"%char, String Str.backslash "r"); ("009"%char, String Str.backslash "t");
      ("011"%char, String Str.backslash "v") ] in
  fold_left (fun regex vt => Str.replace_char (fst vt) (snd vt) regex) unescapes regex.

(** [RegExRecognizer.__init__], grammar.py:172: the flags gain
    [re.IGNORECASE] when [ignore_case] is set, and a pattern that does not
    compile is a [GrammarError]. *)
Definition RegExRecognizer_init (regex : string) (re_flags : Z) (ignore_case : bool)
    : exn + Recognizer :=
  let re_flags := if ignore_case then Z.lor re_flags re_IGNORECASE else re_flags in
  match re_compile_error regex re_flags with
  | None => inr (RegExRecognizer regex re_flags ignore_case)
  | Some report =>
      inl (GrammarError ("Regex compile error in /" +:+ esc_control_characters regex
                         +:+ "/ (report: " +:+ Str.quoted report +:+ ")"))
  end.

(** Calling a recognizer. *)
Definition Recognizer_call (r : Recognizer) (in_str : string) (pos : nat) : option string :=
  match r with
  | StringRecognizer value ignore_case => StringRecognizer_call value ignore_case in_str pos
  | RegExRecognizer regex re_flags _ => re_match regex re_flags in_str pos
  | FunctionRecognizer f => f in_str pos
  end.

End WithImports.

(** ** Objects and the heap *)

Abbreviation addr := nat (only parsing).

(** A semantic action: one of [parglare.actions], or a function object. *)
Inductive Action : Type :=
| ModuleAction (name : string)
| FunctionAction (name : string).

(** [GrammarSymbol.__init__], grammar.py:52.  The constructor derives two
    attributes from its argument, [name = escape(name)] and
    [_hash = hash(name)], and nothing rebinds either.  The record keeps the
    argument under [_hash] (two hashes are taken to be equal exactly when
    the hashed strings are) and [name] is read off it. *)
Record GrammarSymbol : Type := mkGrammarSymbol {
  _hash : string;
  action_name : option string;
  action : option Action;
  grammar_action : option Action
}.

Definition name (s : GrammarSymbol) : string := escape (_hash s).

Definition GrammarSymbol_init (name_ : string) : GrammarSymbol :=
  {| _hash := name_; action_name := None; action := None; grammar_action := None |}.

(** The attributes [Terminal.__init__] adds, grammar.py:109. *)
Record TerminalAttrs : Type := mkTerminalAttrs {
  prior : Z;
  recognizer : option Recognizer;
  finish : option bool;
  prefer : bool;
  dynamic : bool;
  keyword : bool
}.

(** A heap object.  The [productions] list of a [NonTerminal] is left out:
    construction only appends to it and nothing modelled here reads it. *)
Inductive object : Type :=
| NonTerminal (sym : GrammarSymbol)
| Terminal (sym : GrammarSymbol) (attrs : TerminalAttrs)
| Reference (ref_name : string) (module_name : option string).

Definition NonTerminal_init (name_ : string) : object :=
  NonTerminal (GrammarSymbol_init name_).

(** [Terminal.__init__]: without a recognizer the terminal matches its own
    name. *)
Definition Terminal_init (name_ : string) (recognizer_ : option Recognizer) : object :=
  Terminal (GrammarSymbol_init name_)
    {| prior := DEFAULT_PRIORITY;
       recognizer := Some (match recognizer_ with
                           | Some r => r
                           | None => StringRecognizer name_ false
                           end);
       finish := None; prefer := false; dynamic := false; keyword := false |}.

Abbreviation heap := (list object).

Definition isinstance_Terminal (o : object) : bool :=
  match o with Terminal _ _ => true | _ => false end.
Definition isinstance_NonTerminal (o : object) : bool :=
  match o with NonTerminal _ => true | _ => false end.

(** [o.name]: every class of object has the attribute. *)
Definition obj_name (o : object) : string :=
  match o with
  | NonTerminal s | Terminal s _ => name s
  | Reference n _ => n
  end.

(** [hash(o)]: a grammar symbol hashes its name as given, a reference hashes
    by identity. *)
Inductive hash_value : Type :=
| HashOfString (s : string)
| HashOfId (a : addr).

Definition obj_hash (a : addr) (o : object) : hash_value :=
  match o with
  | NonTerminal s | Terminal s _ => HashOfString (_hash s)
  | Reference _ _ => HashOfId a
  end.

Definition hash_eqb (x y : hash_value) : bool :=
  match x, y with
  | HashOfString s, HashOfString t => String.eqb s t
  | HashOfId a, HashOfId b => Nat.eqb a b
  | _, _ => false
  end.

(** [x == y] for two objects at addresses [a] and [b]:
    [GrammarSymbol.__eq__] compares names, and it is also what Python calls,
    reflected, when only the right operand is a grammar symbol; two
    references are equal when they are the same object. *)
Definition obj_eqb (a : addr) (x : object) (b : addr) (y : object) : bool :=
  match x, y with
  | Reference _ _, Reference _ _ => Nat.eqb a b
  | _, _ => String.eqb (obj_name x) (obj_name y)
  end.

(** The module's own objects, grammar.py:206-215, at the addresses they get
    when the module is loaded. *)
Definition AUGSYMBOL : addr := 0.
Definition STOP : addr := 1.
Definition EMPTY : addr := 2.
Definition EOF : addr := 3.

Definition no_match : string -> nat -> option string := fun _ _ => None.
Definition EMPTY_recognizer := no_match.
Definition EOF_recognizer := no_match.
Definition STOP_recognizer := no_match.

Definition set_grammar_action (act : Action) (o : object) : object :=
  match o with
  | Terminal s t =>
      Terminal {| _hash := _hash s; action_name := action_name s; action := action s;
                  grammar_action := Some act |} t
  | NonTerminal s =>
      NonTerminal {| _hash := _hash s; action_name := action_name s; action := action s;
                     grammar_action := Some act |}
  | Reference _ _ => o
  end.

Definition module_heap : heap :=
  [ NonTerminal_init "S'";
    Terminal_init "STOP" (Some (FunctionRecognizer STOP_recognizer));
    set_grammar_action (ModuleAction "pass_none")
      (Terminal_init "EMPTY" (Some (FunctionRecognizer EMPTY_recognizer)));
    set_grammar_action (ModuleAction "pass_none")
      (Terminal_init "EOF" (Some (FunctionRecognizer EOF_recognizer))) ].

(** The module's objects are where the module put them, with their names and
    classes; their other attributes may have been rebound since. *)
Definition singletons_loaded (h : heap) : Prop :=
  (exists s, h !! AUGSYMBOL = Some (NonTerminal s) /\ _hash s = "S'") /\
  (exists s t, h !! STOP = Some (Terminal s t) /\ _hash s = "STOP") /\
  (exists s t, h !! EMPTY = Some (Terminal s t) /\ _hash s = "EMPTY") /\
  (exists s t, h !! EOF = Some (Terminal s t) /\ _hash s = "EOF").

(** ** Computations over the heap *)

Inductive result (A : Type) : Type :=
| Ok (value : A) (h : heap)
| Raise (e : exn).
Arguments Ok {A} value h.
Arguments Raise {A} e.

Definition M (A : Type) : Type := heap -> result A.

Definition ret {A} (x : A) : M A := fun h => Ok x h.
Definition raise {A} (e : exn) : M A := fun _ => Raise e.
Definition bind {A B} (m : M A) (k : A -> M B) : M B :=
  fun h => match m h with
           | Ok x h' => k x h'
           | Raise e => Raise e
           end.
Definition lift {A} (r : exn + A) : M A :=
  match r with inl e => raise e | inr x => ret x end.

Declare Scope py_scope.
Delimit Scope py_scope with py.
Notation "x <- m ;; k" := (bind m (fun x => k))
  (at level 100, m at next level, right associativity) : py_scope.
Notation "m ;;; k" := (bind m (fun _ => k))
  (at level 100, right associativity) : py_scope.
Local Open Scope py_scope.

(** Reading the object at an address. *)
Definition deref (a : addr) : M object :=
  fun h => match h !! a with
           | Some o => Ok o h
           | None => Raise DanglingReference
           end.

(** Creating an object. *)
Definition alloc (o : object) : M addr :=
  fun h => Ok (length h) (h ++ [o]).

(** Rebinding attributes of the object at an address. *)
Definition modify (a : addr) (f : object -> object) : M unit :=
  fun h => match h !! a with
           | Some o => Ok tt (<[a := f o]> h)
           | None => Raise DanglingReference
           end.

Definition is_None {A} (x : option A) : bool :=
  match x with None => true | Some _ => false end.

Definition get_name (a : addr) : M string := o <- deref a ;; ret (obj_name o).

(** [a == b]. *)
Definition py_eq (a b : addr) : M bool :=
  x <- deref a ;; y <- deref b ;; ret (Nat.eqb a b || obj_eqb a x b y).

(** Whether [b] is found where a set or a dict holds [a]: the same hash, and
    the same object or an equal one. *)
Definition same_key (a b : addr) : M bool :=
  x <- deref a ;; y <- deref b ;;
  ret (hash_eqb (obj_hash a x) (obj_hash b y) && (Nat.eqb a b || obj_eqb a x b y)).

(** Loops. *)
Fixpoint for_each {A} (l : list A) (body : A -> M unit) : M unit :=
  match l with
  | [] => ret tt
  | x :: l' => body x ;;; for_each l' body
  end.

Fixpoint fold_m {A S} (l : list A) (s : S) (body : S -> A -> M S) : M S :=
  match l with
  | [] => ret s
  | x :: l' => s' <- body s x ;; fold_m l' s' body
  end.

Fixpoint map_m {A B} (f : A -> M B) (l : list A) : M (list B) :=
  match l with
  | [] => ret []
  | x :: l' => y <- f x ;; ys <- map_m f l' ;; ret (y :: ys)
  end.

(** ** ProductionRHS, grammar.py:270-291 *)

(** [list.__getitem__(idx)] for an integer: a negative index counts from the
    end, and [None] stands for [IndexError]. *)
Definition list_getitem {A} (l : list A) (idx : Z) : option A :=
  let n := Z.of_nat (length l) in
  if (idx <? 0)%Z then
    if (idx + n <? 0)%Z then None else l !! Z.to_nat (idx + n)
  else l !! Z.to_nat idx.

(** The loop of [ProductionRHS.__getitem__]: [Some None] is the [None] the
    method returns on [IndexError], the outer [None] is a loop that has not
    finished within [fuel] rounds. *)
Fixpoint getitem_loop (fuel : nat) (l : list addr) (idx : Z) : option (option addr) :=
  match fuel with
  | O => None
  | S fuel' =>
      match list_getitem l idx with
      | None => Some None
      | Some symbol =>
          if Nat.eqb symbol EMPTY then getitem_loop fuel' l (idx + 1)%Z
          else Some (Some symbol)
      end
  end.

(** Rounds that are enough for [getitem_loop] (see [getitem_loop_enough]). *)
Definition getitem_fuel (l : list addr) (idx : Z) : nat :=
  S (length l + Z.to_nat (- idx)).

(** [ProductionRHS.__getitem__(idx)]; [None] is Python's [None]. *)
Definition ProductionRHS_getitem (l : list addr) (idx : Z) : option addr :=
  match getitem_loop (getitem_fuel l idx) l idx with
  | Some r => r
  | None => None
  end.

(** [self.count(EMPTY)]: the elements that are [EMPTY] or equal to it. *)
Definition count_EMPTY (l : list addr) : M nat :=
  fold_m l 0 (fun n x => b <- py_eq x EMPTY ;; ret (if b then S n else n)).

(** [ProductionRHS.__len__]. *)
Definition ProductionRHS_len (l : list addr) : M nat :=
  c <- count_EMPTY l ;; ret (length l - c).

(** Truth value of a [ProductionRHS]: that of its [__len__]. *)
Definition ProductionRHS_truthy (l : list addr) : M bool :=
  n <- ProductionRHS_len l ;; ret (negb (Nat.eqb n 0)).

(** ** Dictionaries and sets *)

(** A [dict] with string keys, in insertion order. *)
Module Dict.

Abbreviation t V := (list (string * V)).

Fixpoint get {V} (k : string) (d : t V) : option V :=
  match d with
  | [] => None
  | (k', v) :: d' => if String.eqb k k' then Some v else get k d'
  end.

Definition contains {V} (k : string) (d : t V) : bool :=
  match get k d with Some _ => true | None => false end.

(** [d[k] = v]: the value of a key that is there is replaced where it
    stands, a new key goes last. *)
Fixpoint set {V} (k : string) (v : V) (d : t V) : t V :=
  match d with
  | [] => [(k, v)]
  | (k', v') :: d' => if String.eqb k k' then (k', v) :: d' else (k', v') :: set k v d'
  end.

(** [del d[k]]. *)
Fixpoint remove {V} (k : string) (d : t V) : t V :=
  match d with
  | [] => []
  | (k', v') :: d' => if String.eqb k k' then d' else (k', v') :: remove k d'
  end.

Definition keys {V} (d : t V) : list string := map fst d.
Definition values {V} (d : t V) : list V := map snd d.

End Dict.

(** A [set] of heap objects, kept in the order its members came in (the
    order in which Python walks a set is not fixed; nothing proved below
    depends on it). *)
Fixpoint set_contains (s : list addr) (x : addr) : M bool :=
  match s with
  | [] => ret false
  | y :: s' => b <- same_key y x ;; if b then ret true else set_contains s' x
  end.

Definition set_add (s : list addr) (x : addr) : M (list addr) :=
  b <- set_contains s x ;; ret (if b then s else s ++ [x]).

Definition set_update (s : list addr) (l : list addr) : M (list addr) :=
  fold_m l s set_add.

(** ** Production, grammar.py:218-267 *)

Record Assignment : Type := mkAssignment {
  asg_name : option string;
  op : option string;
  asg_symbol : addr;
  orig_symbol : addr;
  multiplicity : string;
  index : option nat
}.

(** A production.  [prod_id] and [prod_symbol_id] are attributes that only
    [_enumerate_productions] sets.  Productions are values here: every caller
    in the module builds the list it hands over from fresh [Production]
    objects, each with a [ProductionRHS] of its own. *)
Record Production : Type := mkProduction {
  symbol : addr;
  rhs : list addr;
  assignments : option (Dict.t Assignment);
  assoc : Z;
  prod_prior : Z;
  prod_dynamic : bool;
  nops : bool;
  nopse : bool;
  prod_id : option nat;
  prod_symbol_id : option nat
}.

(** [Production.__init__]: a right-hand side that is false (its filtered
    length is zero) is replaced by a new, empty one. *)
Definition Production_init (symbol_ : addr) (rhs_ : list addr)
    (assignments_ : option (list Assignment)) (assoc_ prior_ : Z)
    (dynamic_ nops_ nopse_ : bool) : M Production :=
  t <- ProductionRHS_truthy rhs_ ;;
  let assignments' :=
    match assignments_ with
    | None | Some [] => None
    | Some l =>
        Some (fold_left (fun d a => match asg_name a with
                                    | Some n => if Str.truthy n then Dict.set n a d else d
                                    | None => d
                                    end) l [])
    end in
  ret {| symbol := symbol_; rhs := if t then rhs_ else [];
         assignments := assignments'; assoc := assoc_; prod_prior := prior_;
         prod_dynamic := dynamic_; nops := nops_; nopse := nopse_;
         prod_id := None; prod_symbol_id := None |}.

(** [Production(symbol, rhs)] with the defaults of the other arguments. *)
Definition Production_new (symbol_ : addr) (rhs_ : list addr) (nops_ : bool) : M Production :=
  Production_init symbol_ rhs_ None ASSOC_NONE DEFAULT_PRIORITY false nops_ false.

Definition set_symbol (s : addr) (p : Production) : Production :=
  {| symbol := s; rhs := rhs p; assignments := assignments p; assoc := assoc p;
     prod_prior := prod_prior p; prod_dynamic := prod_dynamic p; nops := nops p;
     nopse := nopse p; prod_id := prod_id p; prod_symbol_id := prod_symbol_id p |}.

Definition set_rhs (r : list addr) (p : Production) : Production :=
  {| symbol := symbol p; rhs := r; assignments := assignments p; assoc := assoc p;
     prod_prior := prod_prior p; prod_dynamic := prod_dynamic p; nops := nops p;
     nopse := nopse p; prod_id := prod_id p; prod_symbol_id := prod_symbol_id p |}.

Definition set_ids (i j : nat) (p : Production) : Production :=
  {| symbol := symbol p; rhs := rhs p; assignments := assignments p; assoc := assoc p;
     prod_prior := prod_prior p; prod_dynamic := prod_dynamic p; nops := nops p;
     nopse := nopse p; prod_id := Some i; prod_symbol_id := Some j |}.

(** ** PGFile and Grammar, grammar.py:336-764 *)

(** Attribute reads that depend on the class of the object. *)
Definition get_action_name (a : addr) : M (option string) :=
  o <- deref a ;;
  match o with
  | NonTerminal s | Terminal s _ => ret (action_name s)
  | Reference _ _ => raise (AttributeError "action_name")
  end.

Definition get_recognizer (a : addr) : M (option Recognizer) :=
  o <- deref a ;;
  match o with
  | Terminal _ t => ret (recognizer t)
  | _ => raise (AttributeError "recognizer")
  end.

Definition set_action (act : Action) (o : object) : object :=
  match o with
  | Terminal s t =>
      Terminal {| _hash := _hash s; action_name := action_name s; action := Some act;
                  grammar_action := Some act |} t
  | NonTerminal s =>
      NonTerminal {| _hash := _hash s; action_name := action_name s; action := Some act;
                     grammar_action := Some act |}
  | Reference _ _ => o
  end.

Definition set_recognizer (r : option Recognizer) (o : object) : object :=
  match o with
  | Terminal s t =>
      Terminal s {| prior := prior t; recognizer := r; finish := finish t;
                    prefer := prefer t; dynamic := dynamic t; keyword := keyword t |}
  | _ => o
  end.

Definition set_keyword (k : bool) (o : object) : object :=
  match o with
  | Terminal s t =>
      Terminal s {| prior := prior t; recognizer := recognizer t; finish := finish t;
                    prefer := prefer t; dynamic := dynamic t; keyword := k |}
  | _ => o
  end.

(** The start symbol as the caller gives it: nothing, a name, or a symbol. *)
Inductive start_arg : Type :=
| StartNone
| StartName (s : string)
| StartSymbol (a : addr).

(** What a constructed [Grammar] holds.  There is no [recognizers]
    attribute: [PGFile.__init__] takes the argument and does not keep it. *)
Record Grammar : Type := mkGrammar {
  productions : list Production;
  imports : option (Dict.t string);
  file_path : string;
  symbols_by_name : Dict.t addr;
  recog_to_terminals : Dict.t addr;
  start_symbol : addr;
  nonterminals : list addr;
  terminals : list addr;
  _no_check_recognizers : bool
}.

Section Construction.
Context `{Imports}.

(** [Grammar._resolve_action], grammar.py:564. *)
Definition _resolve_action (old_symbol new_symbol : addr) : M unit :=
  new_action_name <- get_action_name new_symbol ;;
  if Str.opt_truthy new_action_name then
    old_action_name <- get_action_name old_symbol ;;
    if negb (Str.opt_eqb new_action_name old_action_name) then
      n <- get_name new_symbol ;;
      raise (GrammarError ("Multiple different grammar actions for rule "
                           +:+ Str.quoted n +:+ "."))
    else
      match new_action_name with
      | Some a =>
          if actmodule_hasattr a then modify new_symbol (set_action (ModuleAction a))
          else ret tt
      | None => ret tt
      end
  else ret tt.

(** The loop over [recog_to_terminals.items()] that deletes the first entry
    whose terminal has the given name, and stops. *)
Fixpoint del_first_named (n : string) (d : Dict.t addr) : M (Dict.t addr) :=
  match d with
  | [] => ret []
  | (k, v) :: d' =>
      vn <- get_name v ;;
      if String.eqb vn n then ret d'
      else (r <- del_first_named n d' ;; ret ((k, v) :: r))
  end.

(** One round of the loop of [PGFile.collect_symbols] (grammar.py:391) and
    of [Grammar._collect_grammar_symbols] (grammar.py:517), which are the
    same text. *)
Definition collect_step (st : Dict.t addr * Dict.t addr) (p : Production)
    : M (Dict.t addr * Dict.t addr) :=
  let symbols_by_name_ := fst st in
  let recog_to_terminals_ := snd st in
  o <- deref (symbol p) ;;
  r <- (if isinstance_Terminal o then
          match Dict.get (obj_name o) symbols_by_name_ with
          | Some prev_symbol =>
              prev <- deref prev_symbol ;;
              if isinstance_Terminal prev then
                new_symbol <- alloc (NonTerminal_init (obj_name o)) ;;
                new_name <- get_name new_symbol ;;
                r2t <- del_first_named new_name recog_to_terminals_ ;;
                ret (new_symbol, r2t)
              else ret (prev_symbol, recog_to_terminals_)
          | None =>
              t <- ProductionRHS_truthy (rhs p) ;;
              if t then
                match ProductionRHS_getitem (rhs p) 0 with
                | None => raise (AttributeError "name")
                | Some first =>
                    rec_name <- get_name first ;;
                    if Str.mem rec_name SPECIAL_SYMBOL_NAMES
                    then ret (symbol p, recog_to_terminals_)
                    else if Dict.contains (obj_name o) recog_to_terminals_
                    then raise AssertionError
                    else ret (symbol p, Dict.set rec_name (symbol p) recog_to_terminals_)
                end
              else ret (symbol p, recog_to_terminals_)
          end
        else ret (symbol p, recog_to_terminals_)) ;;
  _resolve_action (symbol p) (fst r) ;;;
  n <- get_name (fst r) ;;
  ret (Dict.set n (fst r) symbols_by_name_, snd r).

(** [for p in self.productions], where [productions] may be [None]. *)
Definition collect_symbols (productions_ : option (list Production))
    : M (Dict.t addr * Dict.t addr) :=
  match productions_ with
  | None => raise TypeError
  | Some ps => fold_m ps ([], []) collect_step
  end.

(** [set([x for x in d.values() if isinstance(x, cls)])]. *)
Definition set_of_class (cls : object -> bool) (vals : list addr) : M (list addr) :=
  fold_m vals [] (fun s x => o <- deref x ;; if cls o then set_add s x else ret s).

(** [Grammar._collect_grammar_symbols], grammar.py:508. *)
Definition _collect_grammar_symbols (productions_ : list Production)
    : M (Dict.t addr * Dict.t addr * list addr * list addr) :=
  st <- collect_symbols (Some productions_) ;;
  terminals_ <- set_of_class isinstance_Terminal (Dict.values (fst st)) ;;
  nonterminals_ <- set_of_class isinstance_NonTerminal (Dict.values (fst st)) ;;
  ret (fst st, snd st, terminals_, nonterminals_).

(** [self.recognizers]: neither [PGFile.__init__] nor [Grammar.__init__]
    binds the attribute, and the classes have none of that name. *)
Definition self_recognizers : M (option (Dict.t Recognizer)) :=
  raise (AttributeError "recognizers").

(** [Grammar._check_connect_recognizers], grammar.py:549. *)
Definition _check_connect_recognizers (terminals_ : list addr) : M unit :=
  for_each terminals_ (fun term =>
    recognizers <- self_recognizers ;;
    let no_recognizers :=
      match recognizers with None | Some [] => true | Some _ => false end in
    undefined <- (if no_recognizers
                  then (r <- get_recognizer term ;; ret (is_None r))
                  else ret false) ;;
    term_name <- get_name term ;;
    if undefined then
      raise (GrammarError ("Terminal " +:+ Str.quoted term_name
                           +:+ " has no recognizer defined and no recognizers are given"
                           +:+ " during grammar construction."))
    else
      match recognizers with
      | None => raise TypeError
      | Some recs =>
          match Dict.get term_name recs with
          | None =>
              r <- get_recognizer term ;;
              if is_None r then
                raise (GrammarError ("Terminal " +:+ Str.quoted term_name
                                     +:+ " has no recognizer defined."))
              else ret tt
          | Some r => modify term (set_recognizer (Some r))
          end
      end).

(** The body of the inner loop of [Grammar._resolve_references]
    (grammar.py:602-635) for one element [ref] of the right-hand side of a
    production whose symbol is [p_symbol].  The state is the local
    [rec_to_term] and the set [self.terminals]; the result is the symbol
    that replaces [ref]. *)
Definition resolve_ref (symbols_by_name_ recog_to_terminals_ : Dict.t addr)
    (p_symbol : addr) (st : Dict.t addr * list addr) (ref : addr)
    : M (Dict.t addr * list addr * addr) :=
  ref_name <- get_name ref ;;
  match Dict.get ref_name symbols_by_name_ with
  | Some ref_sym => ret (st, ref_sym)
  | None =>
      ps <- deref p_symbol ;;
      match (if isinstance_NonTerminal ps then Dict.get ref_name recog_to_terminals_
             else None) with
      | Some term_by_rec =>
          p_name <- get_name p_symbol ;;
          t_name <- get_name term_by_rec ;;
          raise (GrammarError ("Terminal " +:+ Str.squoted ref_name
                               +:+ " used in production " +:+ Str.squoted p_name
                               +:+ " already exists by the name " +:+ Str.squoted t_name
                               +:+ "."))
      | None =>
          r <- deref ref ;;
          if negb (isinstance_Terminal r) then
            p_name <- get_name p_symbol ;;
            raise (GrammarError ("Unknown symbol " +:+ Str.squoted ref_name
                                 +:+ " used in production " +:+ Str.squoted p_name
                                 +:+ "."))
          else
            match Dict.get ref_name (fst st) with
            | Some ref_sym => ret (st, ref_sym)
            | None =>
                terminals_ <- set_add (snd st) ref ;;
                ret (Dict.set ref_name ref (fst st), terminals_, ref)
            end
      end
  end.
(* The test [if not ref_sym] that follows in the source never holds: a
   grammar symbol has neither [__bool__] nor [__len__]. *)

(** [for idx_ref, ref in enumerate(p.rhs): ... p.rhs[idx_ref] = ref_sym]:
    the list iterator walks the backing list, and each element is replaced
    in its own round. *)
Fixpoint resolve_rhs (symbols_by_name_ recog_to_terminals_ : Dict.t addr)
    (p_symbol : addr) (st : Dict.t addr * list addr) (l : list addr)
    : M (Dict.t addr * list addr * list addr) :=
  match l with
  | [] => ret (st, [])
  | ref :: l' =>
      r <- resolve_ref symbols_by_name_ recog_to_terminals_ p_symbol st ref ;;
      r' <- resolve_rhs symbols_by_name_ recog_to_terminals_ p_symbol (fst r) l' ;;
      ret (fst r', snd r :: snd r')
  end.

(** The body of the outer loop, grammar.py:594-635. *)
Definition resolve_production (symbols_by_name_ recog_to_terminals_ : Dict.t addr)
    (st : Dict.t addr * list addr) (p : Production)
    : M (Dict.t addr * list addr * Production) :=
  p_name <- get_name (symbol p) ;;
  let p_symbol := match Dict.get p_name symbols_by_name_ with
                  | Some s => s
                  | None => symbol p
                  end in
  r <- resolve_rhs symbols_by_name_ recog_to_terminals_ p_symbol st (rhs p) ;;
  ret (fst r, set_rhs (snd r) (set_symbol p_symbol p)).

Fixpoint resolve_productions (symbols_by_name_ recog_to_terminals_ : Dict.t addr)
    (st : Dict.t addr * list addr) (ps : list Production)
    : M (Dict.t addr * list addr * list Production) :=
  match ps with
  | [] => ret (st, [])
  | p :: ps' =>
      r <- resolve_production symbols_by_name_ recog_to_terminals_ st p ;;
      r' <- resolve_productions symbols_by_name_ recog_to_terminals_ (fst r) ps' ;;
      ret (fst r', snd r :: snd r')
  end.

(** [Grammar._resolve_references], grammar.py:585: the productions with
    their symbols replaced, and [self.terminals] with the terminals that
    only occur in right-hand sides added. *)
Definition _resolve_references (symbols_by_name_ recog_to_terminals_ : Dict.t addr)
    (terminals_ : list addr) (ps : list Production)
    : M (list addr * list Production) :=
  r <- resolve_productions symbols_by_name_ recog_to_terminals_ ([], terminals_) ps ;;
  ret (snd (fst r), snd r).

(** [[p for p in self.productions if isinstance(p.symbol, NonTerminal)
    or p.symbol.name == 'LAYOUT']], grammar.py:498. *)
Fixpoint non_term_productions (ps : list Production) : M (list Production) :=
  match ps with
  | [] => ret []
  | p :: ps' =>
      o <- deref (symbol p) ;;
      r <- non_term_productions ps' ;;
      ret (if isinstance_NonTerminal o || String.eqb (obj_name o) "LAYOUT"
           then p :: r else r)
  end.

(** [idx_per_symbol.get(s, 0)] for a dict whose keys are symbols. *)
Fixpoint idx_get (d : list (addr * nat)) (s : addr) : M nat :=
  match d with
  | [] => ret 0
  | (k, v) :: d' => b <- same_key k s ;; if b then ret v else idx_get d' s
  end.

(** [idx_per_symbol[s] = v]. *)
Fixpoint idx_set (d : list (addr * nat)) (s : addr) (v : nat) : M (list (addr * nat)) :=
  match d with
  | [] => ret [(s, v)]
  | (k, v') :: d' =>
      b <- same_key k s ;;
      if b then ret ((k, v) :: d')
      else (r <- idx_set d' s v ;; ret ((k, v') :: r))
  end.

(** The loop of [Grammar._enumerate_productions], grammar.py:637, from
    index [idx] on. *)
Fixpoint enumerate_from (idx : nat) (idx_per_symbol : list (addr * nat))
    (ps : list Production) : M (list Production) :=
  match ps with
  | [] => ret []
  | s :: ps' =>
      n <- idx_get idx_per_symbol (symbol s) ;;
      n' <- idx_get idx_per_symbol (symbol s) ;;
      d <- idx_set idx_per_symbol (symbol s) (n' + 1) ;;
      r <- enumerate_from (S idx) d ps' ;;
      ret (set_ids idx n s :: r)
  end.

Definition _enumerate_productions (ps : list Production) : M (list Production) :=
  enumerate_from 0 [] ps.

(** [Grammar.get_terminal], grammar.py:674, and its siblings: the first
    member with the name, or [None]. *)
Fixpoint find_named (n : string) (s : list addr) : M (option addr) :=
  match s with
  | [] => ret None
  | t :: s' =>
      tn <- get_name t ;;
      if String.eqb tn n then ret (Some t) else find_named n s'
  end.

Definition get_terminal (g : Grammar) (n : string) : M (option addr) :=
  find_named n (terminals g).

Definition get_nonterminal (g : Grammar) (n : string) : M (option addr) :=
  find_named n (nonterminals g).

Definition get_symbol (g : Grammar) (n : string) : M (option addr) :=
  s <- get_terminal g n ;;
  match s with
  | Some _ => ret s
  | None => get_nonterminal g n
  end.

(** The word-boundary pattern of a literal: [r'\b{}\b'.format(match)]. *)
Definition word_boundary (literal : string) : string :=
  String Str.backslash "b" +:+ literal +:+ String Str.backslash "b".

(** The body of the loop of [Grammar._fix_keyword_terminals],
    grammar.py:665-672. *)
Definition fix_keyword_terminal (keyword_rec : Recognizer) (term : addr) : M unit :=
  r <- get_recognizer term ;;
  match r with
  | Some (StringRecognizer value ignore_case) =>
      match Recognizer_call keyword_rec value 0 with
      | Some matched =>
          if String.eqb matched value then
            r' <- lift (RegExRecognizer_init (word_boundary matched) re_MULTILINE
                                             ignore_case) ;;
            modify term (set_recognizer (Some r')) ;;;
            modify term (set_keyword true)
          else ret tt
      | None => ret tt
      end
  | _ => ret tt
  end.

(** [Grammar._fix_keyword_terminals], grammar.py:648. *)
Definition _fix_keyword_terminals (g : Grammar) : M unit :=
  keyword_term <- get_terminal g "KEYWORD" ;;
  match keyword_term with
  | None => ret tt
  | Some kt =>
      keyword_rec <- get_recognizer kt ;;
      match keyword_rec with
      | Some (RegExRecognizer regex flags ic) =>
          for_each (terminals g) (fix_keyword_terminal (RegExRecognizer regex flags ic))
      | _ => raise (GrammarError "KEYWORD rule must have a regex recognizer defined.")
      end
  end.

(** [Grammar._init_grammar], grammar.py:467.  [start] is the attribute
    [self.start_symbol], [None] when nothing has bound it. *)
Definition _init_grammar (productions_ : list Production)
    (imports_ : option (Dict.t string)) (file_path_ : string)
    (start : option addr) (no_check : bool) : M Grammar :=
  start_symbol_ <- match start with
                   | Some a => ret a
                   | None => raise (AttributeError "start_symbol")
                   end ;;
  p0 <- Production_new AUGSYMBOL [start_symbol_; STOP] false ;;
  let productions_ := p0 :: productions_ in
  c <- _collect_grammar_symbols productions_ ;;
  let symbols_by_name_ :=
    Dict.set "STOP" STOP (Dict.set "EOF" EOF (Dict.set "EMPTY" EMPTY (fst (fst (fst c))))) in
  let recog_to_terminals_ := snd (fst (fst c)) in
  let nonterminals_ := snd c in
  terminals_ <- set_update (snd (fst c)) [EMPTY; EOF; STOP] ;;
  (if no_check then ret tt else _check_connect_recognizers terminals_) ;;;
  r <- _resolve_references symbols_by_name_ recog_to_terminals_ terminals_ productions_ ;;
  ntp <- non_term_productions (snd r) ;;
  let productions_ := if 1 <? length ntp then ntp else snd r in
  productions_ <- _enumerate_productions productions_ ;;
  let g := {| productions := productions_; imports := imports_; file_path := file_path_;
              symbols_by_name := symbols_by_name_;
              recog_to_terminals := recog_to_terminals_;
              start_symbol := start_symbol_; nonterminals := nonterminals_;
              terminals := fst r; _no_check_recognizers := no_check |} in
  _fix_keyword_terminals g ;;;
  ret g.

(** [PGFile.__init__], grammar.py:372: the path, and what
    [collect_symbols] gathers.  The [recognizers] argument is not kept. *)
Definition PGFile_init (productions_ : option (list Production))
    (file_path_ : option string) (recognizers : option (Dict.t Recognizer))
    : M (string * (Dict.t addr * Dict.t addr)) :=
  fp <- lift (realpath file_path_) ;;
  st <- collect_symbols productions_ ;;
  ret (fp, st).

(** The loop of grammar.py:456: the symbol of the last production whose
    symbol has the name, if there is one. *)
Definition find_start (n : string) (ps : list Production) : M (option addr) :=
  fold_m ps None (fun found p =>
    pn <- get_name (symbol p) ;;
    ret (if String.eqb pn n then Some (symbol p) else found)).

(** [Grammar.__init__], grammar.py:432.  The arguments [re_flags],
    [ignore_case] and the debug switches are not read by the constructor. *)
Definition Grammar_init (productions_ : option (list Production))
    (imports_ : option (Dict.t string)) (file_path_ : option string)
    (recognizers : option (Dict.t Recognizer)) (start_symbol_ : start_arg)
    (no_check : bool) : M Grammar :=
  pg <- PGFile_init productions_ file_path_ recognizers ;;
  let ps := match productions_ with Some ps => ps | None => [] end in
  let first_production :=
    match ps with
    | p :: _ => ret (Some (symbol p))
    | [] => raise IndexError
    end in
  start <- match start_symbol_ with
           | StartNone => first_production
           | StartName n => if Str.truthy n then find_start n ps else first_production
           | StartSymbol a => ret (Some a)
           end ;;
  _init_grammar ps imports_ (fst pg) start no_check.

(** [Grammar.get_production_id], grammar.py:697. *)
Fixpoint find_production_id (n : string) (ps : list Production) : M (option nat) :=
  match ps with
  | [] => ret None
  | p :: ps' =>
      pn <- get_name (symbol p) ;;
      if String.eqb pn n then ret (prod_id p) else find_production_id n ps'
  end.

Definition get_production_id (g : Grammar) (n : string) : M (option nat) :=
  find_production_id n (productions g).

End Construction.

(** ** Repetition operators, grammar.py:1240-1324, and [act_pgfile] *)

(** The parsing context, as far as these actions use it.  [new_productions]
    is [None] while the attribute does not exist; it maps the name of an
    auxiliary non-terminal to the non-terminal and its productions. *)
Record Context : Type := mkContext {
  new_productions : option (Dict.t (addr * list Production));
  input_str : string;
  start_position : nat
}.

Definition set_new_productions (d : Dict.t (addr * list Production)) (c : Context) : Context :=
  {| new_productions := Some d; input_str := input_str c;
     start_position := start_position c |}.

Definition the_new_productions (c : Context) : Dict.t (addr * list Production) :=
  match new_productions c with Some d => d | None => [] end.

Definition set_action_name (a : string) (o : object) : object :=
  match o with
  | Terminal s t =>
      Terminal {| _hash := _hash s; action_name := Some a; action := action s;
                  grammar_action := grammar_action s |} t
  | NonTerminal s =>
      NonTerminal {| _hash := _hash s; action_name := Some a; action := action s;
                     grammar_action := grammar_action s |}
  | Reference _ _ => o
  end.

Definition set_only_action (act : Action) (o : object) : object :=
  match o with
  | Terminal s t =>
      Terminal {| _hash := _hash s; action_name := action_name s; action := Some act;
                  grammar_action := grammar_action s |} t
  | NonTerminal s =>
      NonTerminal {| _hash := _hash s; action_name := action_name s; action := Some act;
                     grammar_action := grammar_action s |}
  | Reference _ _ => o
  end.

Section Repetition.
Context `{Imports}.

(** [make_repetition], grammar.py:1240.  [action] is a name (a string) or a
    function; [prod_callable] may itself record productions in the
    context. *)
Definition make_repetition (context : Context) (gsymbol : addr) (sep_ref : option addr)
    (suffix : string) (action_ : string + Action)
    (prod_callable : addr -> Context -> M (list Production * Context))
    : M (addr * Context) :=
  gsymbol_name <- get_name gsymbol ;;
  new_gsymbol_name <- match sep_ref with
                      | Some sep =>
                          sep_name <- get_name sep ;;
                          ret ((gsymbol_name +:+ suffix) +:+ ("_" +:+ sep_name))
                      | None => ret (gsymbol_name +:+ suffix)
                      end ;;
  let context := match new_productions context with
                 | None => set_new_productions [] context
                 | Some _ => context
                 end in
  match Dict.get new_gsymbol_name (the_new_productions context) with
  | Some entry => ret (fst entry, context)
  | None =>
      new_nt <- alloc (NonTerminal_init new_gsymbol_name) ;;
      modify new_nt (match action_ with
                     | inl a => set_action_name a
                     | inr f => set_only_action f
                     end) ;;;
      r <- prod_callable new_nt context ;;
      ret (new_nt,
           set_new_productions
             (Dict.set new_gsymbol_name (new_nt, fst r) (the_new_productions (snd r)))
             (snd r))
  end.

(** [make_one_or_more], grammar.py:1264. *)
Definition make_one_or_more (context : Context) (gsymbol : addr) (sep_ref : option addr)
    : M (addr * Context) :=
  let prod_callable := fun (new_nt : addr) (context : Context) =>
    p1 <- match sep_ref with
          | Some sep => Production_new new_nt [new_nt; sep; gsymbol] false
          | None => Production_new new_nt [new_nt; gsymbol] false
          end ;;
    p2 <- Production_new new_nt [gsymbol] false ;;
    ret ([p1; p2], context) in
  make_repetition context gsymbol sep_ref "_1"
    (inl (if is_None sep_ref then "collect" else "collect_sep")) prod_callable.

(** [make_zero_or_more], grammar.py:1285. *)
Definition make_zero_or_more (context : Context) (gsymbol : addr) (sep_ref : option addr)
    : M (addr * Context) :=
  let prod_callable := fun (new_nt : addr) (context : Context) =>
    one_or_more <- make_one_or_more context gsymbol sep_ref ;;
    p1 <- Production_new new_nt [fst one_or_more] true ;;
    p2 <- Production_new new_nt [EMPTY] false ;;
    ret ([p1; p2], snd one_or_more) in
  make_repetition context gsymbol sep_ref "_0"
    (inr (FunctionAction "make_zero_or_more.action")) prod_callable.

(** [make_optional], grammar.py:1306. *)
Definition make_optional (context : Context) (gsymbol : addr) (sep_ref : option addr)
    : M (addr * Context) :=
  let prod_callable := fun (new_nt : addr) (context : Context) =>
    match sep_ref with
    | Some _ =>
        gsymbol_name <- get_name gsymbol ;;
        raise (GrammarError ("Repetition modifier not allowed for optional (?) for symbol "
                             +:+ Str.quoted gsymbol_name +:+ " at "
                             +:+ pos_to_line_col (input_str context) (start_position context)
                             +:+ "."))
    | None =>
        p1 <- Production_new new_nt [gsymbol] false ;;
        p2 <- Production_new new_nt [EMPTY] false ;;
        ret ([p1; p2], context)
    end in
  make_repetition context gsymbol sep_ref "_opt" (inl "optional") prod_callable.

(** A value that an action receives or returns: [None], or a list of
    imports and productions. *)
Inductive PGFileImport : Type := mkPGFileImport (path module_name_ : string).

Inductive node : Type :=
| PyNone
| PyList (l : list (PGFileImport + Production)).





End Repetition.

(** ** Productions from a table, grammar.py:807, and [Grammar.from_struct] *)

(** An element of the right-hand side of a row: a grammar symbol, or a
    string that stands for the terminal matching it. *)
Inductive rhs_item : Type :=
| ItemSymbol (a : addr)
| ItemText (t : string).

(** A row [[LHS, RHS, optional ASSOC, optional PRIOR]]; [row_rest] is what
    follows the right-hand side. *)
Record production_row : Type := mkRow {
  row_lhs : addr;
  row_rhs : list rhs_item;
  row_rest : list Z
}.

(** [str(o)]: the name of a grammar symbol, the [__repr__] of a
    reference. *)
Definition obj_str (o : object) : string :=
  match o with
  | NonTerminal s | Terminal s _ => name s
  | Reference n m =>
      match m with
      | Some mn => if Str.truthy mn then mn +:+ "." +:+ n else n
      | None => n
      end
  end.

(** The loop that converts strings to terminals, grammar.py:830. *)
Fixpoint convert_rhs (rhs_ : list rhs_item) : M (list addr) :=
  match rhs_ with
  | [] => ret []
  | ItemSymbol a :: rhs' => l <- convert_rhs rhs' ;; ret (a :: l)
  | ItemText t :: rhs' =>
      a <- alloc (Terminal_init t None) ;;
      l <- convert_rhs rhs' ;;
      ret (a :: l)
  end.

Section FromStruct.
Context `{Imports}.
(** [text(p)], the row as Python prints it. *)
Variable row_text : production_row -> string.

(** The body of the loop of [create_productions]. *)
Definition create_production (row : production_row) : M Production :=
  o <- deref (row_lhs row) ;;
  if negb (isinstance_NonTerminal o) then
    raise (GrammarError ("Invalid production symbol " +:+ Str.squoted (obj_str o)
                         +:+ " for production " +:+ Str.squoted (row_text row)))
  else
    rhs_ <- convert_rhs (row_rhs row) ;;
    Production_init (row_lhs row) rhs_ None
      (nth 0 (row_rest row) ASSOC_NONE) (nth 1 (row_rest row) DEFAULT_PRIORITY)
      false false false.

(** [create_productions], grammar.py:807. *)
Definition create_productions (rows : list production_row) : M (list Production) :=
  map_m create_production rows.

(** [Grammar.from_struct], grammar.py:704: the constructor is called with
    its defaults, the check of recognizers among them. *)
Definition from_struct (rows : list production_row) (start_symbol_ : start_arg)
    (recognizers : option (Dict.t Recognizer)) : M Grammar :=
  ps <- create_productions rows ;;
  Grammar_init (Some ps) None None recognizers start_symbol_ false.

End FromStruct.

(** [Grammar.__iter__], grammar.py:693: the non-terminals, then the
    terminals, without those equal to [AUGSYMBOL] or [STOP]. *)
Fixpoint not_in_list (s : addr) (l : list addr) : M bool :=
  match l with
  | [] => ret true
  | x :: l' => b <- py_eq x s ;; if b then ret false else not_in_list s l'
  end.

Fixpoint filter_m (f : addr -> M bool) (l : list addr) : M (list addr) :=
  match l with
  | [] => ret []
  | x :: l' => b <- f x ;; r <- filter_m f l' ;; ret (if b then x :: r else r)
  end.

Definition Grammar_iter (g : Grammar) : M (list addr) :=
  filter_m (fun s => not_in_list s [AUGSYMBOL; STOP]) (nonterminals g ++ terminals g).

(** ** The actions of terminal rules, grammar.py:839 and grammar.py:1198-1237 *)

(** A disambiguation rule as the grammar of grammars hands it over: a
    priority or a keyword. *)
Inductive prop_value : Type :=
| PropInt (z : Z)
| PropStr (s : string).

(** One round of [_set_term_props], grammar.py:1198.  Before the failing
    [assert] the source prints the property, which has no place here. *)
Definition set_term_prop (attrs : TerminalAttrs) (t : prop_value) : exn + TerminalAttrs :=
  match t with
  | PropInt z =>
      inr {| prior := z; recognizer := recognizer attrs; finish := finish attrs;
             prefer := prefer attrs; dynamic := dynamic attrs; keyword := keyword attrs |}
  | PropStr s =>
      if String.eqb s "finish" then
        inr {| prior := prior attrs; recognizer := recognizer attrs; finish := Some true;
               prefer := prefer attrs; dynamic := dynamic attrs; keyword := keyword attrs |}
      else if String.eqb s "nofinish" then
        inr {| prior := prior attrs; recognizer := recognizer attrs; finish := Some false;
               prefer := prefer attrs; dynamic := dynamic attrs; keyword := keyword attrs |}
      else if String.eqb s "prefer" then
        inr {| prior := prior attrs; recognizer := recognizer attrs; finish := finish attrs;
               prefer := true; dynamic := dynamic attrs; keyword := keyword attrs |}
      else if String.eqb s "dynamic" then
        inr {| prior := prior attrs; recognizer := recognizer attrs; finish := finish attrs;
               prefer := prefer attrs; dynamic := true; keyword := keyword attrs |}
      else inl AssertionError
  end.

(** [_set_term_props] on the attributes of the terminal. *)
Fixpoint _set_term_props (attrs : TerminalAttrs) (props : list prop_value)
    : exn + TerminalAttrs :=
  match props with
  | [] => inr attrs
  | t :: props' =>
      match set_term_prop attrs t with
      | inl e => inl e
      | inr attrs' => _set_term_props attrs' props'
      end
  end.

(** The terminal of a rule with its properties set.  The terminal is new:
    no other object refers to it before the action returns, so it enters
    the heap as the action leaves it. *)
Definition new_terminal (o : object) (props : option (list prop_value)) : M addr :=
  match o, props with
  | Terminal s attrs, Some l =>
      attrs' <- lift (_set_term_props attrs l) ;; alloc (Terminal s attrs')
  | _, _ => alloc o
  end.

Section TerminalRules.
Context `{Imports}.

(** [check_name], grammar.py:839. *)
Definition check_name (context : Context) (name_ : string) : exn + unit :=
  if Str.mem name_ RESERVED_SYMBOL_NAMES then
    inl (GrammarError ("Rule name " +:+ Str.quoted name_ +:+ " at "
                       +:+ pos_to_line_col (input_str context) (start_position context)
                       +:+ " is reserved."))
  else inr tt.

(** [act_term_rule], grammar.py:1215.  Of [nodes] the action reads
    [nodes[0]], the name, [nodes[2]], the terminal of the recognizer, and,
    when there are more than four nodes, [nodes[4]], the properties. *)
Definition act_term_rule (context : Context) (name_ : string) (rhs_term : addr)
    (props : option (list prop_value)) : M (list Production) :=
  lift (check_name context name_) ;;;
  r <- get_recognizer rhs_term ;;
  term <- new_terminal (Terminal_init name_ r) props ;;
  p <- Production_new term [rhs_term] false ;;
  ret [p].

(** [act_term_rule_empty_body], grammar.py:1228: the properties are
    [nodes[3]] when there are more than three nodes. *)
Definition act_term_rule_empty_body (context : Context) (name_ : string)
    (props : option (list prop_value)) : M (list Production) :=
  lift (check_name context name_) ;;;
  term <- new_terminal (set_recognizer None (Terminal_init name_ None)) props ;;
  p <- Production_new term [] false ;;
  ret [p].

(** [act_recognizer_regex], grammar.py:1406; [re_flags] and [ignore_case]
    are the attributes of the context that the action reads. *)
Definition strip_ends (s : string) : string :=
  String.substring 1 (String.length s - 2) s.

Definition act_recognizer_regex (re_flags : Z) (ignore_case : bool) (node : string)
    : M addr :=
  let value := strip_ends node in
  r <- lift (RegExRecognizer_init value re_flags ignore_case) ;;
  alloc (Terminal_init value (Some r)).

End TerminalRules.

(** [s.replace(old, new)] for an [old] of two characters [c1 c2]. *)
Fixpoint replace_pair (c1 c2 : ascii) (by_ : string) (s : string) : string :=
  match s with
  | EmptyString => EmptyString
  | String x s' =>
      match s' with
      | String y s'' =>
          if Ascii.eqb x c1 && Ascii.eqb y c2 then by_ +:+ replace_pair c1 c2 by_ s''
          else String x (replace_pair c1 c2 by_ s')
      | EmptyString => String x EmptyString
      end
  end.

(** The chain of replacements of [act_recognizer_str], grammar.py:1397. *)
Definition unescape (value : string) : string :=
  let bs := Str.backslash in
  replace_pair bs "t" (String Str.tab EmptyString)
    (replace_pair bs "n" (String Str.newline EmptyString)
       (replace_pair bs bs (String bs EmptyString)
          (replace_pair bs "039" Str.squote
             (replace_pair bs "034" Str.dquote value)))).

(** [act_recognizer_str], grammar.py:1395. *)
Definition act_recognizer_str (ignore_case : bool) (node : string) : M addr :=
  let value := unescape (strip_ends node) in
  alloc (Terminal_init value (Some (StringRecognizer value ignore_case))).

(** ** [act_production], grammar.py:1176 *)

(** The dictionary [disrules]: each key is there or not. *)
Record disrules : Type := mkDisrules {
  dr_assoc : option Z;
  dr_priority : option Z;
  dr_dynamic : option bool;
  dr_nops : option bool;
  dr_nopse : option bool
}.

Definition no_disrules : disrules :=
  {| dr_assoc := None; dr_priority := None; dr_dynamic := None; dr_nops := None;
     dr_nopse := None |}.

(** One round of the loop over the rules. *)
Definition disrule_step (d : disrules) (rule : prop_value) : disrules :=
  match rule with
  | PropStr s =>
      if Str.mem s ["left"; "reduce"] then
        {| dr_assoc := Some ASSOC_LEFT; dr_priority := dr_priority d;
           dr_dynamic := dr_dynamic d; dr_nops := dr_nops d; dr_nopse := dr_nopse d |}
      else if Str.mem s ["right"; "shift"] then
        {| dr_assoc := Some ASSOC_RIGHT; dr_priority := dr_priority d;
           dr_dynamic := dr_dynamic d; dr_nops := dr_nops d; dr_nopse := dr_nopse d |}
      else if String.eqb s "dynamic" then
        {| dr_assoc := dr_assoc d; dr_priority := dr_priority d;
           dr_dynamic := Some true; dr_nops := dr_nops d; dr_nopse := dr_nopse d |}
      else if String.eqb s "nops" then
        {| dr_assoc := dr_assoc d; dr_priority := dr_priority d;
           dr_dynamic := dr_dynamic d; dr_nops := Some true; dr_nopse := dr_nopse d |}
      else if String.eqb s "nopse" then
        {| dr_assoc := dr_assoc d; dr_priority := dr_priority d;
           dr_dynamic := dr_dynamic d; dr_nops := dr_nops d; dr_nopse := Some true |}
      else d
  | PropInt z =>
      {| dr_assoc := dr_assoc d; dr_priority := Some z;
         dr_dynamic := dr_dynamic d; dr_nops := dr_nops d; dr_nopse := dr_nopse d |}
  end.

(** [act_production]: [rules] is [nodes[2]] when there is more than one
    node. *)
Definition act_production {A} (assignments_ : A) (rules : option (list prop_value))
    : A * disrules :=
  (assignments_,
   match rules with
   | Some l => fold_left disrule_step l no_disrules
   | None => no_disrules
   end).

(** ** [act_production_rule], grammar.py:1088 *)

(** [PGAttribute], grammar.py:320. *)
Record PGAttribute : Type := mkPGAttribute {
  pga_name : string;
  pga_multiplicity : string;
  pga_type_name : string
}.

(** The truth value of [a.name]: the name is there and not empty. *)
Definition asg_named (a : Assignment) : bool :=
  match asg_name a with
  | Some n => Str.truthy n
  | None => false
  end.

Definition set_index (idx : nat) (a : Assignment) : Assignment :=
  {| asg_name := asg_name a; op := op a; asg_symbol := asg_symbol a;
     orig_symbol := orig_symbol a; multiplicity := multiplicity a; index := Some idx |}.

(** The loop that tells the named assignments their indexes.  The
    assignments of an alternative are objects that the action of the
    assignment has just made, each in one place of one list; the production
    gets them as the loop leaves them. *)
Definition index_assignments (l : list Assignment) : list Assignment :=
  imap (fun idx a => if asg_named a then set_index idx a else a) l.

(** The loop that fills [attrs] from the assignments of an alternative. *)
Definition collect_attrs (attrs : Dict.t PGAttribute) (l : list Assignment)
    : M (Dict.t PGAttribute) :=
  fold_m l attrs
    (fun attrs a =>
       match asg_name a with
       | Some n =>
           if Str.truthy n then
             type_name <- get_name (orig_symbol a) ;;
             ret (Dict.set n {| pga_name := n; pga_multiplicity := multiplicity a;
                                pga_type_name := type_name |} attrs)
           else ret attrs
       | None => ret attrs
       end).

(** [d.get(key, default)] on [disrules]. *)
Definition dr_get {V} (field : option V) (default_ : V) : V :=
  match field with
  | Some v => v
  | None => default_
  end.

(** A class that the action creates has no state but its name, which is
    its key in [context.classes], and [_pg_attrs]; so [context.classes] is
    a dictionary of dictionaries of attributes here, or nothing if the
    context has no such attribute. *)
Abbreviation classes_t := (option (Dict.t (Dict.t PGAttribute))) (only parsing).

Section ProductionRule.
Context `{Imports}.

(** The body of the loop over [rhs_prods]. *)
Definition rule_alternative (symbol_ : addr)
    (st : list Production * Dict.t PGAttribute) (prod : list Assignment * disrules)
    : M (list Production * Dict.t PGAttribute) :=
  let assignments_ := index_assignments (fst prod) in
  let d := snd prod in
  p <- Production_init symbol_ (map asg_symbol assignments_) (Some assignments_)
         (dr_get (dr_assoc d) ASSOC_NONE) (dr_get (dr_priority d) DEFAULT_PRIORITY)
         (dr_get (dr_dynamic d) false) (dr_get (dr_nops d) false)
         (dr_get (dr_nopse d) false) ;;
  attrs <- collect_attrs (snd st) assignments_ ;;
  ret (fst st ++ [p], attrs).

(** [act_production_rule]: of [nodes] the action reads the name and
    [rhs_prods]; [classes] is [context.classes]. *)
Definition act_production_rule (context : Context) (classes : classes_t) (name_ : string)
    (rhs_prods : list (list Assignment * disrules)) : M (list Production * classes_t) :=
  lift (check_name context name_) ;;;
  symbol_ <- alloc (NonTerminal_init name_) ;;
  st <- fold_m rhs_prods ([], []) (rule_alternative symbol_) ;;
  match snd st with
  | [] => ret (fst st, classes)
  | attrs =>
      match classes with
      | None => raise (AttributeError "classes")
      | Some cs =>
          let cs' :=
            match Dict.get name_ cs with
            | Some old =>
                Dict.set name_
                  (fold_left (fun d kv => Dict.set (fst kv) (snd kv) d) attrs old) cs
            | None => Dict.set name_ attrs cs
            end in
          modify symbol_ (set_action_name "obj") ;;;
          ret (fst st, Some cs')
      end
  end.

End ProductionRule.

(** ** A model of the regular expressions the examples use

    The [re] library is not part of the module.  What is proved about the
    module in general is proved for every [Imports]; the concrete examples
    need the library's answer on a few patterns, and take it from this
    model of a fragment of [re]: literal characters, [\b], [.], character
    classes with ranges, and the greedy postfix operators, matched with
    backtracking; flag [re.IGNORECASE].  A pattern outside the fragment is
    reported as one that does not compile. *)
Module PyRe.

Inductive atom : Type :=
| Lit (c : ascii)
| Class (negated : bool) (ranges : list (ascii * ascii))
| AnyChar
| WordBoundary.

Inductive quantifier : Type := One | Star | Plus | Opt.

Definition pattern : Type := list (atom * quantifier).

Definition between (lo hi : nat) (c : ascii) : bool :=
  (lo <=? nat_of_ascii c) && (nat_of_ascii c <=? hi).

Definition is_alnum (c : ascii) : bool :=
  between 48 57 c || between 65 90 c || between 97 122 c.

(** [\w]. *)
Definition is_word (c : ascii) : bool := is_alnum c || Ascii.eqb c "_"%char.

Definition is_meta (c : ascii) : bool :=
  existsb (Ascii.eqb c)
    ["("%char; ")"%char; "|"%char; "{"%char; "}"%char; "^"%char; "$"%char;
     "*"%char; "+"%char; "?"%char; "]"%char].

(** The members of a class, up to the closing bracket. *)
Fixpoint parse_class (s : string) (acc : list (ascii * ascii))
    : option (list (ascii * ascii) * string) :=
  match s with
  | EmptyString => None
  | String c rest =>
      if Ascii.eqb c "]"%char then Some (rev acc, rest)
      else if Ascii.eqb c Str.backslash then None
      else
        match rest with
        | String d (String e rest') =>
            if Ascii.eqb d "-"%char && negb (Ascii.eqb e "]"%char)
            then parse_class rest' ((c, e) :: acc)
            else parse_class rest ((c, c) :: acc)
        | _ => parse_class rest ((c, c) :: acc)
        end
  end.

Definition parse_atom (c : ascii) (rest : string) : option (atom * string) :=
  if Ascii.eqb c Str.backslash then
    match rest with
    | String x r =>
        if Ascii.eqb x "b"%char then Some (WordBoundary, r)
        else if is_alnum x then None
        else Some (Lit x, r)
    | EmptyString => None
    end
  else if Ascii.eqb c "["%char then
    match rest with
    | String x r =>
        if Ascii.eqb x "^"%char
        then match parse_class r [] with
             | Some (ranges, r') => Some (Class true ranges, r')
             | None => None
             end
        else match parse_class rest [] with
             | Some (ranges, r') => Some (Class false ranges, r')
             | None => None
             end
    | EmptyString => None
    end
  else if Ascii.eqb c "."%char then Some (AnyChar, rest)
  else if is_meta c then None
  else Some (Lit c, rest).

Definition parse_quantifier (s : string) : quantifier * string :=
  match s with
  | String c rest =>
      if Ascii.eqb c "*"%char then (Star, rest)
      else if Ascii.eqb c "+"%char then (Plus, rest)
      else if Ascii.eqb c "?"%char then (Opt, rest)
      else (One, s)
  | EmptyString => (One, s)
  end.

Definition is_One (q : quantifier) : bool :=
  match q with One => true | _ => false end.

Definition is_WordBoundary (a : atom) : bool :=
  match a with WordBoundary => true | _ => false end.

Fixpoint parse_fuel (fuel : nat) (s : string) : option pattern :=
  match s with
  | EmptyString => Some []
  | String c rest =>
      match fuel with
      | O => None
      | S fuel' =>
          match parse_atom c rest with
          | None => None
          | Some (a, rest') =>
              let (q, rest'') := parse_quantifier rest' in
              if is_WordBoundary a && negb (is_One q) then None
              else match parse_fuel fuel' rest'' with
                   | Some p => Some ((a, q) :: p)
                   | None => None
                   end
          end
      end
  end.

(** Every round takes at least one character, so the length is enough. *)
Definition parse (s : string) : option pattern := parse_fuel (String.length s) s.

Definition swapcase (c : ascii) : ascii :=
  if between 65 90 c then ascii_of_nat (nat_of_ascii c + 32)
  else if between 97 122 c then ascii_of_nat (nat_of_ascii c - 32)
  else c.

Definition in_ranges (ranges : list (ascii * ascii)) (c : ascii) : bool :=
  existsb (fun r => between (nat_of_ascii (fst r)) (nat_of_ascii (snd r)) c) ranges.

Definition atom_matches (ic : bool) (a : atom) (c : ascii) : bool :=
  match a with
  | Lit x => Ascii.eqb c x || (ic && Ascii.eqb (swapcase c) x)
  | Class negated ranges =>
      xorb negated (in_ranges ranges c || (ic && in_ranges ranges (swapcase c)))
  | AnyChar => negb (Ascii.eqb c Str.newline)
  | WordBoundary => false
  end.

Definition word_before (prev : option ascii) : bool :=
  match prev with Some c => is_word c | None => false end.

Definition word_after (s : string) : bool :=
  match s with String c _ => is_word c | EmptyString => false end.

(** As many [a] as there are, then [k]; one fewer when [k] fails. *)
Fixpoint greedy (ic : bool) (a : atom) (k : option ascii -> string -> option nat)
    (prev : option ascii) (s : string) : option nat :=
  match s with
  | String c s' =>
      if atom_matches ic a c then
        match greedy ic a k (Some c) s' with
        | Some n => Some (S n)
        | None => k prev s
        end
      else k prev s
  | EmptyString => k prev s
  end.

(** The number of characters the pattern takes from the front of [s], the
    character before which is [prev]. *)
Fixpoint match_here (ic : bool) (p : pattern) (prev : option ascii) (s : string)
    : option nat :=
  match p with
  | [] => Some 0
  | (WordBoundary, _) :: p' =>
      if xorb (word_before prev) (word_after s) then match_here ic p' prev s else None
  | (a, One) :: p' =>
      match s with
      | String c s' =>
          if atom_matches ic a c then option_map S (match_here ic p' (Some c) s') else None
      | EmptyString => None
      end
  | (a, Star) :: p' => greedy ic a (match_here ic p') prev s
  | (a, Plus) :: p' =>
      match s with
      | String c s' =>
          if atom_matches ic a c
          then option_map S (greedy ic a (match_here ic p') (Some c) s')
          else None
      | EmptyString => None
      end
  | (a, Opt) :: p' =>
      match s with
      | String c s' =>
          if atom_matches ic a c then
            match match_here ic p' (Some c) s' with
            | Some n => Some (S n)
            | None => match_here ic p' prev s
            end
          else match_here ic p' prev s
      | EmptyString => match_here ic p' prev s
      end
  end.

Definition compile_error (regex : string) (flags : Z) : option string :=
  match parse regex with
  | Some _ => None
  | None => Some "pattern outside the modelled fragment"
  end.

Definition drop_str (n : nat) (s : string) : string :=
  String.substring n (String.length s - n) s.

(** [re.compile(regex, flags).match(in_str, pos).group()]. *)
Definition match_at (regex : string) (flags : Z) (in_str : string) (pos : nat)
    : option string :=
  match parse regex with
  | None => None
  | Some p =>
      if String.length in_str <? pos then None
      else
        let prev := match pos with
                    | O => None
                    | S i => String.get i in_str
                    end in
        match match_here (Z.testbit flags 1) p prev (drop_str pos in_str) with
        | Some n => Some (String.substring pos n in_str)
        | None => None
        end
  end.

End PyRe.

(** Lowering of the letters [A] to [Z].  It is what [str.lower] does on
    ASCII text, which is all the examples hold; no statement about the
    module in general uses it. *)
Definition ascii_lower_char (c : ascii) : ascii :=
  let n := nat_of_ascii c in
  if (65 <=? n) && (n <=? 90) then ascii_of_nat (n + 32) else c.

Fixpoint ascii_lower (s : string) : string :=
  match s with
  | EmptyString => EmptyString
  | String c s' => String (ascii_lower_char c) (ascii_lower s')
  end.

(** The imports the examples run with: the model of [re] above, a
    [realpath] that answers a path with itself and refuses [None], the four
    actions the module imports by name, a fixed position text, and the
    lowering of ASCII letters. *)
Definition example_imports : Imports :=
  {| re_compile_error := PyRe.compile_error;
     re_match := PyRe.match_at;
     realpath := fun p => match p with Some s => inr s | None => inl TypeError end;
     actmodule_hasattr := fun n =>
       Str.mem n ["pass_single"; "pass_none"; "collect"; "collect_sep"];
     pos_to_line_col := fun _ _ => "1,1";
     str_lower := ascii_lower |}.

(** ** Data of the examples *)

(** A heap with the module's objects and two non-terminals [A] and [B]. *)
Definition heap_AB : heap := module_heap ++ [NonTerminal_init "A"; NonTerminal_init "B"].
Definition sym_A : addr := 4.
Definition sym_B : addr := 5.

(** The elements of a backing list that are not [EMPTY], in order. *)
Definition non_EMPTY (l : list addr) : list addr :=
  filter (fun x => x <> EMPTY) l.

(** A production as [Production(symbol, rhs)] leaves it, but for its
    right-hand side. *)
Definition plain_production (symbol_ : addr) (rhs_ : list addr) (nops_ : bool) : Production :=
  {| symbol := symbol_; rhs := rhs_; assignments := None; assoc := ASSOC_NONE;
     prod_prior := DEFAULT_PRIORITY; prod_dynamic := false; nops := nops_;
     nopse := false; prod_id := None; prod_symbol_id := None |}.

(** The right-hand side that [Production(nt, ProductionRHS([g]))] stores
    for a symbol [g] named [x]: [Production.__init__] replaces a right-hand
    side whose filtered length is zero, as that of epsilon is, by an empty
    one. *)
Definition single_rhs (x : string) (g : addr) : list addr :=
  if String.eqb x "EMPTY" then [] else [g].



(** A context at the start of a compilation. *)
Definition fresh_context : Context :=
  {| new_productions := None; input_str := EmptyString; start_position := 0 |}.

(** A heap with the module's objects and references to [X_opt], [X] and
    [opt], as the grammar text [X_opt? X?[opt]] gives them. *)
Definition heap_refs : heap :=
  module_heap ++ [Reference "X_opt" None; Reference "X" None; Reference "opt" None].
Definition ref_X_opt : addr := 4.
Definition ref_X : addr := 5.
Definition ref_opt : addr := 6.

(** How many of the names are [EMPTY]. *)
Definition count_named_EMPTY (names : list string) : nat :=
  length (filter (fun n => n = "EMPTY") names).

(** The objects at the addresses [l] have the names [names]. *)
Definition have_names (h : heap) (l : list addr) (names : list string) : Prop :=
  Forall2 (fun a n => exists o, h !! a = Some o /\ obj_name o = n) l names.

(** The grammar [S: "a" S | EMPTY;]: the objects the actions of the grammar
    language create for it, and its two productions.  The alternative
    [EMPTY] has the empty right-hand side that [Production.__init__] stores
    for it. *)
Definition heap_S : heap :=
  module_heap ++ [NonTerminal_init "S";
                  Terminal_init "a" (Some (StringRecognizer "a" false));
                  Reference "S" None].
Definition nt_S : addr := 4.
Definition term_a : addr := 5.
Definition ref_S : addr := 6.
Definition productions_S : list Production :=
  [plain_production nt_S [term_a; ref_S] false; plain_production nt_S [] false].

(** A computation that only reads the heap. *)
Definition pure {A} (m : M A) : Prop :=
  forall h v h', m h = Ok v h' -> h' = h.

(** The name of the object at an address, if there is one. *)
Definition name_at (h : heap) (a : addr) : option string :=
  match h !! a with Some o => Some (obj_name o) | None => None end.

(** Two states of one object: the class and what the constructor fixed (the
    name and the hash) are the same; [keep] says that the attributes of a
    terminal are the same as well. *)
Definition same_object (keep : bool) (o o' : object) : Prop :=
  match o, o' with
  | NonTerminal s, NonTerminal s' => _hash s = _hash s'
  | Terminal s t, Terminal s' t' => _hash s = _hash s' /\ (keep = true -> t = t')
  | Reference n m, Reference n' m' => n = n' /\ m = m'
  | _, _ => False
  end.

(** A later state of the heap: every object is still there. *)
Definition heap_evolves (keep : bool) (h h' : heap) : Prop :=
  forall a o, h !! a = Some o -> exists o', h' !! a = Some o' /\ same_object keep o o'.

(** A computation under which the heap evolves. *)
Definition evolving (keep : bool) {A} (m : M A) : Prop :=
  forall h v h', m h = Ok v h' -> heap_evolves keep h h'.

(** The recognizer and the [keyword] flag of the terminal at an address. *)
Definition recognizer_at (h : heap) (a : addr) : option Recognizer :=
  match h !! a with
  | Some (Terminal _ t) => recognizer t
  | _ => None
  end.

Definition keyword_at (h : heap) (a : addr) : option bool :=
  match h !! a with
  | Some (Terminal _ t) => Some (keyword t)
  | _ => None
  end.

(** The flags of the recognizer that replaces a literal: the default
    [re.MULTILINE], with [re.IGNORECASE] for a literal that ignores case. *)
Definition keyword_flags (ignore_case : bool) : Z :=
  if ignore_case then Z.lor re_MULTILINE re_IGNORECASE else re_MULTILINE.

(** The grammar [S: "if"; KEYWORD: /[a-zA-Z_][a-zA-Z0-9_]*/;]: the terminal
    rule makes a terminal [KEYWORD] that shares the recognizer of the
    terminal of its body. *)
Definition keyword_pattern : string := "[a-zA-Z_][a-zA-Z0-9_]*".
Definition heap_kw : heap :=
  module_heap ++ [NonTerminal_init "S";
                  Terminal_init "if" (Some (StringRecognizer "if" false));
                  Terminal_init "KEYWORD"
                    (Some (RegExRecognizer keyword_pattern re_MULTILINE false));
                  Terminal_init keyword_pattern
                    (Some (RegExRecognizer keyword_pattern re_MULTILINE false))].
Definition term_if : addr := 5.
Definition term_KEYWORD : addr := 6.
Definition term_pattern : addr := 7.
Definition productions_kw : list Production :=
  [plain_production nt_S [term_if] false;
   plain_production term_KEYWORD [term_pattern] false].

(** Whether a character occurs in a string. *)
Fixpoint has_char (c : ascii) (s : string) : bool :=
  match s with
  | EmptyString => false
  | String x s' => Ascii.eqb x c || has_char c s'
  end.

(** The object at an address is a non-terminal, or a grammar symbol. *)
Definition is_NonTerminal_at (h : heap) (a : addr) : Prop :=
  exists s, h !! a = Some (NonTerminal s).

Definition is_Terminal_at (h : heap) (a : addr) : Prop :=
  exists s t, h !! a = Some (Terminal s t).

(** Every entry of a dictionary of symbols is filed under the name of its
    symbol. *)
Definition filed_by_name (h : heap) (d : Dict.t addr) : Prop :=
  forall k a, Dict.get k d = Some a -> name_at h a = Some k.

(** The one instance of a name: the symbol filed under the name in the
    index [sbn], or, for a name the index does not have, the terminal that
    the cache of reference resolution keeps for it. *)
Definition canonical (h : heap) (sbn cache : Dict.t addr) (s : addr) : Prop :=
  exists n, name_at h s = Some n /\
            (Dict.get n sbn = Some s \/
             (Dict.get n sbn = None /\ Dict.get n cache = Some s)).

(** The cache holds terminals, under their names, for names the index does
    not have. *)
Definition cache_ok (h : heap) (sbn cache : Dict.t addr) : Prop :=
  forall k a, Dict.get k cache = Some a ->
              name_at h a = Some k /\ Dict.get k sbn = None /\ is_Terminal_at h a.

(** The set of terminals holds canonical instances, those of the cache
    among them. *)
Definition terminals_ok (h : heap) (sbn cache : Dict.t addr) (ts : list addr) : Prop :=
  Forall (canonical h sbn cache) ts /\
  (forall k a, Dict.get k cache = Some a -> In a ts).

(** A dictionary that has grown. *)
Definition grown {V} (d d' : Dict.t V) : Prop :=
  forall k a, Dict.get k d = Some a -> Dict.get k d' = Some a.

(** [s] stands for the reference [ref]: it has its name, and is the
    canonical instance of the name. *)
Definition resolved (h : heap) (sbn cache : Dict.t addr) (ref s : addr) : Prop :=
  name_at h s = name_at h ref /\ canonical h sbn cache s.

(** A production after reference resolution: only its symbols changed. *)
Definition resolved_production (h : heap) (sbn cache : Dict.t addr)
    (p p' : Production) : Prop :=
  (exists n, name_at h (symbol p) = Some n /\
             symbol p' = match Dict.get n sbn with Some s => s | None => symbol p end) /\
  Forall2 (resolved h sbn cache) (rhs p) (rhs p') /\
  prod_id p' = prod_id p /\ nops p' = nops p.

(** The symbol [s] is the instance that the index of the grammar has under
    the name of [s]. *)
Definition registered (g : Grammar) (h : heap) (s : addr) : Prop :=
  exists n, name_at h s = Some n /\ Dict.get n (symbols_by_name g) = Some s.

(** The symbol [s] is a terminal of the set [terminals] whose name the index
    of the grammar does not have: a terminal written in a right-hand side,
    as [act_recognizer_str] and [act_recognizer_regex] (grammar.py:1395) and
    [create_productions] (grammar.py:832) make them. *)
Definition inline_terminal (g : Grammar) (h : heap) (s : addr) : Prop :=
  exists n, name_at h s = Some n /\ Dict.get n (symbols_by_name g) = None /\
            is_Terminal_at h s /\ In s (terminals g).

(** The symbols of a grammar: those of its productions, on either side, and
    the members of its two sets. *)
Definition grammar_symbol (g : Grammar) (s : addr) : Prop :=
  (exists p, In p (productions g) /\ (s = symbol p \/ In s (rhs p))) \/
  In s (terminals g) \/ In s (nonterminals g).

(** Whether the object at [a] is the symbol of a rule that
    [_init_grammar] keeps when it drops the productions of terminals
    (grammar.py:498): a non-terminal, or a symbol named [LAYOUT]. *)
Definition rule_symbol (h : heap) (a : addr) : bool :=
  match h !! a with
  | Some o => isinstance_NonTerminal o || String.eqb (obj_name o) "LAYOUT"
  | None => false
  end.

(** The object at [a] is a grammar symbol, not a reference. *)
Definition is_symbol_at (h : heap) (a : addr) : Prop :=
  is_Terminal_at h a \/ is_NonTerminal_at h a.

(** What a dictionary keyed by symbols holds for the object at [s] when two
    of its keys are the same key only if they are the same object; 0 is the
    default of [idx_per_symbol.get(s, 0)]. *)
Fixpoint idx_lookup (d : list (addr * nat)) (s : addr) : nat :=
  match d with
  | [] => 0
  | (k, v) :: d' => if Nat.eqb k s then v else idx_lookup d' s
  end.

(** The name [make_repetition] gives the auxiliary non-terminal
    (grammar.py:1242): the name of the symbol, the suffix of the operator
    and, with a separator, an underscore and the name of the separator. *)
Definition repetition_name (gsymbol_name suffix : string) (sep_name : option string)
    : string :=
  match sep_name with
  | Some sep => (gsymbol_name +:+ suffix) +:+ ("_" +:+ sep)
  | None => gsymbol_name +:+ suffix
  end.

(** The names of the objects at the addresses, where each is in the heap. *)
Definition opt_name_at (h : heap) (a : option addr) (n : option string) : Prop :=
  match a, n with
  | Some a, Some n => name_at h a = Some n
  | None, None => True
  | _, _ => False
  end.


(** Whether iterating over a grammar yields the object at [x]: its name is
    neither that of [AUGSYMBOL] nor that of [STOP]. *)
Definition iter_keeps (h : heap) (x : addr) : bool :=
  match name_at h x with
  | Some n => negb (String.eqb n "S'") && negb (String.eqb n "STOP")
  | None => false
  end.

(** The properties that [_set_term_props] knows. *)
Definition known_prop (t : prop_value) : bool :=
  match t with
  | PropInt _ => true
  | PropStr s => Str.mem s ["finish"; "nofinish"; "prefer"; "dynamic"]
  end.

(** The rules that [act_production] reads; it passes over the others. *)
Definition known_rule (t : prop_value) : bool :=
  match t with
  | PropInt _ => true
  | PropStr s => Str.mem s ["left"; "reduce"; "right"; "shift"; "dynamic"; "nops"; "nopse"]
  end.

Definition is_prop (s : string) (t : prop_value) : bool :=
  match t with
  | PropStr s' => String.eqb s' s
  | PropInt _ => false
  end.

(** What a property says of the priority and of [finish], and what a
    disambiguation rule says of the associativity. *)
Definition prop_priority (t : prop_value) : option Z :=
  match t with
  | PropInt z => Some z
  | PropStr _ => None
  end.

Definition prop_finish (t : prop_value) : option bool :=
  if is_prop "finish" t then Some true
  else if is_prop "nofinish" t then Some false
  else None.

Definition rule_assoc (t : prop_value) : option Z :=
  if is_prop "left" t || is_prop "reduce" t then Some ASSOC_LEFT
  else if is_prop "right" t || is_prop "shift" t then Some ASSOC_RIGHT
  else None.

(** The last priority among the properties, [z] when there is none. *)
Definition last_priority (props : list prop_value) (z : Z) : Z :=
  default z (list.last (omap prop_priority props)).

(** The last of [finish] and [nofinish] among the properties, [f] when
    there is none. *)
Definition last_finish (props : list prop_value) (f : option bool) : option bool :=
  match list.last (omap prop_finish props) with
  | Some b => Some b
  | None => f
  end.

(** [True] under a key of [disrules] that a rule sets, no key otherwise. *)
Definition flag_set (s : string) (rules : list prop_value) : option bool :=
  if existsb (is_prop s) rules then Some true else None.

(** The properties of a terminal rule, when it has any, are all known. *)
Definition props_known (props : option (list prop_value)) : bool :=
  match props with
  | Some l => forallb known_prop l
  | None => true
  end.

(** The priority the properties leave to a terminal. *)
Definition props_priority (props : option (list prop_value)) : Z :=
  match props with
  | Some l => last_priority l DEFAULT_PRIORITY
  | None => DEFAULT_PRIORITY
  end.

(** Every symbol of the list equals [EMPTY], as [==] has it: it has the
    name of [EMPTY].  This is when the length of a [ProductionRHS] is zero,
    and [Production.__init__] stores an empty right-hand side. *)
Definition all_EMPTY (h : heap) (l : list addr) : bool :=
  forallb (fun a => match name_at h a with
                    | Some n => String.eqb n "EMPTY"
                    | None => false
                    end) l.

(** The symbols of a row of [create_productions] are objects of the heap,
    and the left-hand side of a row is a non-terminal. *)
Definition item_in_heap (h : heap) (item : rhs_item) : Prop :=
  match item with
  | ItemSymbol a => is_Some (h !! a)
  | ItemText _ => True
  end.

Definition row_in_heap (h : heap) (row : production_row) : Prop :=
  is_Some (h !! row_lhs row) /\ Forall (item_in_heap h) (row_rhs row).

Definition lhs_is_NonTerminal (h : heap) (row : production_row) : bool :=
  match h !! row_lhs row with
  | Some o => isinstance_NonTerminal o
  | None => false
  end.

(** The disambiguation rules of an alternative of a rule, as
    [act_production] gets them. *)
Definition alt_rules (alt : list Assignment * option (list prop_value)) : list prop_value :=
  match snd alt with
  | Some l => l
  | None => []
  end.

(** Some alternative of the rule has a named assignment. *)
Definition rule_named (alts : list (list Assignment * option (list prop_value))) : bool :=
  existsb (fun alt => existsb asg_named (fst alt)) alts.

Definition assignment_in_heap (h : heap) (a : Assignment) : Prop :=
  is_Some (h !! asg_symbol a) /\ is_Some (h !! orig_symbol a).

(** The production that [act_production_rule] makes of an alternative. *)
Definition alt_production (h : heap) (sym : addr)
    (alt : list Assignment * option (list prop_value)) (p : Production) : Prop :=
  symbol p = sym /\
  rhs p = (if all_EMPTY h (map asg_symbol (fst alt)) then []
           else map asg_symbol (fst alt)) /\
  assoc p = default ASSOC_NONE (list.last (omap rule_assoc (alt_rules alt))) /\
  prod_prior p = default DEFAULT_PRIORITY (list.last (omap prop_priority (alt_rules alt))) /\
  prod_dynamic p = existsb (is_prop "dynamic") (alt_rules alt) /\
  nops p = existsb (is_prop "nops") (alt_rules alt) /\
  nopse p = existsb (is_prop "nopse") (alt_rules alt) /\
  prod_id p = None /\
  (forall d n a, assignments p = Some d -> Dict.get n d = Some a ->
     exists i a0, fst alt !! i = Some a0 /\ asg_name a0 = Some n /\ a = set_index i a0).

(** The alternatives of a rule [T: x="a" {left, 3} | ;] over the objects
    of [heap_S]. *)
Definition alts_T : list (list Assignment * option (list prop_value)) :=
  [([{| asg_name := Some "x"; op := Some "="; asg_symbol := term_a;
        orig_symbol := term_a; multiplicity := MULT_ONE; index := None |}],
    Some [PropStr "left"; PropInt 3]);
   ([], None)].



(** * Properties *)

(** ** Computations *)

Lemma bind_Ok {A B} (m : M A) (k : A -> M B) (h : heap) (b : B) (h' : heap) :
  bind m k h = Ok b h' -> exists a h1, m h = Ok a h1 /\ k a h1 = Ok b h'.
Proof.
  unfold bind. destruct (m h) as [a h1|e]; [eauto|discriminate].
Qed.

Lemma ret_Ok {A} (x y : A) (h h' : heap) : ret x h = Ok y h' -> x = y /\ h = h'.
Proof. unfold ret. intros [= -> ->]. auto. Qed.

Lemma deref_Ok (a : addr) (h : heap) (o : object) (h' : heap) :
  deref a h = Ok o h' -> h !! a = Some o /\ h' = h.
Proof. unfold deref. destruct (h !! a); intros [= <- <-]; auto. Qed.

Lemma get_name_Ok (a : addr) (h : heap) (n : string) (h' : heap) :
  get_name a h = Ok n h' -> (exists o, h !! a = Some o /\ obj_name o = n) /\ h' = h.
Proof.
  unfold get_name. intros (o & h1 & Hd & Hr)%bind_Ok.
  apply deref_Ok in Hd as [Hd ->]. apply ret_Ok in Hr as [<- <-]. eauto.
Qed.

(** Takes a successful run of a sequence of steps apart. *)
Ltac run H :=
  repeat match type of H with
         | bind _ _ _ = Ok _ _ =>
             let a := fresh "v" in let h := fresh "h" in
             let H1 := fresh "Hrun" in
             apply bind_Ok in H as (a & h & H1 & H)
         | ret _ _ = Ok _ _ => apply ret_Ok in H as [? ?]; subst
         | raise _ _ = Ok _ _ => discriminate H
         | Raise _ = Ok _ _ => discriminate H
         end.

(** ** ProductionRHS *)

Lemma list_getitem_nonneg {A} (l : list A) (n : nat) :
  list_getitem l (Z.of_nat n) = l !! n.
Proof.
  unfold list_getitem. destruct (Z.ltb_spec (Z.of_nat n) 0); [lia|].
  by rewrite Nat2Z.id.
Qed.

Lemma list_getitem_Some_lt {A} (l : list A) (idx : Z) (x : A) :
  list_getitem l idx = Some x -> (- Z.of_nat (length l) <= idx < Z.of_nat (length l))%Z.
Proof.
  unfold list_getitem.
  destruct (Z.ltb_spec idx 0).
  - destruct (Z.ltb_spec (idx + Z.of_nat (length l)) 0); [discriminate|]. lia.
  - intros Hx%lookup_lt_Some. lia.
Qed.

(** The loop of [__getitem__] ends: with the rounds [getitem_fuel] gives, it
    has an answer for every list and every integer index. *)
Lemma getitem_loop_ends (fuel : nat) (l : list addr) (idx : Z) :
  Z.to_nat (Z.of_nat (length l) - idx) < fuel ->
  exists r, getitem_loop fuel l idx = Some r.
Proof.
  revert idx. induction fuel as [|fuel IH]; intros idx Hf; [lia|].
  simpl. destruct (list_getitem l idx) as [symbol|] eqn:Hg; [|eauto].
  destruct (symbol =? EMPTY); [|eauto].
  apply list_getitem_Some_lt in Hg. apply IH. lia.
Qed.

Lemma getitem_loop_enough (l : list addr) (idx : Z) :
  exists r, getitem_loop (getitem_fuel l idx) l idx = Some r.
Proof. apply getitem_loop_ends. unfold getitem_fuel. lia. Qed.

Lemma getitem_loop_from (fuel : nat) (l : list addr) (n : nat) :
  length l - n < fuel ->
  getitem_loop fuel l (Z.of_nat n) = Some (head (non_EMPTY (drop n l))).
Proof.
  revert n. induction fuel as [|fuel IH]; intros n Hf; [lia|].
  simpl. rewrite list_getitem_nonneg.
  destruct (l !! n) as [symbol|] eqn:Hl.
  - rewrite (drop_S _ _ _ Hl). unfold non_EMPTY. rewrite filter_cons.
    destruct (Nat.eqb_spec symbol EMPTY) as [->|Hne].
    + rewrite decide_False by (intros ?; congruence).
      replace (Z.of_nat n + 1)%Z with (Z.of_nat (S n)) by lia.
      apply lookup_lt_Some in Hl. apply IH. lia.
    + by rewrite decide_True.
  - apply lookup_ge_None in Hl. by rewrite drop_ge.
Qed.

(** What [__getitem__] answers at a non-negative index: the first element
    that is not [EMPTY] at or after that position of the backing list. *)
Lemma getitem_from (l : list addr) (n : nat) :
  ProductionRHS_getitem l (Z.of_nat n) = head (non_EMPTY (drop n l)).
Proof.
  unfold ProductionRHS_getitem. rewrite getitem_loop_from; [done|].
  unfold getitem_fuel. lia.
Qed.

(** Indexing is transparent for [EMPTY] exactly as far as no [EMPTY] stands
    before the index: then [rhs[i]] is the element number [i] of the
    elements that are not [EMPTY]. *)
Lemma getitem_transparent_without_EMPTY_before (l : list addr) (i : nat) :
  Forall (fun x => x <> EMPTY) (take i l) ->
  ProductionRHS_getitem l (Z.of_nat i) = non_EMPTY l !! i.
Proof.
  intros Hall. rewrite getitem_from.
  rewrite <- (take_drop i l) at 2. unfold non_EMPTY at 2. rewrite list.filter_app.
  assert (Hid : filter (fun x => x <> EMPTY) (take i l) = take i l).
  { clear -Hall. induction Hall as [|x t Hx _ IH]; [done|].
    rewrite filter_cons, decide_True by done. by rewrite IH. }
  rewrite Hid. destruct (decide (i <= length l)) as [Hle|Hgt].
  - rewrite lookup_app_r by (rewrite length_take; lia).
    rewrite length_take, Nat.min_l, Nat.sub_diag by lia.
    unfold non_EMPTY. by destruct (filter _ (drop i l)).
  - rewrite drop_ge by lia. simpl. rewrite app_nil_r.
    symmetry. apply lookup_ge_None. rewrite length_take. lia.
Qed.

Lemma getitem_transparent_witness :
  ProductionRHS_getitem [sym_A; EMPTY; sym_B] (Z.of_nat 1)
  = non_EMPTY [sym_A; EMPTY; sym_B] !! 1.
Proof.
  apply (getitem_transparent_without_EMPTY_before [sym_A; EMPTY; sym_B] 1).
  repeat constructor. discriminate.
Defined.

(** At or beyond the length of the backing list, indexing answers [None]. *)
Lemma getitem_beyond_backing_list (l : list addr) (i : nat) :
  length l <= i -> ProductionRHS_getitem l (Z.of_nat i) = None.
Proof. intros Hi. rewrite getitem_from. by rewrite drop_ge. Qed.

Lemma getitem_beyond_witness : ProductionRHS_getitem [EMPTY; sym_A] (Z.of_nat 2) = None.
Proof. apply (getitem_beyond_backing_list [EMPTY; sym_A] 2). simpl. lia. Defined.

(** C3.  The claim: indexing at [i] below the reported length yields the
    element number [i+1] among those that are not [EMPTY], wherever [EMPTY]
    stands.  The code at the right-hand side [EMPTY A B]: the reported
    length is 2 and the elements that are not [EMPTY] are [A] and [B], but
    index 1 answers [A] again, because [__getitem__] starts at position 1
    of the backing list; [B] is out of reach of every index below the
    length. *)
Theorem C3_index_after_leading_EMPTY :
  ProductionRHS_len [EMPTY; sym_A; sym_B] heap_AB = Ok 2 heap_AB /\
  non_EMPTY [EMPTY; sym_A; sym_B] = [sym_A; sym_B] /\
  ProductionRHS_getitem [EMPTY; sym_A; sym_B] 0 = Some sym_A /\
  ProductionRHS_getitem [EMPTY; sym_A; sym_B] 1 = Some sym_A /\
  ProductionRHS_getitem [EMPTY; sym_A; sym_B] 1 <> non_EMPTY [EMPTY; sym_A; sym_B] !! 1.
Proof. repeat split; try reflexivity. vm_compute. discriminate. Qed.

(** C10.  The claim: at or beyond the filtered length, indexing answers
    [None].  The code at the right-hand side [EMPTY A]: the filtered length
    is 1, and index 1 answers [A], not [None]. *)
Theorem C10_index_at_filtered_length :
  ProductionRHS_len [EMPTY; sym_A] heap_AB = Ok 1 heap_AB /\
  ProductionRHS_getitem [EMPTY; sym_A] 1 = Some sym_A.
Proof. split; reflexivity. Qed.

(** ** The heap *)

Lemma lookup_alloc (h : heap) (o : object) : (h ++ [o]) !! length h = Some o.
Proof. by apply list_lookup_middle. Qed.

Lemma alloc_eq (o : object) (h : heap) : alloc o h = Ok (length h) (h ++ [o]).
Proof. reflexivity. Qed.

Lemma modify_eq (a : addr) (f : object -> object) (h : heap) (o : object) :
  h !! a = Some o -> modify a f h = Ok tt (<[a := f o]> h).
Proof. unfold modify. by intros ->. Qed.

Lemma modify_new (f : object -> object) (h : heap) (o : object) :
  modify (length h) f (h ++ [o]) = Ok tt (h ++ [f o]).
Proof.
  rewrite (modify_eq _ _ _ o) by apply lookup_alloc.
  f_equal. rewrite insert_app_r_alt, Nat.sub_diag by lia. reflexivity.
Qed.

Lemma deref_eq (a : addr) (h : heap) (o : object) :
  h !! a = Some o -> deref a h = Ok o h.
Proof. unfold deref. by intros ->. Qed.

Lemma get_name_eq (a : addr) (h : heap) (o : object) :
  h !! a = Some o -> get_name a h = Ok (obj_name o) h.
Proof. intros Ha. unfold get_name, bind. by rewrite (deref_eq _ _ _ Ha). Qed.

Lemma bind_eq {A B} (m : M A) (k : A -> M B) (h h1 : heap) (a : A) :
  m h = Ok a h1 -> bind m k h = k a h1.
Proof. unfold bind. by intros ->. Qed.

Lemma singletons_loaded_app (h h2 : heap) :
  singletons_loaded h -> singletons_loaded (h ++ h2).
Proof.
  intros ((s0 & L0 & ?) & (s1 & t1 & L1 & ?) & (s2 & t2 & L2 & ?) & (s3 & t3 & L3 & ?)).
  repeat split.
  - exists s0. split; [|done]. by apply lookup_app_l_Some.
  - exists s1, t1. split; [|done]. by apply lookup_app_l_Some.
  - exists s2, t2. split; [|done]. by apply lookup_app_l_Some.
  - exists s3, t3. split; [|done]. by apply lookup_app_l_Some.
Qed.

Lemma module_heap_loaded (h2 : heap) : singletons_loaded (module_heap ++ h2).
Proof.
  apply singletons_loaded_app. repeat split; simpl; eauto.
Qed.

(** ** Strings *)

Lemma append_cons (c : ascii) (s t : string) : String c s +:+ t = String c (s +:+ t).
Proof. reflexivity. Qed.

Lemma append_nil_l (s : string) : EmptyString +:+ s = s.
Proof. reflexivity. Qed.

Lemma append_nil_r (s : string) : s +:+ EmptyString = s.
Proof. induction s as [|c s IH]; [done|]. by rewrite append_cons, IH. Qed.

Lemma append_assoc (a b c : string) : (a +:+ b) +:+ c = a +:+ (b +:+ c).
Proof. induction a as [|x a IH]; [done|]. by rewrite !append_cons, IH. Qed.


Lemma replace_char_app (c : ascii) (by_ a b : string) :
  Str.replace_char c by_ (a +:+ b) = Str.replace_char c by_ a +:+ Str.replace_char c by_ b.
Proof.
  induction a as [|x a IH]; [done|].
  rewrite append_cons. simpl. rewrite IH.
  destruct (Ascii.eqb x c); [by rewrite append_assoc|by rewrite append_cons].
Qed.

Lemma escape_app (a b : string) : escape (a +:+ b) = escape a +:+ escape b.
Proof. unfold escape. by rewrite !replace_char_app. Qed.

Lemma length_append (a b : string) :
  String.length (a +:+ b) = String.length a + String.length b.
Proof. induction a as [|x a IH]; [done|]. rewrite append_cons. simpl. by rewrite IH. Qed.

(** A name with an underscore in it, as the names of the auxiliary
    non-terminals are, is not [EMPTY]. *)
Lemma suffixed_not_EMPTY (s t : string) :
  String.eqb (s +:+ String "_" t) "EMPTY" = false.
Proof.
  apply String.eqb_neq.
  destruct s as [|a [|b [|c [|d [|e s]]]]]; rewrite ?append_cons, ?append_nil_l;
    intros Heq; try discriminate Heq.
  injection Heq as _ _ _ _ _ Hs. destruct s; discriminate Hs.
Qed.

(** ** Dictionaries *)

Lemma Dict_set_absent {V} (k : string) (v : V) (d : Dict.t V) :
  Dict.get k d = None -> Dict.set k v d = d ++ [(k, v)].
Proof.
  induction d as [|[k' v'] d IH]; simpl; [done|].
  destruct (String.eqb k k'); [discriminate|]. intros Hd. by rewrite IH.
Qed.






(** ** Right-hand sides and the heap *)

Lemma py_eq_EMPTY (h : heap) (x : addr) (o : object) :
  singletons_loaded h -> h !! x = Some o ->
  py_eq x EMPTY h = Ok (String.eqb (obj_name o) "EMPTY") h.
Proof.
  intros (_ & _ & (s & t & HE & Hs) & _) Hx.
  unfold py_eq. rewrite (bind_eq _ _ _ _ _ (deref_eq _ _ _ Hx)).
  rewrite (bind_eq _ _ _ _ _ (deref_eq _ _ _ HE)). unfold ret. f_equal.
  assert (Hn : obj_name (Terminal s t) = "EMPTY") by (simpl; unfold name; by rewrite Hs).
  destruct (Nat.eqb_spec x EMPTY) as [->|_].
  - rewrite HE in Hx. injection Hx as <-. by rewrite Hn.
  - simpl. destruct o; by rewrite <- Hn.
Qed.

Lemma count_named_EMPTY_cons (n : string) (l : list string) :
  count_named_EMPTY (n :: l)
  = (if String.eqb n "EMPTY" then 1 else 0) + count_named_EMPTY l.
Proof.
  unfold count_named_EMPTY. rewrite filter_cons.
  destruct (String.eqb_spec n "EMPTY"); [by rewrite decide_True|by rewrite decide_False].
Qed.

Lemma count_EMPTY_from (h : heap) (l : list addr) (names : list string) (n : nat) :
  singletons_loaded h -> have_names h l names ->
  fold_m l n (fun n x => b <- py_eq x EMPTY ;; ret (if b then S n else n)) h
  = Ok (n + count_named_EMPTY names) h.
Proof.
  intros Hs Hn. revert n. induction Hn as [|a x l names (o & Ha & Ho) _ IH]; intros n.
  - simpl. unfold ret. f_equal. unfold count_named_EMPTY. simpl. lia.
  - simpl. rewrite (bind_eq _ _ _ h (if String.eqb x "EMPTY" then S n else n)).
    + rewrite IH. f_equal. unfold count_named_EMPTY. rewrite filter_cons.
      destruct (String.eqb_spec x "EMPTY") as [->|Hne].
      * rewrite decide_True by done. simpl. lia.
      * by rewrite decide_False.
    + rewrite (bind_eq _ _ _ _ _ (py_eq_EMPTY _ _ _ Hs Ha)). by rewrite Ho.
Qed.

Lemma ProductionRHS_len_eq (h : heap) (l : list addr) (names : list string) :
  singletons_loaded h -> have_names h l names ->
  ProductionRHS_len l h = Ok (length l - count_named_EMPTY names) h.
Proof.
  intros Hs Hn. unfold ProductionRHS_len, count_EMPTY.
  by rewrite (bind_eq _ _ _ _ _ (count_EMPTY_from _ _ _ 0 Hs Hn)).
Qed.

(** What [Production(symbol, rhs)] builds. *)
Lemma Production_new_eq (h : heap) (sym : addr) (l : list addr) (names : list string)
    (nops_ : bool) :
  singletons_loaded h -> have_names h l names ->
  Production_new sym l nops_ h
  = Ok (plain_production sym
          (if length l - count_named_EMPTY names =? 0 then [] else l) nops_) h.
Proof.
  intros Hs Hn. unfold Production_new, Production_init, ProductionRHS_truthy, bind.
  rewrite (ProductionRHS_len_eq _ _ _ Hs Hn).
  unfold ret, plain_production. by destruct (_ =? 0).
Qed.

(** ** Repetition operators *)

Section RepetitionFacts.
Context `{Imports}.



Lemma singletons_loaded_EMPTY (h : heap) :
  singletons_loaded h -> have_names h [EMPTY] ["EMPTY"].
Proof.
  intros (_ & _ & (s & t & HE & Hs) & _). repeat constructor.
  exists (Terminal s t). split; [done|]. simpl. unfold name. by rewrite Hs.
Qed.




End RepetitionFacts.

(** A separator on [?] is refused when the name of the auxiliary
    non-terminal is not in the side table yet. *)
Lemma make_optional_separator_refused `{Imports} (context : Context) (h : heap)
    (g sep : addr) (o so : object) :
  h !! g = Some o -> h !! sep = Some so ->
  Dict.get ((obj_name o +:+ "_opt") +:+ ("_" +:+ obj_name so))
           (the_new_productions context) = None ->
  exists message, make_optional context g (Some sep) h = Raise (GrammarError message).
Proof.
  intros Hg Hsep Hd.
  assert (Hd' : Dict.get ((obj_name o +:+ "_opt") +:+ ("_" +:+ obj_name so))
                  (the_new_productions
                     match new_productions context with
                     | Some _ => context
                     | None => set_new_productions [] context
                     end) = None).
  { unfold the_new_productions in *.
    destruct (new_productions context) eqn:E; simpl; rewrite ?E; done. }
  unfold make_optional, make_repetition, bind.
  rewrite (get_name_eq _ _ _ Hg), (get_name_eq _ _ _ Hsep). unfold ret at 1.
  rewrite Hd', alloc_eq, modify_new.
  erewrite get_name_eq by (apply lookup_app_l_Some; exact Hg).
  unfold raise. eauto.
Qed.

Lemma make_optional_separator_refused_witness :
  exists message,
    @make_optional example_imports fresh_context ref_X (Some ref_opt) heap_refs
    = Raise (GrammarError message).
Proof.
  apply (@make_optional_separator_refused example_imports fresh_context heap_refs
           ref_X ref_opt (Reference "X" None) (Reference "opt" None));
    reflexivity.
Defined.

(** C9.  The claim: for every base symbol and every separator, [?] with a
    separator raises [GrammarError].  The code, for the grammar text
    [X_opt? X?[opt]]: the first use records the auxiliary non-terminal
    [X_opt_opt]; the second builds the same name from [X], [_opt] and the
    separator [opt], finds it in the side table and returns the recorded
    non-terminal, before the function that raises the error is called. *)
Theorem C9_separator_on_optional_accepted :
  exists nt context1 h1,
    @make_optional example_imports fresh_context ref_X_opt None heap_refs
    = Ok (nt, context1) h1 /\
    Dict.keys (the_new_productions context1) = ["X_opt_opt"] /\
    @make_optional example_imports context1 ref_X (Some ref_opt) h1
    = Ok (nt, context1) h1.
Proof. eexists _, _, _. vm_compute. repeat split; reflexivity. Qed.







(** ** Computations that only read the heap *)

Lemma pure_ret {A} (x : A) : pure (ret x).
Proof. intros h v h' [_ ->]%ret_Ok. reflexivity. Qed.

Lemma pure_raise {A} (e : exn) : pure (@raise A e).
Proof. intros h v h' Hr. discriminate Hr. Qed.

Lemma pure_bind {A B} (m : M A) (k : A -> M B) :
  pure m -> (forall a, pure (k a)) -> pure (bind m k).
Proof.
  intros Hm Hk h v h' (a & h1 & H1 & H2)%bind_Ok.
  apply Hm in H1 as ->. by apply Hk in H2.
Qed.

Lemma pure_deref (a : addr) : pure (deref a).
Proof. intros h v h' [_ ->]%deref_Ok. reflexivity. Qed.

Lemma pure_lift {A} (r : exn + A) : pure (lift r).
Proof. destruct r; [apply pure_raise|apply pure_ret]. Qed.

Lemma pure_fold_m {A S} (l : list A) (s : S) (body : S -> A -> M S) :
  (forall s x, pure (body s x)) -> pure (fold_m l s body).
Proof.
  intros Hb. revert s. induction l as [|x l IH]; intros s; simpl.
  - apply pure_ret.
  - apply pure_bind; [apply Hb|]. intros s'. apply IH.
Qed.

Lemma pure_if {A} (b : bool) (m1 m2 : M A) :
  pure m1 -> pure m2 -> pure (if b then m1 else m2).
Proof. by destruct b. Qed.

Create HintDb pure discriminated.
#[local] Hint Resolve pure_ret pure_raise pure_deref pure_lift pure_if : pure.
#[local] Hint Extern 2 (pure (bind _ _)) => apply pure_bind; [|intros ?] : pure.
#[local] Hint Extern 2 (pure (fold_m _ _ _)) => apply pure_fold_m; intros ? ? : pure.
#[local] Hint Extern 3 (pure (match ?x with _ => _ end)) => destruct x : pure.

Ltac solve_pure := eauto 30 with pure.

Lemma pure_get_name (a : addr) : pure (get_name a).
Proof. unfold get_name. solve_pure. Qed.

Lemma pure_py_eq (a b : addr) : pure (py_eq a b).
Proof. unfold py_eq. solve_pure. Qed.

Lemma pure_same_key (a b : addr) : pure (same_key a b).
Proof. unfold same_key. solve_pure. Qed.

#[local] Hint Resolve pure_get_name pure_py_eq pure_same_key : pure.

Lemma pure_set_contains (s : list addr) (x : addr) : pure (set_contains s x).
Proof. induction s as [|y s IH]; simpl; solve_pure. Qed.

#[local] Hint Resolve pure_set_contains : pure.

Lemma pure_set_add (s : list addr) (x : addr) : pure (set_add s x).
Proof. unfold set_add. solve_pure. Qed.

#[local] Hint Resolve pure_set_add : pure.

Lemma pure_set_update (s l : list addr) : pure (set_update s l).
Proof. unfold set_update. solve_pure. Qed.

Lemma pure_set_of_class (cls : object -> bool) (vals : list addr) :
  pure (set_of_class cls vals).
Proof. unfold set_of_class. solve_pure. Qed.

Lemma pure_ProductionRHS_truthy (l : list addr) : pure (ProductionRHS_truthy l).
Proof. unfold ProductionRHS_truthy, ProductionRHS_len, count_EMPTY. solve_pure. Qed.

#[local] Hint Resolve pure_set_update pure_set_of_class pure_ProductionRHS_truthy : pure.

Lemma pure_Production_new (sym : addr) (l : list addr) (n : bool) :
  pure (Production_new sym l n).
Proof. unfold Production_new, Production_init. solve_pure. Qed.

Lemma pure_find_named (n : string) (s : list addr) : pure (find_named n s).
Proof. induction s as [|t s IH]; simpl; solve_pure. Qed.

Lemma pure_find_start (n : string) (ps : list Production) : pure (find_start n ps).
Proof. unfold find_start. solve_pure. Qed.

Lemma pure_non_term_productions (ps : list Production) : pure (non_term_productions ps).
Proof. induction ps as [|p ps IH]; simpl; solve_pure. Qed.

Lemma pure_idx_get (d : list (addr * nat)) (s : addr) : pure (idx_get d s).
Proof. induction d as [|[k v] d IH]; simpl; solve_pure. Qed.

Lemma pure_idx_set (d : list (addr * nat)) (s : addr) (v : nat) : pure (idx_set d s v).
Proof. induction d as [|[k v'] d IH]; simpl; solve_pure. Qed.

#[local] Hint Resolve pure_Production_new pure_find_named pure_find_start
  pure_non_term_productions pure_idx_get pure_idx_set : pure.

Lemma pure_enumerate_from (idx : nat) (d : list (addr * nat)) (ps : list Production) :
  pure (enumerate_from idx d ps).
Proof. revert idx d. induction ps as [|p ps IH]; intros idx d; simpl; solve_pure. Qed.

Lemma pure_resolve_ref (sbn r2t : Dict.t addr) (p_symbol : addr)
    (st : Dict.t addr * list addr) (ref : addr) :
  pure (resolve_ref sbn r2t p_symbol st ref).
Proof. unfold resolve_ref. solve_pure. Qed.

#[local] Hint Resolve pure_enumerate_from pure_resolve_ref : pure.

Lemma pure_resolve_rhs (sbn r2t : Dict.t addr) (p_symbol : addr)
    (st : Dict.t addr * list addr) (l : list addr) :
  pure (resolve_rhs sbn r2t p_symbol st l).
Proof. revert st. induction l as [|ref l IH]; intros st; simpl; solve_pure. Qed.

#[local] Hint Resolve pure_resolve_rhs : pure.

Lemma pure_resolve_productions (sbn r2t : Dict.t addr)
    (st : Dict.t addr * list addr) (ps : list Production) :
  pure (resolve_productions sbn r2t st ps).
Proof.
  revert st. induction ps as [|p ps IH]; intros st; simpl; [solve_pure|].
  unfold resolve_production. solve_pure.
Qed.

#[local] Hint Resolve pure_resolve_productions : pure.

Lemma pure_resolve_references (sbn r2t : Dict.t addr) (ts : list addr)
    (ps : list Production) :
  pure (_resolve_references sbn r2t ts ps).
Proof. unfold _resolve_references. solve_pure. Qed.

(** ** Grammar construction, step by step *)

Section GrammarFacts.
Context `{Imports}.

Lemma check_connect_raises (x : addr) (l : list addr) (h : heap) :
  _check_connect_recognizers (x :: l) h = Raise (AttributeError "recognizers").
Proof. reflexivity. Qed.

Lemma set_add_nonempty (s : list addr) (x : addr) (h : heap) (s' : list addr) (h' : heap) :
  set_add s x h = Ok s' h' -> s' <> [].
Proof.
  unfold set_add. intros Hrun. run Hrun. destruct v.
  - destruct s; [|discriminate]. simpl in Hrun0. discriminate.
  - by destruct s.
Qed.

Lemma set_update_nonempty (s : list addr) (l : list addr) (x : addr)
    (h : heap) (s' : list addr) (h' : heap) :
  set_update s (l ++ [x]) h = Ok s' h' -> s' <> [].
Proof.
  unfold set_update. revert s h. induction l as [|y l IH]; intros s h Hrun; simpl in Hrun.
  - run Hrun. by apply set_add_nonempty in Hrun0.
  - run Hrun. by apply IH in Hrun.
Qed.

(** What a successful [_init_grammar] went through. *)
Lemma init_grammar_Ok (ps : list Production) (imports_ : option (Dict.t string))
    (fp : string) (start : option addr) (no_check : bool) (h : heap)
    (g : Grammar) (h1 : heap) :
  _init_grammar ps imports_ fp start no_check h = Ok g h1 ->
  exists start_symbol_ p0 sbn r2t ts0 nts ts1 ts2 ps_res ntp ps_enum hc,
    start = Some start_symbol_ /\
    Production_new AUGSYMBOL [start_symbol_; STOP] false h = Ok p0 h /\
    _collect_grammar_symbols (p0 :: ps) h = Ok (sbn, r2t, ts0, nts) hc /\
    set_update ts0 [EMPTY; EOF; STOP] hc = Ok ts1 hc /\
    no_check = true /\
    _resolve_references
      (Dict.set "STOP" STOP (Dict.set "EOF" EOF (Dict.set "EMPTY" EMPTY sbn)))
      r2t ts1 (p0 :: ps) hc = Ok (ts2, ps_res) hc /\
    non_term_productions ps_res hc = Ok ntp hc /\
    _enumerate_productions (if 1 <? length ntp then ntp else ps_res) hc = Ok ps_enum hc /\
    g = {| productions := ps_enum; imports := imports_; file_path := fp;
           symbols_by_name :=
             Dict.set "STOP" STOP (Dict.set "EOF" EOF (Dict.set "EMPTY" EMPTY sbn));
           recog_to_terminals := r2t; start_symbol := start_symbol_;
           nonterminals := nts; terminals := ts2; _no_check_recognizers := no_check |} /\
    _fix_keyword_terminals g hc = Ok tt h1.
Proof.
  unfold _init_grammar. intros Hrun.
  apply bind_Ok in Hrun as (start_symbol_ & h2 & Hstart & Hrun).
  destruct start as [a|]; [|discriminate]. apply ret_Ok in Hstart as [<- <-].
  apply bind_Ok in Hrun as (p0 & h2 & Hp0 & Hrun).
  pose proof (pure_Production_new _ _ _ _ _ _ Hp0) as ->.
  apply bind_Ok in Hrun as ([[[sbn r2t] ts0] nts] & hc & Hc & Hrun).
  apply bind_Ok in Hrun as (ts1 & h2 & Hts1 & Hrun).
  pose proof (pure_set_update _ _ _ _ _ Hts1) as ->.
  apply bind_Ok in Hrun as ([] & h2 & Hcheck & Hrun).
  assert (no_check = true /\ h2 = hc) as [-> ->].
  { destruct no_check; [by apply ret_Ok in Hcheck as [_ <-]|].
    destruct ts1 as [|x l]; [|by rewrite check_connect_raises in Hcheck].
    by apply (set_update_nonempty _ [EMPTY; EOF]) in Hts1. }
  apply bind_Ok in Hrun as ([ts2 ps_res] & h2 & Hres & Hrun).
  pose proof (pure_resolve_references _ _ _ _ _ _ _ Hres) as ->.
  apply bind_Ok in Hrun as (ntp & h2 & Hntp & Hrun).
  pose proof (pure_non_term_productions _ _ _ _ Hntp) as ->.
  apply bind_Ok in Hrun as (ps_enum & h2 & Henum & Hrun).
  pose proof (pure_enumerate_from _ _ _ _ _ _ Henum) as ->.
  apply bind_Ok in Hrun as ([] & h2 & Hfix & Hrun).
  apply ret_Ok in Hrun as [<- <-].
  exists a, p0, sbn, r2t, ts0, nts, ts1, ts2, ps_res, ntp, ps_enum, hc.
  simpl in *. repeat split; assumption || reflexivity.
Qed.

(** With the check of recognizers on, construction does not return. *)
Lemma init_grammar_checked_fails (ps : list Production)
    (imports_ : option (Dict.t string)) (fp : string) (start : option addr)
    (h : heap) (g : Grammar) (h1 : heap) :
  _init_grammar ps imports_ fp start false h <> Ok g h1.
Proof.
  intros Hrun. apply init_grammar_Ok in Hrun
    as (? & ? & ? & ? & ? & ? & ? & ? & ? & ? & ? & ? & _ & _ & _ & _ & Hno & _).
  discriminate Hno.
Qed.

(** What a successful [Grammar.__init__] went through. *)
Lemma Grammar_init_Ok (productions_ : option (list Production))
    (imports_ : option (Dict.t string)) (file_path_ : option string)
    (recognizers : option (Dict.t Recognizer)) (start_symbol_ : start_arg)
    (no_check : bool) (h : heap) (g : Grammar) (h1 : heap) :
  Grammar_init productions_ imports_ file_path_ recognizers start_symbol_ no_check h
  = Ok g h1 ->
  exists ps fp st h0 start,
    productions_ = Some ps /\
    realpath file_path_ = inr fp /\
    collect_symbols (Some ps) h = Ok st h0 /\
    match start_symbol_ with
    | StartName n =>
        if Str.truthy n then find_start n ps h0 = Ok start h0
        else exists p ps', ps = p :: ps' /\ start = Some (symbol p)
    | StartNone => exists p ps', ps = p :: ps' /\ start = Some (symbol p)
    | StartSymbol a => start = Some a
    end /\
    _init_grammar ps imports_ fp start no_check h0 = Ok g h1.
Proof.
  unfold Grammar_init, PGFile_init. intros Hrun.
  apply bind_Ok in Hrun as ([fp st] & h0 & Hpg & Hrun).
  apply bind_Ok in Hpg as (fp' & ha & Hfp & Hpg).
  destruct (realpath file_path_) as [e|fp''] eqn:Hreal; [discriminate|].
  apply ret_Ok in Hfp as [<- <-].
  apply bind_Ok in Hpg as (st' & hb & Hst & Hpg). apply ret_Ok in Hpg as [[= -> ->] ->].
  destruct productions_ as [ps|]; [|discriminate].
  apply bind_Ok in Hrun as (start & hd & Hstart & Hrun).
  assert (Hfirst : forall h2',
             match ps with
             | p :: _ => ret (Some (symbol p))
             | [] => raise IndexError
             end h0 = Ok start h2' ->
             (exists p ps', ps = p :: ps' /\ start = Some (symbol p)) /\ h2' = h0).
  { intros h2' Hf. destruct ps as [|p ps']; [discriminate|].
    apply ret_Ok in Hf as [<- <-]. eauto. }
  exists ps, fp, st, h0, start. simpl.
  destruct start_symbol_ as [|n|a].
  - apply Hfirst in Hstart as [? ->]. auto.
  - destruct (Str.truthy n).
    + pose proof (pure_find_start _ _ _ _ _ Hstart) as ->. auto.
    + apply Hfirst in Hstart as [? ->]. auto.
  - apply ret_Ok in Hstart as [<- <-]. auto.
Qed.

End GrammarFacts.

(** ** How the heap evolves *)

Lemma same_object_refl (keep : bool) (o : object) : same_object keep o o.
Proof. destruct o; simpl; auto. Qed.

Lemma same_object_trans (keep : bool) (o1 o2 o3 : object) :
  same_object keep o1 o2 -> same_object keep o2 o3 -> same_object keep o1 o3.
Proof.
  destruct o1, o2, o3; simpl; try tauto.
  - congruence.
  - intros [-> K1] [-> K2]. split; [done|]. intros K. rewrite (K1 K). auto.
  - intros [-> ->] [-> ->]. auto.
Qed.

Lemma same_object_weaken (keep : bool) (o o' : object) :
  same_object true o o' -> same_object keep o o'.
Proof. destruct o, o'; simpl; tauto. Qed.

Lemma same_object_name (keep : bool) (o o' : object) :
  same_object keep o o' -> obj_name o' = obj_name o.
Proof.
  destruct o, o'; simpl; try tauto; unfold name.
  - by intros ->.
  - by intros [-> _].
  - by intros [-> _].
Qed.

Lemma same_object_Terminal (keep : bool) (o o' : object) :
  same_object keep o o' -> isinstance_Terminal o' = isinstance_Terminal o.
Proof. destruct o, o'; simpl; tauto. Qed.

Lemma same_object_NonTerminal (keep : bool) (o o' : object) :
  same_object keep o o' -> isinstance_NonTerminal o' = isinstance_NonTerminal o.
Proof. destruct o, o'; simpl; tauto. Qed.

Lemma same_object_hash (keep : bool) (a : addr) (o o' : object) :
  same_object keep o o' -> obj_hash a o' = obj_hash a o.
Proof.
  destruct o, o'; simpl; try tauto.
  - by intros ->.
  - by intros [-> _].
Qed.

Lemma heap_evolves_refl (keep : bool) (h : heap) : heap_evolves keep h h.
Proof. intros a o Ha. eauto using same_object_refl. Qed.

Lemma heap_evolves_trans (keep : bool) (h1 h2 h3 : heap) :
  heap_evolves keep h1 h2 -> heap_evolves keep h2 h3 -> heap_evolves keep h1 h3.
Proof.
  intros H12 H23 a o Ha. destruct (H12 a o Ha) as (o2 & Ha2 & S12).
  destruct (H23 a o2 Ha2) as (o3 & Ha3 & S23). eauto using same_object_trans.
Qed.

Lemma heap_evolves_weaken (keep : bool) (h h' : heap) :
  heap_evolves true h h' -> heap_evolves keep h h'.
Proof.
  intros Hh a o Ha. destruct (Hh a o Ha) as (o' & Ha' & S).
  eauto using same_object_weaken.
Qed.

Lemma heap_evolves_name (keep : bool) (h h' : heap) (a : addr) (n : string) :
  heap_evolves keep h h' -> name_at h a = Some n -> name_at h' a = Some n.
Proof.
  unfold name_at. intros Hh Hn. destruct (h !! a) as [o|] eqn:Ha; [|discriminate].
  destruct (Hh a o Ha) as (o' & -> & S). by rewrite (same_object_name _ _ _ S).
Qed.

Lemma heap_evolves_loaded (keep : bool) (h h' : heap) :
  heap_evolves keep h h' -> singletons_loaded h -> singletons_loaded h'.
Proof.
  intros Hh ((s0 & L0 & N0) & (s1 & t1 & L1 & N1) & (s2 & t2 & L2 & N2)
             & (s3 & t3 & L3 & N3)).
  destruct (Hh _ _ L0) as ([s0'| |] & L0' & S0); simpl in S0; try tauto.
  destruct (Hh _ _ L1) as ([|s1' t1'|] & L1' & S1); simpl in S1; try tauto.
  destruct (Hh _ _ L2) as ([|s2' t2'|] & L2' & S2); simpl in S2; try tauto.
  destruct (Hh _ _ L3) as ([|s3' t3'|] & L3' & S3); simpl in S3; try tauto.
  destruct S1 as [S1 _], S2 as [S2 _], S3 as [S3 _].
  repeat split; eauto 6 using eq_trans, eq_sym.
Qed.

Lemma evolving_pure (keep : bool) {A} (m : M A) : pure m -> evolving keep m.
Proof. intros Hp h v h' Hr. apply Hp in Hr as ->. apply heap_evolves_refl. Qed.

Lemma evolving_bind (keep : bool) {A B} (m : M A) (k : A -> M B) :
  evolving keep m -> (forall a, evolving keep (k a)) -> evolving keep (bind m k).
Proof.
  intros Hm Hk h v h' (a & h1 & H1 & H2)%bind_Ok.
  eapply heap_evolves_trans; [by eapply Hm|by eapply Hk].
Qed.

Lemma evolving_alloc (keep : bool) (o : object) : evolving keep (alloc o).
Proof.
  intros h v h' [= <- <-] a o' Ha. exists o'.
  split; [by apply lookup_app_l_Some|apply same_object_refl].
Qed.

Lemma evolving_modify (keep : bool) (a : addr) (f : object -> object) :
  (forall o, same_object keep o (f o)) -> evolving keep (modify a f).
Proof.
  intros Hf h v h' Hr. unfold modify in Hr.
  destruct (h !! a) as [o|] eqn:Ha; [|discriminate]. injection Hr as _ <-.
  intros b ob Hb. destruct (decide (b = a)) as [->|Hne].
  - exists (f o). rewrite list_lookup_insert_eq by (by eapply lookup_lt_Some).
    rewrite Ha in Hb. injection Hb as <-. auto.
  - exists ob. rewrite list_lookup_insert_ne by done. auto using same_object_refl.
Qed.

Lemma evolving_fold_m (keep : bool) {A S} (l : list A) (s : S) (body : S -> A -> M S) :
  (forall s x, evolving keep (body s x)) -> evolving keep (fold_m l s body).
Proof.
  intros Hb. revert s. induction l as [|x l IH]; intros s; simpl.
  - apply evolving_pure, pure_ret.
  - apply evolving_bind; [apply Hb|]. intros s'. apply IH.
Qed.

Lemma evolving_for_each (keep : bool) {A} (l : list A) (body : A -> M unit) :
  (forall x, evolving keep (body x)) -> evolving keep (for_each l body).
Proof.
  intros Hb. induction l as [|x l IH]; simpl.
  - apply evolving_pure, pure_ret.
  - apply evolving_bind; [apply Hb|]. intros _. apply IH.
Qed.

Lemma same_object_set_action (act : Action) (o : object) :
  same_object true o (set_action act o).
Proof. destruct o; simpl; auto. Qed.

Lemma same_object_set_recognizer (r : option Recognizer) (o : object) :
  same_object false o (set_recognizer r o).
Proof. destruct o; simpl; auto. split; [done|discriminate]. Qed.

Lemma same_object_set_keyword (k : bool) (o : object) :
  same_object false o (set_keyword k o).
Proof. destruct o; simpl; auto. split; [done|discriminate]. Qed.

Lemma pure_get_action_name (a : addr) : pure (get_action_name a).
Proof. unfold get_action_name. solve_pure. Qed.

Lemma pure_get_recognizer (a : addr) : pure (get_recognizer a).
Proof. unfold get_recognizer. solve_pure. Qed.

#[local] Hint Resolve pure_get_action_name pure_get_recognizer : pure.

Create HintDb evolving discriminated.
#[local] Hint Resolve evolving_alloc : evolving.
#[local] Hint Extern 1 (evolving _ (bind _ _)) =>
  apply evolving_bind; [|intros ?] : evolving.
#[local] Hint Extern 1 (evolving _ (modify _ _)) =>
  apply evolving_modify;
  auto using same_object_set_action, same_object_set_recognizer,
    same_object_set_keyword : evolving.
#[local] Hint Extern 3 (evolving _ (if ?b then _ else _)) => destruct b : evolving.
#[local] Hint Extern 3 (evolving _ (match ?x with _ => _ end)) => destruct x : evolving.
#[local] Hint Extern 8 (evolving _ _) => apply evolving_pure; solve_pure : evolving.

Ltac solve_evolving := eauto 40 with evolving.

Section Evolution.
Context `{Imports}.

Lemma pure_del_first_named (n : string) (d : Dict.t addr) : pure (del_first_named n d).
Proof. induction d as [|[k v] d IH]; simpl; solve_pure. Qed.

Lemma evolving_resolve_action (old_symbol new_symbol : addr) :
  evolving true (_resolve_action old_symbol new_symbol).
Proof. unfold _resolve_action. solve_evolving. Qed.

Lemma evolving_collect_step (st : Dict.t addr * Dict.t addr) (p : Production) :
  evolving true (collect_step st p).
Proof.
  pose proof pure_del_first_named. pose proof evolving_resolve_action.
  unfold collect_step. solve_evolving.
Qed.

Lemma evolving_collect_symbols (ps : option (list Production)) :
  evolving true (collect_symbols ps).
Proof.
  destruct ps as [ps|]; simpl; [|apply evolving_pure, pure_raise].
  apply evolving_fold_m. intros s x. apply evolving_collect_step.
Qed.

Lemma evolving_collect_grammar_symbols (ps : list Production) :
  evolving true (_collect_grammar_symbols ps).
Proof.
  pose proof (evolving_collect_symbols (Some ps)).
  unfold _collect_grammar_symbols. solve_evolving.
Qed.

Lemma evolving_fix_keyword_terminal (r : Recognizer) (term : addr) :
  evolving false (fix_keyword_terminal r term).
Proof. unfold fix_keyword_terminal. solve_evolving. Qed.

Lemma evolving_fix_keyword_terminals (g : Grammar) :
  evolving false (_fix_keyword_terminals g).
Proof.
  unfold _fix_keyword_terminals, get_terminal.
  apply evolving_bind; [apply evolving_pure, pure_find_named|]. intros [kt|].
  - apply evolving_bind; [apply evolving_pure, pure_get_recognizer|].
    intros [[| |]|]; try (apply evolving_pure, pure_raise).
    apply evolving_for_each. intros x. apply evolving_fix_keyword_terminal.
  - apply evolving_pure, pure_ret.
Qed.

End Evolution.

Section StartSymbol.
Context `{Imports}.

Lemma init_grammar_evolves (ps : list Production) (imports_ : option (Dict.t string))
    (fp : string) (start : option addr) (no_check : bool) (h : heap)
    (g : Grammar) (h1 : heap) :
  _init_grammar ps imports_ fp start no_check h = Ok g h1 -> heap_evolves false h h1.
Proof.
  intros Hrun. apply init_grammar_Ok in Hrun
    as (? & ? & ? & ? & ? & ? & ? & ? & ? & ? & ? & hc
        & _ & _ & Hc & _ & _ & _ & _ & _ & _ & Hfix).
  apply evolving_collect_grammar_symbols in Hc.
  apply evolving_fix_keyword_terminals in Hfix.
  eapply heap_evolves_trans; [apply heap_evolves_weaken|]; eassumption.
Qed.

Lemma init_grammar_start (ps : list Production) (imports_ : option (Dict.t string))
    (fp : string) (start : option addr) (no_check : bool) (h : heap)
    (g : Grammar) (h1 : heap) :
  _init_grammar ps imports_ fp start no_check h = Ok g h1 ->
  start = Some (start_symbol g).
Proof.
  intros Hrun. apply init_grammar_Ok in Hrun
    as (? & ? & ? & ? & ? & ? & ? & ? & ? & ? & ? & hc
        & -> & _ & _ & _ & _ & _ & _ & _ & -> & _).
  reflexivity.
Qed.

Lemma find_start_from (n : string) (ps : list Production) (found : option addr)
    (h : heap) (r : option addr) (h' : heap) :
  fold_m ps found
    (fun found p =>
       pn <- get_name (symbol p) ;;
       ret (if String.eqb pn n then Some (symbol p) else found)) h = Ok r h' ->
  r = found \/
  exists p, In p ps /\ name_at h (symbol p) = Some n /\ r = Some (symbol p).
Proof.
  revert found h. induction ps as [|p ps IH]; intros found h Hrun; simpl in Hrun.
  - apply ret_Ok in Hrun as [<- _]. auto.
  - apply bind_Ok in Hrun as (found' & h2 & Hstep & Hrun).
    apply bind_Ok in Hstep as (pn & h3 & Hn & Hstep).
    apply get_name_Ok in Hn as [(o & Ho & Hon) ->].
    apply ret_Ok in Hstep as [<- <-].
    apply IH in Hrun as [Hr|(q & Hq & Hqn & Hr)].
    + destruct (String.eqb_spec pn n) as [Hpn|_]; [|auto].
      right. exists p. split; [by left|]. split; [|done].
      unfold name_at. by rewrite Ho, Hon, Hpn.
    + right. exists q. split; [by right|]. auto.
Qed.

Lemma find_start_Some (n : string) (ps : list Production) (h : heap) (s : addr)
    (h' : heap) :
  find_start n ps h = Ok (Some s) h' ->
  exists p, In p ps /\ name_at h (symbol p) = Some n /\ s = symbol p.
Proof.
  intros [Hr|(p & Hp & Hn & [= ->])]%find_start_from; [discriminate|eauto].
Qed.

End StartSymbol.

(** C5.  The claim: with the check of recognizers on, a terminal named in
    the override map gets the override, and a terminal without recognizer
    is a [GrammarError].  The code: [PGFile.__init__] takes [recognizers]
    and does not bind [self.recognizers], so the first round of the loop of
    [_check_connect_recognizers] raises [AttributeError]; the set of
    terminals always holds [EMPTY], [EOF] and [STOP], so with the check on
    no construction returns a grammar, and none binds an override. *)
Theorem C5_checked_construction_raises :
  (forall (I : Imports) productions_ imports_ file_path_ recognizers start h g h1,
      @Grammar_init I productions_ imports_ file_path_ recognizers start false h
      <> Ok g h1) /\
  @Grammar_init example_imports (Some productions_S) None (Some "grammar.pg")
    (Some [("a", StringRecognizer "b" true)]) StartNone false heap_S
  = Raise (AttributeError "recognizers").
Proof.
  split; [|reflexivity].
  intros I productions_ imports_ file_path_ recognizers start h g h1 Hrun.
  apply Grammar_init_Ok in Hrun as (ps & fp & st & h0 & s & _ & _ & _ & _ & Hrun).
  by apply init_grammar_checked_fails in Hrun.
Qed.

(** C8, the claim as stated, at the empty name: the constructor is given
    the start symbol by a name that no production bears, and returns a
    grammar whose start symbol is that of the first production; the test
    [if start_symbol] takes the empty string for no start symbol. *)
Lemma C8_empty_name_is_no_name :
  exists g h1,
    @Grammar_init example_imports (Some productions_S) None (Some "grammar.pg")
      None (StartName EmptyString) true heap_S = Ok g h1 /\
    start_symbol g = nt_S /\
    Forall (fun p => name_at h1 (symbol p) <> Some EmptyString) productions_S.
Proof.
  eexists _, _. split; [vm_compute; reflexivity|].
  split; [reflexivity|]. repeat constructor; discriminate.
Qed.

(** C8, amended.  When the constructor returns a grammar: for a start
    symbol given by a name that is not empty, a production bears the name
    and [start_symbol] is its symbol (so without such a production the
    constructor raises); for no start symbol, or the empty name,
    [start_symbol] is the symbol of the first production; a start symbol
    given as an object is kept. *)
Theorem C8_start_symbol `{Imports} (productions_ : option (list Production))
    (imports_ : option (Dict.t string)) (file_path_ : option string)
    (recognizers : option (Dict.t Recognizer)) (start : start_arg) (no_check : bool)
    (h : heap) (g : Grammar) (h1 : heap) :
  Grammar_init productions_ imports_ file_path_ recognizers start no_check h = Ok g h1 ->
  exists ps, productions_ = Some ps /\
    match start with
    | StartName n =>
        if Str.truthy n
        then exists p, In p ps /\ name_at h1 (symbol p) = Some n /\
                       start_symbol g = symbol p
        else exists p ps', ps = p :: ps' /\ start_symbol g = symbol p
    | StartNone => exists p ps', ps = p :: ps' /\ start_symbol g = symbol p
    | StartSymbol a => start_symbol g = a
    end.
Proof.
  intros Hrun.
  apply Grammar_init_Ok in Hrun as (ps & fp & st & h0 & s & -> & _ & _ & Hstart & Hrun).
  exists ps. split; [done|].
  pose proof (init_grammar_start _ _ _ _ _ _ _ _ Hrun) as ->.
  pose proof (init_grammar_evolves _ _ _ _ _ _ _ _ Hrun) as Hev.
  destruct start as [|n|a].
  - destruct Hstart as (p & ps' & -> & [= ->]). eauto.
  - destruct (Str.truthy n).
    + apply find_start_Some in Hstart as (p & Hp & Hn & ->).
      exists p. eauto using heap_evolves_name.
    + destruct Hstart as (p & ps' & -> & [= ->]). eauto.
  - by injection Hstart as ->.
Qed.

Lemma C8_witness :
  exists g h1,
    @Grammar_init example_imports (Some productions_S) None (Some "grammar.pg")
      None (StartName "S") true heap_S = Ok g h1 /\
    exists p, In p productions_S /\ name_at h1 (symbol p) = Some "S" /\
              start_symbol g = symbol p.
Proof.
  destruct (@Grammar_init example_imports (Some productions_S) None (Some "grammar.pg")
              None (StartName "S") true heap_S) as [g h1|e] eqn:Hrun.
  - exists g, h1. split; [reflexivity|].
    destruct (@C8_start_symbol example_imports _ _ _ _ _ _ _ _ _ Hrun)
      as (ps & Hps & Hp).
    injection Hps as <-. exact Hp.
  - vm_compute in Hrun. discriminate Hrun.
Defined.

(** ** Keyword terminals *)

Lemma heap_evolves_recognizer (h h' : heap) (a : addr) (r : Recognizer) :
  heap_evolves true h h' -> recognizer_at h a = Some r -> recognizer_at h' a = Some r.
Proof.
  unfold recognizer_at. intros Hev Hr.
  destruct (h !! a) as [[|s t|]|] eqn:Ha; try discriminate.
  destruct (Hev a _ Ha) as ([|s' t'|] & -> & S); simpl in S; try tauto.
  destruct S as [_ <-]; done.
Qed.

Lemma find_named_evolves (keep : bool) (n : string) (s : list addr) (h h' : heap)
    (r : option addr) :
  heap_evolves keep h h' -> find_named n s h = Ok r h -> find_named n s h' = Ok r h'.
Proof.
  intros Hev. induction s as [|t s IH]; simpl; intros Hrun.
  - apply ret_Ok in Hrun as [<- _]. reflexivity.
  - apply bind_Ok in Hrun as (tn & h2 & Hn & Hrun).
    apply get_name_Ok in Hn as [(o & Ho & Hon) ->].
    destruct (Hev t o Ho) as (o' & Ho' & S).
    rewrite (bind_eq _ _ _ _ _ (get_name_eq _ _ _ Ho')).
    rewrite (same_object_name _ _ _ S), Hon.
    destruct (String.eqb tn n); [|auto].
    apply ret_Ok in Hrun as [<- _]. reflexivity.
Qed.

Section KeywordFacts.
Context `{Imports}.

Lemma fix_keyword_other (kr : Recognizer) (term : addr) (h h' : heap) (a : addr) :
  fix_keyword_terminal kr term h = Ok tt h' -> a <> term -> h' !! a = h !! a.
Proof.
  unfold fix_keyword_terminal. intros Hrun Hne.
  apply bind_Ok in Hrun as (r & h2 & Hr & Hrun).
  apply pure_get_recognizer in Hr as ->.
  destruct r as [[v ic| |]|]; try (by apply ret_Ok in Hrun as [_ <-]).
  destruct (Recognizer_call kr v 0) as [m|]; [|by apply ret_Ok in Hrun as [_ <-]].
  destruct (String.eqb m v); [|by apply ret_Ok in Hrun as [_ <-]].
  apply bind_Ok in Hrun as (r' & h2 & Hr' & Hrun).
  apply pure_lift in Hr' as ->.
  apply bind_Ok in Hrun as ([] & h2 & Hm1 & Hm2).
  unfold modify in Hm1, Hm2.
  destruct (h !! term); [|discriminate]. injection Hm1 as <-.
  destruct (_ !! term); [|discriminate]. injection Hm2 as <-.
  by rewrite !list_lookup_insert_ne.
Qed.

Lemma fix_keyword_not_literal (kr : Recognizer) (term : addr) (h h' : heap) :
  fix_keyword_terminal kr term h = Ok tt h' ->
  (forall v ic, recognizer_at h term <> Some (StringRecognizer v ic)) -> h' = h.
Proof.
  unfold fix_keyword_terminal, get_recognizer, recognizer_at. intros Hrun Hnot.
  apply bind_Ok in Hrun as (r & h2 & Hr & Hrun).
  apply bind_Ok in Hr as (o & h3 & Ho & Hr). apply deref_Ok in Ho as [Ho ->].
  rewrite Ho in Hnot. destruct o as [|s t|]; try discriminate.
  apply ret_Ok in Hr as [<- <-].
  destruct (recognizer t) as [[v ic| |]|]; try (by apply ret_Ok in Hrun as [_ <-]).
  by destruct (Hnot v ic).
Qed.

Lemma fix_keyword_literal (kr : Recognizer) (term : addr) (h h' : heap)
    (v : string) (ic : bool) :
  fix_keyword_terminal kr term h = Ok tt h' ->
  recognizer_at h term = Some (StringRecognizer v ic) ->
  Recognizer_call kr v 0 = Some v ->
  recognizer_at h' term = Some (RegExRecognizer (word_boundary v) (keyword_flags ic) ic) /\
  keyword_at h' term = Some true.
Proof.
  unfold fix_keyword_terminal, get_recognizer, recognizer_at, keyword_at.
  intros Hrun Hlit Hcall.
  apply bind_Ok in Hrun as (r & h2 & Hr & Hrun).
  apply bind_Ok in Hr as (o & h3 & Ho & Hr). apply deref_Ok in Ho as [Ho ->].
  rewrite Ho in Hlit. destruct o as [|s t|]; try discriminate.
  apply ret_Ok in Hr as [<- <-]. rewrite Hlit, Hcall, String.eqb_refl in Hrun.
  apply bind_Ok in Hrun as (r' & h2 & Hr' & Hrun).
  unfold RegExRecognizer_init in Hr'.
  destruct (re_compile_error _ _); [discriminate|].
  apply ret_Ok in Hr' as [<- <-].
  apply bind_Ok in Hrun as ([] & h2 & Hm1 & Hm2).
  unfold modify in Hm1, Hm2. rewrite Ho in Hm1. injection Hm1 as <-.
  assert (Hlt : term < length h) by (by eapply lookup_lt_Some).
  rewrite list_lookup_insert_eq in Hm2 by done. injection Hm2 as <-.
  rewrite list_lookup_insert_eq by (by rewrite length_insert).
  simpl. auto.
Qed.

(** The loop of [_fix_keyword_terminals]: a terminal whose recognizer is
    not a literal is left as it is, and every terminal of the set whose
    literal the keyword recognizer matches in full is rewritten. *)
Lemma fix_keyword_loop (kr : Recognizer) (l : list addr) (h h' : heap) :
  for_each l (fix_keyword_terminal kr) h = Ok tt h' ->
  (forall a, (forall v ic, recognizer_at h a <> Some (StringRecognizer v ic)) ->
             h' !! a = h !! a) /\
  (forall t v ic,
      In t l -> recognizer_at h t = Some (StringRecognizer v ic) ->
      Recognizer_call kr v 0 = Some v ->
      recognizer_at h' t = Some (RegExRecognizer (word_boundary v) (keyword_flags ic) ic) /\
      keyword_at h' t = Some true).
Proof.
  revert h. induction l as [|x l IH]; intros h Hrun; simpl in Hrun.
  - apply ret_Ok in Hrun as [_ <-]. split; [done|]. intros t v ic [].
  - apply bind_Ok in Hrun as ([] & h2 & Hx & Hrun).
    destruct (IH _ Hrun) as [IHa IHb].
    assert (Hsame : forall a,
               (forall v ic, recognizer_at h a <> Some (StringRecognizer v ic)) ->
               h2 !! a = h !! a).
    { intros a Hnot. destruct (decide (a = x)) as [->|Hne].
      - by rewrite (fix_keyword_not_literal _ _ _ _ Hx Hnot).
      - by apply (fix_keyword_other _ _ _ _ _ Hx). }
    split.
    + intros a Hnot. rewrite IHa; [by apply Hsame|].
      intros v ic. unfold recognizer_at. rewrite (Hsame a Hnot). apply Hnot.
    + intros t v ic Hin Hlit Hcall. destruct (decide (t = x)) as [->|Hne].
      * destruct (fix_keyword_literal _ _ _ _ _ _ Hx Hlit Hcall) as [Hr Hk].
        unfold recognizer_at, keyword_at in *.
        rewrite IHa; [done|]. intros v' ic'. unfold recognizer_at.
        destruct (h2 !! x) as [[|s a|]|]; try discriminate. congruence.
      * destruct Hin as [->|Hin]; [done|].
        apply (IHb t v ic Hin); [|done].
        unfold recognizer_at. by rewrite (fix_keyword_other _ _ _ _ _ Hx Hne).
Qed.

End KeywordFacts.

Lemma get_recognizer_at (a : addr) (h : heap) (r : option Recognizer) (h' : heap) :
  get_recognizer a h = Ok r h' -> recognizer_at h a = r /\ h' = h.
Proof.
  unfold get_recognizer, recognizer_at. intros Hrun.
  apply bind_Ok in Hrun as (o & h2 & Ho & Hrun). apply deref_Ok in Ho as [-> ->].
  destruct o; try discriminate. by apply ret_Ok in Hrun as [<- <-].
Qed.

(** C4.  In a grammar that construction returns and that has a terminal
    named [KEYWORD] with a regex recognizer, every terminal of the grammar
    that came with a literal recognizer whose value the [KEYWORD] pattern
    matches in full at position 0 has, after construction, the regex
    recognizer of the pattern [\b<literal>\b], with the case sensitivity of
    the literal, and its [keyword] flag set.  For the grammar
    [S: "if"; KEYWORD: /[a-zA-Z_][a-zA-Z0-9_]*/;] the recognizer of the
    terminal [if] then finds no match in [ifx] at position 0, where the
    literal recognizer found [if]. *)
Theorem C4_keyword_terminals :
  (forall (I : Imports) productions_ imports_ file_path_ recognizers start no_check
          h g h1,
      @Grammar_init I productions_ imports_ file_path_ recognizers start no_check h
      = Ok g h1 ->
      forall kt regex flags ic,
        get_terminal g "KEYWORD" h1 = Ok (Some kt) h1 ->
        recognizer_at h1 kt = Some (RegExRecognizer regex flags ic) ->
        forall t value ignore_case,
          In t (terminals g) ->
          recognizer_at h t = Some (StringRecognizer value ignore_case) ->
          re_match regex flags value 0 = Some value ->
          recognizer_at h1 t
          = Some (RegExRecognizer (word_boundary value) (keyword_flags ignore_case)
                    ignore_case) /\
          keyword_at h1 t = Some true) /\
  (exists g h1 r,
      @Grammar_init example_imports (Some productions_kw) None (Some "grammar.pg")
        None StartNone true heap_kw = Ok g h1 /\
      In term_if (terminals g) /\
      recognizer_at heap_kw term_if = Some (StringRecognizer "if" false) /\
      @StringRecognizer_call example_imports "if" false "ifx" 0 = Some "if" /\
      recognizer_at h1 term_if = Some r /\
      r = RegExRecognizer (word_boundary "if") re_MULTILINE false /\
      keyword_at h1 term_if = Some true /\
      @Recognizer_call example_imports r "ifx" 0 = None /\
      @Recognizer_call example_imports r "if x" 0 = Some "if").
Proof.
  split.
  - intros I productions_ imports_ file_path_ recognizers start no_check h g h1 Hrun
      kt regex flags ic Hkt Hkr t value ignore_case Hin Hlit Hmatch.
    apply Grammar_init_Ok in Hrun as (ps & fp & st & h0 & s & _ & _ & Hc0 & _ & Hrun).
    apply evolving_collect_symbols in Hc0.
    apply init_grammar_Ok in Hrun
      as (? & ? & ? & ? & ? & ? & ? & ? & ? & ? & ? & hc
          & _ & _ & Hc & _ & _ & _ & _ & _ & Hg & Hfix).
    apply evolving_collect_grammar_symbols in Hc.
    assert (Hlit' : recognizer_at hc t = Some (StringRecognizer value ignore_case))
      by eauto using heap_evolves_recognizer.
    pose proof (evolving_fix_keyword_terminals _ _ _ _ Hfix) as Hev.
    unfold _fix_keyword_terminals in Hfix.
    apply bind_Ok in Hfix as (kt' & h2 & Hfind & Hfix).
    pose proof (pure_find_named _ _ _ _ _ Hfind) as ->.
    pose proof (find_named_evolves _ _ _ _ _ _ Hev Hfind) as Hfind'.
    unfold get_terminal in Hkt. rewrite Hfind' in Hkt. injection Hkt as ->.
    apply bind_Ok in Hfix as (kr & h2 & Hkr' & Hfix).
    apply get_recognizer_at in Hkr' as [Hkr' ->].
    destruct kr as [[| regex' flags' ic' |]|]; try discriminate.
    destruct (fix_keyword_loop _ _ _ _ Hfix) as [Hkeep Hfixed].
    assert (Heq : RegExRecognizer regex' flags' ic' = RegExRecognizer regex flags ic).
    { assert (Hsame : h1 !! kt = hc !! kt).
      { apply Hkeep. intros v c. by rewrite Hkr'. }
      unfold recognizer_at in Hkr, Hkr'. rewrite Hsame in Hkr. congruence. }
    rewrite Heq in Hfixed. by apply Hfixed.
  - eexists _, _, _. split; [vm_compute; reflexivity|].
    split; [vm_compute; tauto|]. split; [reflexivity|]. split; [reflexivity|].
    split; [vm_compute; reflexivity|].
    vm_compute. repeat split; auto.
Qed.

Lemma C4_witness :
  exists g h1,
    @Grammar_init example_imports (Some productions_kw) None (Some "grammar.pg")
      None StartNone true heap_kw = Ok g h1 /\
    recognizer_at h1 term_if
    = Some (RegExRecognizer (word_boundary "if") (keyword_flags false) false) /\
    keyword_at h1 term_if = Some true.
Proof.
  destruct (@Grammar_init example_imports (Some productions_kw) None
              (Some "grammar.pg") None StartNone true heap_kw) as [g h1|e] eqn:Hrun.
  - exists g, h1. split; [reflexivity|].
    apply (proj1 C4_keyword_terminals example_imports _ _ _ _ _ _ _ _ _ Hrun
             term_KEYWORD keyword_pattern re_MULTILINE false).
    + vm_compute in Hrun. injection Hrun as <- <-. reflexivity.
    + vm_compute in Hrun. injection Hrun as <- <-. reflexivity.
    + vm_compute in Hrun. injection Hrun as <- <-. vm_compute. tauto.
    + reflexivity.
    + reflexivity.
  - vm_compute in Hrun. discriminate Hrun.
Defined.

(** ** Names *)

Lemma has_char_app (c : ascii) (a b : string) :
  has_char c (a +:+ b) = has_char c a || has_char c b.
Proof.
  induction a as [|x a IH]; [done|]. rewrite append_cons. simpl.
  by rewrite IH, orb_assoc.
Qed.

Lemma replace_char_absent (c : ascii) (by_ s : string) :
  has_char c s = false -> Str.replace_char c by_ s = s.
Proof.
  induction s as [|x s IH]; [done|]. simpl.
  intros [-> Hs]%orb_false_iff. by rewrite IH.
Qed.

Lemma replace_char_removes (c : ascii) (by_ s : string) :
  has_char c by_ = false -> has_char c (Str.replace_char c by_ s) = false.
Proof.
  intros Hby. induction s as [|x s IH]; [done|]. simpl.
  destruct (Ascii.eqb x c) eqn:Hx.
  - by rewrite has_char_app, Hby, IH.
  - simpl. by rewrite Hx, IH.
Qed.

Lemma replace_char_keeps_absent (c d : ascii) (by_ s : string) :
  has_char d by_ = false -> has_char d s = false ->
  has_char d (Str.replace_char c by_ s) = false.
Proof.
  intros Hby. induction s as [|x s IH]; [done|]. simpl.
  intros [Hx Hs]%orb_false_iff. destruct (Ascii.eqb x c).
  - by rewrite has_char_app, Hby, IH.
  - simpl. by rewrite Hx, IH.
Qed.

(** Escaping an escaped name changes nothing. *)
Lemma escape_idem (s : string) : escape (escape s) = escape s.
Proof.
  unfold escape.
  set (s1 := Str.replace_char Str.newline _ s).
  set (s2 := Str.replace_char Str.tab _ s1).
  assert (Hn : has_char Str.newline s2 = false).
  { apply replace_char_keeps_absent; [done|]. by apply replace_char_removes. }
  assert (Ht : has_char Str.tab s2 = false) by (by apply replace_char_removes).
  rewrite (replace_char_absent Str.newline _ s2 Hn).
  by rewrite (replace_char_absent Str.tab _ s2 Ht).
Qed.

(** The name of a grammar symbol is an escaped name. *)
Lemma obj_name_escaped (o : object) :
  isinstance_Terminal o || isinstance_NonTerminal o = true ->
  escape (obj_name o) = obj_name o.
Proof. destruct o; simpl; try discriminate; intros _; apply escape_idem. Qed.

Lemma Dict_get_set {V} (k k' : string) (v : V) (d : Dict.t V) :
  Dict.get k (Dict.set k' v d) = if String.eqb k k' then Some v else Dict.get k d.
Proof.
  induction d as [|[k2 v2] d IH]; simpl.
  - done.
  - destruct (String.eqb_spec k' k2) as [->|Hne]; simpl.
    + by destruct (String.eqb k k2).
    + destruct (String.eqb_spec k k2) as [->|Hne2].
      * by destruct (String.eqb_spec k2 k') as [->|_].
      * apply IH.
Qed.

Lemma Dict_get_set_eq {V} (k : string) (v : V) (d : Dict.t V) :
  Dict.get k (Dict.set k v d) = Some v.
Proof. by rewrite Dict_get_set, String.eqb_refl. Qed.

Lemma Dict_get_set_ne {V} (k k' : string) (v : V) (d : Dict.t V) :
  k <> k' -> Dict.get k (Dict.set k' v d) = Dict.get k d.
Proof. intros Hne. rewrite Dict_get_set. by destruct (String.eqb_spec k k'). Qed.

Lemma name_at_Some (h : heap) (a : addr) (o : object) :
  h !! a = Some o -> name_at h a = Some (obj_name o).
Proof. unfold name_at. by intros ->. Qed.

Lemma name_at_inv (h : heap) (a : addr) (n : string) :
  name_at h a = Some n -> exists o, h !! a = Some o /\ obj_name o = n.
Proof. unfold name_at. destruct (h !! a) as [o|]; [|discriminate]. intros [= <-]. eauto. Qed.

Lemma filed_by_name_evolves (keep : bool) (h h' : heap) (d : Dict.t addr) :
  heap_evolves keep h h' -> filed_by_name h d -> filed_by_name h' d.
Proof. intros Hev Hd k a Hk. eauto using heap_evolves_name. Qed.

Lemma filed_by_name_set (h : heap) (d : Dict.t addr) (k : string) (a : addr) :
  filed_by_name h d -> name_at h a = Some k -> filed_by_name h (Dict.set k a d).
Proof.
  intros Hd Ha k' a'. rewrite Dict_get_set.
  destruct (String.eqb_spec k' k) as [->|_]; [by intros [= <-]|apply Hd].
Qed.

Lemma is_NonTerminal_evolves (keep : bool) (h h' : heap) (a : addr) :
  heap_evolves keep h h' -> is_NonTerminal_at h a -> is_NonTerminal_at h' a.
Proof.
  intros Hev (s & Ha). destruct (Hev a _ Ha) as ([s'| |] & Ha' & S); simpl in S; try tauto.
  by exists s'.
Qed.

Lemma is_Terminal_evolves (keep : bool) (h h' : heap) (a : addr) :
  heap_evolves keep h h' -> is_Terminal_at h a -> is_Terminal_at h' a.
Proof.
  intros Hev (s & t & Ha).
  destruct (Hev a _ Ha) as ([|s' t'|] & Ha' & S); simpl in S; try tauto.
  by exists s', t'.
Qed.

(** ** Collecting the symbols *)

Section CollectFacts.
Context `{Imports}.

Lemma resolve_action_symbol (old_symbol new_symbol : addr) (h h' : heap) :
  _resolve_action old_symbol new_symbol h = Ok tt h' ->
  exists o, h !! new_symbol = Some o /\
            isinstance_Terminal o || isinstance_NonTerminal o = true.
Proof.
  unfold _resolve_action, get_action_name. intros Hrun.
  apply bind_Ok in Hrun as (an & h2 & Han & _).
  apply bind_Ok in Han as (o & h3 & Ho & Han). apply deref_Ok in Ho as [Ho ->].
  exists o. split; [done|]. by destruct o.
Qed.

(** One round of the loop that collects the symbols: the symbol [new] is
    filed under the name of the symbol of the production. *)
Lemma collect_step_spec (st : Dict.t addr * Dict.t addr) (p : Production)
    (h : heap) (st' : Dict.t addr * Dict.t addr) (h' : heap) :
  collect_step st p h = Ok st' h' ->
  filed_by_name h (fst st) ->
  exists n new,
    name_at h (symbol p) = Some n /\
    fst st' = Dict.set n new (fst st) /\
    name_at h' new = Some n /\
    heap_evolves true h h' /\
    (is_NonTerminal_at h (symbol p) \/
     (exists a, Dict.get n (fst st) = Some a /\ is_NonTerminal_at h a) ->
     is_NonTerminal_at h' new).
Proof.
  destruct st as [sbn r2t]. unfold collect_step. cbn [fst snd]. intros Hrun Hfiled.
  apply bind_Ok in Hrun as (o & h0 & Ho & Hrun). apply deref_Ok in Ho as [Ho ->].
  apply bind_Ok in Hrun as ([new r2t'] & h2 & Hnew & Hrun). cbn [fst snd] in Hrun.
  apply bind_Ok in Hrun as ([] & h3 & Hact & Hrun).
  apply bind_Ok in Hrun as (n' & h4 & Hn' & Hrun).
  apply get_name_Ok in Hn' as [(o3 & Ho3 & Hon3) ->].
  apply ret_Ok in Hrun as [<- <-]. cbn [fst snd].
  pose proof (evolving_resolve_action _ _ _ _ _ Hact) as Hev23.
  destruct (resolve_action_symbol _ _ _ _ Hact) as (o2 & Ho2 & Hsym2).
  assert (Hname3 : name_at h3 new = Some n') by (by rewrite (name_at_Some _ _ _ Ho3), Hon3).
  assert (Hcases :
    heap_evolves true h h2 /\ name_at h2 new = Some (obj_name o) /\
    (is_NonTerminal_at h (symbol p) \/
     (exists a, Dict.get (obj_name o) sbn = Some a /\ is_NonTerminal_at h a) ->
     is_NonTerminal_at h2 new)).
  { destruct (isinstance_Terminal o) eqn:Hterm.
    - destruct (Dict.get (obj_name o) sbn) as [prev|] eqn:Hprev.
      + apply bind_Ok in Hnew as (po & h5 & Hpo & Hnew).
        apply deref_Ok in Hpo as [Hpo ->].
        destruct (isinstance_Terminal po) eqn:Hpterm.
        * apply bind_Ok in Hnew as (a & h5 & Ha & Hnew). injection Ha as <- <-.
          apply bind_Ok in Hnew as (nn & h5 & Hnn & Hnew).
          apply pure_get_name in Hnn as ->.
          apply bind_Ok in Hnew as (r & h5 & Hdel & Hnew).
          apply pure_del_first_named in Hdel as ->.
          apply ret_Ok in Hnew as [[= <- <-] <-].
          split; [by apply (evolving_alloc true (NonTerminal_init (obj_name o)) h (length h))|].
          split.
          { rewrite (name_at_Some _ _ _ (lookup_alloc _ _)). simpl. unfold name. simpl.
            f_equal. apply obj_name_escaped. by rewrite Hterm. }
          intros [(s & Hs)|(a & Ha & s & Hs)].
          -- rewrite Hs in Ho. by injection Ho as <-.
          -- injection Ha as <-. rewrite Hs in Hpo. by injection Hpo as <-.
        * apply ret_Ok in Hnew as [[= <- <-] <-].
          split; [apply heap_evolves_refl|]. split; [by apply Hfiled|].
          intros [(s & Hs)|(a & Ha & Hnt)].
          -- rewrite Hs in Ho. by injection Ho as <-.
          -- by injection Ha as <-.
      + assert (new = symbol p /\ h2 = h) as [-> ->].
        { apply bind_Ok in Hnew as (t & h5 & Ht & Hnew).
          apply pure_ProductionRHS_truthy in Ht as ->.
          destruct t; [|by apply ret_Ok in Hnew as [[= <- _] <-]].
          destruct (ProductionRHS_getitem (rhs p) 0); [|discriminate].
          apply bind_Ok in Hnew as (rn & h5 & Hrn & Hnew).
          apply pure_get_name in Hrn as ->.
          destruct (Str.mem rn SPECIAL_SYMBOL_NAMES);
            [by apply ret_Ok in Hnew as [[= <- _] <-]|].
          destruct (Dict.contains (obj_name o) r2t); [discriminate|].
          by apply ret_Ok in Hnew as [[= <- _] <-]. }
        split; [apply heap_evolves_refl|]. split; [by apply name_at_Some|].
        intros [(s & Hs)|(a & Ha & _)]; [|discriminate].
        rewrite Hs in Ho. by injection Ho as <-.
    - apply ret_Ok in Hnew as [[= <- <-] <-].
      split; [apply heap_evolves_refl|]. split; [by apply name_at_Some|].
      intros _. rewrite Ho in Ho2. injection Ho2 as <-.
      rewrite Hterm in Hsym2. destruct o; try discriminate. by eexists. }
  destruct Hcases as (Hev02 & Hname2 & Hnt).
  assert (n' = obj_name o) as ->.
  { pose proof (heap_evolves_name _ _ _ _ _ Hev23 Hname2) as E. congruence. }
  exists (obj_name o), new.
  split; [by apply name_at_Some|]. split; [done|]. split; [done|].
  split; [by eapply heap_evolves_trans|].
  intros Hor. eapply is_NonTerminal_evolves; [exact Hev23|]. by apply Hnt.
Qed.

End CollectFacts.

Section CollectLoop.
Context `{Imports}.

(** The whole loop: what the index of names holds at its end. *)
Lemma collect_loop_spec (ps : list Production) (st : Dict.t addr * Dict.t addr)
    (h : heap) (st' : Dict.t addr * Dict.t addr) (h' : heap) :
  fold_m ps st collect_step h = Ok st' h' ->
  filed_by_name h (fst st) ->
  filed_by_name h' (fst st') /\
  heap_evolves true h h' /\
  (forall p, In p ps ->
     exists n a, name_at h' (symbol p) = Some n /\ Dict.get n (fst st') = Some a) /\
  (forall k a', Dict.get k (fst st') = Some a' ->
     (exists a, Dict.get k (fst st) = Some a) \/
     (exists p, In p ps /\ name_at h' (symbol p) = Some k)) /\
  (forall k a, Dict.get k (fst st) = Some a -> is_NonTerminal_at h a ->
     exists a', Dict.get k (fst st') = Some a' /\ is_NonTerminal_at h' a') /\
  (forall k a, Dict.get k (fst st) = Some a ->
     exists a', Dict.get k (fst st') = Some a') /\
  (forall p, In p ps -> is_NonTerminal_at h (symbol p) ->
     exists n a', name_at h' (symbol p) = Some n /\ Dict.get n (fst st') = Some a' /\
                  is_NonTerminal_at h' a').
Proof.
  revert st h. induction ps as [|p ps IH]; intros st h Hrun Hfiled; simpl in Hrun.
  - apply ret_Ok in Hrun as [<- <-].
    split; [done|]. split; [apply heap_evolves_refl|].
    split; [intros p []|]. split; [eauto|]. split; [eauto|]. split; [eauto|].
    intros p [].
  - apply bind_Ok in Hrun as (st1 & h1 & Hstep & Hrun).
    destruct (collect_step_spec _ _ _ _ _ Hstep Hfiled)
      as (n & new & Hn & Hst1 & Hnew & Hev & Hnt).
    assert (Hfiled1 : filed_by_name h1 (fst st1)).
    { rewrite Hst1. apply filed_by_name_set; [|done].
      by eapply filed_by_name_evolves. }
    destruct (IH _ _ Hrun Hfiled1) as (Hf' & Hev' & Hreg & Horigin & Hmono & Hkeys & Hntp).
    assert (Hget1 : Dict.get n (fst st1) = Some new)
      by (rewrite Hst1; apply Dict_get_set_eq).
    split; [done|]. split; [by eapply heap_evolves_trans|].
    split; [|split; [|split; [|split]]].
    + intros q [<-|Hq]; [|by apply Hreg].
      destruct (Hkeys _ _ Hget1) as (a' & Ha'). exists n, a'.
      split; [|done]. eapply heap_evolves_name; [exact Hev'|].
      by eapply heap_evolves_name.
    + intros k a' Hk. destruct (Horigin _ _ Hk) as [(a & Ha)|(q & Hq & Hqn)].
      * rewrite Hst1, Dict_get_set in Ha.
        destruct (String.eqb_spec k n) as [->|_]; [|eauto].
        right. exists p. split; [by left|].
        eapply heap_evolves_name; [exact Hev'|]. by eapply heap_evolves_name.
      * right. exists q. split; [by right|done].
    + intros k a Hk Hant. destruct (String.eqb_spec k n) as [->|Hne].
      * apply (Hmono n new Hget1). apply Hnt. eauto.
      * apply (Hmono k a).
        -- by rewrite Hst1, Dict_get_set_ne.
        -- by eapply is_NonTerminal_evolves.
    + intros k a Hk. destruct (String.eqb_spec k n) as [->|Hne].
      * by apply (Hkeys n new).
      * apply (Hkeys k a). by rewrite Hst1, Dict_get_set_ne.
    + intros q [<-|Hq] Hqnt.
      * destruct (Hmono n new Hget1) as (a' & Ha' & Hant); [by apply Hnt; left|].
        exists n, a'. split; [|done].
        eapply heap_evolves_name; [exact Hev'|]. by eapply heap_evolves_name.
      * apply (Hntp q Hq). by eapply is_NonTerminal_evolves.
Qed.

End CollectLoop.

(** ** Resolving the references *)

Lemma grown_refl {V} (d : Dict.t V) : grown d d.
Proof. by intros k a. Qed.

Lemma grown_trans {V} (d1 d2 d3 : Dict.t V) : grown d1 d2 -> grown d2 d3 -> grown d1 d3.
Proof. intros H12 H23 k a Hk. auto. Qed.

Lemma grown_set {V} (d : Dict.t V) (k : string) (v : V) :
  Dict.get k d = None -> grown d (Dict.set k v d).
Proof.
  intros Hk k' a Hk'. rewrite Dict_get_set.
  destruct (String.eqb_spec k' k) as [->|_]; [congruence|done].
Qed.

Lemma canonical_grown (h : heap) (sbn cache cache' : Dict.t addr) (s : addr) :
  grown cache cache' -> canonical h sbn cache s -> canonical h sbn cache' s.
Proof. intros Hg (n & Hn & [Hs|[Hs Hc]]); exists n; split; auto. Qed.

Lemma resolved_grown (h : heap) (sbn cache cache' : Dict.t addr) (ref s : addr) :
  grown cache cache' -> resolved h sbn cache ref s -> resolved h sbn cache' ref s.
Proof. intros Hg [Hn Hc]. split; [done|by eapply canonical_grown]. Qed.

(** Two canonical instances of one name are one object. *)
Lemma canonical_unique (h : heap) (sbn cache : Dict.t addr) (s1 s2 : addr) :
  canonical h sbn cache s1 -> canonical h sbn cache s2 ->
  name_at h s1 = name_at h s2 -> s1 = s2.
Proof.
  intros (n1 & Hn1 & H1) (n2 & Hn2 & H2) Heq.
  assert (n1 = n2) as -> by congruence.
  destruct H1 as [H1|[H1 H1']], H2 as [H2|[H2 H2']]; congruence.
Qed.

Lemma same_key_true (y x : addr) (h h' : heap) :
  same_key y x h = Ok true h' ->
  exists n, name_at h x = Some n /\ name_at h y = Some n.
Proof.
  unfold same_key. intros Hrun.
  apply bind_Ok in Hrun as (oy & h2 & Hy & Hrun). apply deref_Ok in Hy as [Hy ->].
  apply bind_Ok in Hrun as (ox & h3 & Hx & Hrun). apply deref_Ok in Hx as [Hx ->].
  apply ret_Ok in Hrun as [Hb _].
  apply andb_prop in Hb as [_ Hb]. apply orb_prop in Hb as [Hb|Hb].
  - apply Nat.eqb_eq in Hb as ->. rewrite (name_at_Some _ _ _ Hx). eauto.
  - rewrite (name_at_Some _ _ _ Hx), (name_at_Some _ _ _ Hy).
    exists (obj_name ox). split; [done|]. f_equal.
    destruct oy, ox; simpl in Hb; try (by apply String.eqb_eq in Hb).
    apply Nat.eqb_eq in Hb as ->. congruence.
Qed.

Lemma set_contains_true (s : list addr) (x : addr) (h h' : heap) :
  set_contains s x h = Ok true h' ->
  exists y n, In y s /\ name_at h x = Some n /\ name_at h y = Some n.
Proof.
  induction s as [|y s IH]; simpl; intros Hrun.
  - apply ret_Ok in Hrun as [? _]. discriminate.
  - apply bind_Ok in Hrun as (b & h2 & Hb & Hrun).
    pose proof (pure_same_key _ _ _ _ _ Hb) as ->. destruct b.
    + apply same_key_true in Hb as (n & Hx & Hy). exists y, n. auto.
    + apply IH in Hrun as (z & n & Hz & Hx & Hzn). exists z, n. auto.
Qed.

(** Adding to a set: the member goes last, unless a member with the same
    name is there. *)
Lemma set_add_spec (s : list addr) (x : addr) (h : heap) (s' : list addr) (h' : heap) :
  set_add s x h = Ok s' h' ->
  s' = s ++ [x] \/
  (s' = s /\ exists y n, In y s /\ name_at h x = Some n /\ name_at h y = Some n).
Proof.
  unfold set_add. intros Hrun.
  apply bind_Ok in Hrun as (b & h2 & Hb & Hrun).
  pose proof (pure_set_contains _ _ _ _ _ Hb) as ->.
  apply ret_Ok in Hrun as [<- _]. destruct b; [|auto].
  right. split; [done|]. by eapply set_contains_true.
Qed.

Section ResolveFacts.
Context `{Imports}.

(** One reference, grammar.py:602-635. *)
Lemma resolve_ref_spec (sbn r2t : Dict.t addr) (p_symbol : addr)
    (cache : Dict.t addr) (ts : list addr) (ref : addr) (h : heap)
    (cache' : Dict.t addr) (ts' : list addr) (s : addr) (h' : heap) :
  resolve_ref sbn r2t p_symbol (cache, ts) ref h = Ok (cache', ts', s) h' ->
  filed_by_name h sbn -> cache_ok h sbn cache ->
  cache_ok h sbn cache' /\ grown cache cache' /\ resolved h sbn cache' ref s /\
  incl ts ts' /\
  (terminals_ok h sbn cache ts -> terminals_ok h sbn cache' ts').
Proof.
  unfold resolve_ref. intros Hrun Hfiled Hcache.
  apply bind_Ok in Hrun as (n & h2 & Hn & Hrun).
  apply get_name_Ok in Hn as [(o & Ho & Hon) ->].
  assert (Hname : name_at h ref = Some n) by (by rewrite (name_at_Some _ _ _ Ho), Hon).
  destruct (Dict.get n sbn) as [ref_sym|] eqn:Hsbn.
  { apply ret_Ok in Hrun as [[= <- <- <-] _].
    split; [done|]. split; [apply grown_refl|]. split; [|split; [apply incl_refl|done]].
    split; [by rewrite Hname; apply Hfiled|].
    exists n. split; [by apply Hfiled|auto]. }
  apply bind_Ok in Hrun as (ps & h2 & Hps & Hrun). apply deref_Ok in Hps as [_ ->].
  destruct (if isinstance_NonTerminal ps then Dict.get n r2t else None).
  { apply bind_Ok in Hrun as (? & h2 & _ & Hrun).
    apply bind_Ok in Hrun as (? & h3 & _ & Hrun). discriminate. }
  apply bind_Ok in Hrun as (r & h2 & Hr & Hrun). apply deref_Ok in Hr as [Hr ->].
  rewrite Ho in Hr. injection Hr as <-.
  destruct (isinstance_Terminal o) eqn:Hterm; simpl in Hrun.
  2: { apply bind_Ok in Hrun as (? & h2 & _ & Hrun). discriminate. }
  assert (Hist : is_Terminal_at h ref) by (destruct o; try discriminate; by eexists _, _).
  cbn [fst snd] in Hrun.
  destruct (Dict.get n cache) as [ref_sym|] eqn:Hc.
  { apply ret_Ok in Hrun as [[= <- <- <-] _].
    split; [done|]. split; [apply grown_refl|]. split; [|split; [apply incl_refl|done]].
    destruct (Hcache _ _ Hc) as (Hrn & _ & _).
    split; [congruence|]. exists n. auto. }
  apply bind_Ok in Hrun as (ts2 & h2 & Hadd & Hrun).
  pose proof (pure_set_add _ _ _ _ _ Hadd) as ->.
  apply ret_Ok in Hrun as [[= <- <- <-] _].
  assert (Hgrown : grown cache (Dict.set n ref cache)) by (by apply grown_set).
  assert (Hcan : canonical h sbn (Dict.set n ref cache) ref).
  { exists n. split; [done|]. right. split; [done|apply Dict_get_set_eq]. }
  split.
  { intros k a. rewrite Dict_get_set.
    destruct (String.eqb_spec k n) as [->|_]; [|apply Hcache].
    intros [= <-]. auto. }
  split; [done|]. split; [by split|].
  apply set_add_spec in Hadd as [->|[-> (y & m & Hy & Hxm & Hym)]].
  - split; [apply incl_appl, incl_refl|]. intros [Hts Hin]. split.
    + apply Forall_app. split; [|by constructor].
      eapply Forall_impl; [|exact Hts]. intros t. by apply canonical_grown.
    + intros k a. rewrite Dict_get_set.
      destruct (String.eqb_spec k n) as [->|_].
      * intros [= <-]. apply in_or_app. right. by left.
      * intros Hk. apply in_or_app. left. by eapply Hin.
  - split; [apply incl_refl|]. intros [Hts Hin].
    assert (m = n) as -> by congruence.
    assert (Hycan : canonical h sbn cache y).
    { rewrite Forall_forall in Hts. by apply Hts. }
    destruct Hycan as (n' & Hyn' & Hy').
    assert (n' = n) as -> by congruence.
    destruct Hy' as [Hy'|[_ Hy']]; congruence.
Qed.

(** The references of one right-hand side. *)
Lemma resolve_rhs_spec (sbn r2t : Dict.t addr) (p_symbol : addr) (l : list addr)
    (cache : Dict.t addr) (ts : list addr) (h : heap)
    (cache' : Dict.t addr) (ts' : list addr) (l' : list addr) (h' : heap) :
  resolve_rhs sbn r2t p_symbol (cache, ts) l h = Ok (cache', ts', l') h' ->
  filed_by_name h sbn -> cache_ok h sbn cache ->
  cache_ok h sbn cache' /\ grown cache cache' /\
  Forall2 (resolved h sbn cache') l l' /\ incl ts ts' /\
  (terminals_ok h sbn cache ts -> terminals_ok h sbn cache' ts').
Proof.
  revert cache ts cache' ts' l' h'.
  induction l as [|ref l IH]; intros cache ts cache' ts' l' h' Hrun Hfiled Hcache;
    simpl in Hrun.
  - apply ret_Ok in Hrun as [[= <- <- <-] _].
    split; [done|]. split; [apply grown_refl|]. split; [constructor|].
    split; [apply incl_refl|done].
  - apply bind_Ok in Hrun as ([[c1 t1] s] & h1 & Hstep & Hrun).
    pose proof (pure_resolve_ref _ _ _ _ _ _ _ _ Hstep) as ->.
    apply bind_Ok in Hrun as ([[c2 t2] l2] & h2 & Hrest & Hrun).
    pose proof (pure_resolve_rhs _ _ _ _ _ _ _ _ Hrest) as ->.
    apply ret_Ok in Hrun as [[= <- <- <-] _]. cbn [fst snd] in *.
    destruct (resolve_ref_spec _ _ _ _ _ _ _ _ _ _ _ Hstep Hfiled Hcache)
      as (Hc1 & Hg1 & Hr1 & Hi1 & Ht1).
    destruct (IH _ _ _ _ _ _ Hrest Hfiled Hc1) as (Hc2 & Hg2 & Hr2 & Hi2 & Ht2).
    split; [done|]. split; [by eapply grown_trans|].
    split; [constructor; [by eapply resolved_grown|done]|].
    split; [by eapply incl_tran|auto].
Qed.

(** All productions. *)
Lemma resolve_productions_spec (sbn r2t : Dict.t addr) (ps : list Production)
    (cache : Dict.t addr) (ts : list addr) (h : heap)
    (cache' : Dict.t addr) (ts' : list addr) (ps' : list Production) (h' : heap) :
  resolve_productions sbn r2t (cache, ts) ps h = Ok (cache', ts', ps') h' ->
  filed_by_name h sbn -> cache_ok h sbn cache ->
  cache_ok h sbn cache' /\ grown cache cache' /\
  Forall2 (resolved_production h sbn cache') ps ps' /\ incl ts ts' /\
  (terminals_ok h sbn cache ts -> terminals_ok h sbn cache' ts').
Proof.
  revert cache ts cache' ts' ps' h'.
  induction ps as [|p ps IH]; intros cache ts cache' ts' ps' h' Hrun Hfiled Hcache;
    simpl in Hrun.
  - apply ret_Ok in Hrun as [[= <- <- <-] _].
    split; [done|]. split; [apply grown_refl|]. split; [constructor|].
    split; [apply incl_refl|done].
  - apply bind_Ok in Hrun as ([[c1 t1] p1] & h1 & Hstep & Hrun).
    apply bind_Ok in Hrun as ([[c2 t2] ps2] & h2 & Hrest & Hrun).
    apply ret_Ok in Hrun as [[= <- <- <-] _]. cbn [fst snd] in *.
    unfold resolve_production in Hstep.
    apply bind_Ok in Hstep as (n & h3 & Hn & Hstep).
    apply get_name_Ok in Hn as [(o & Ho & Hon) ->].
    apply bind_Ok in Hstep as ([[c1' t1'] l1] & h3 & Hrhs & Hstep).
    pose proof (pure_resolve_rhs _ _ _ _ _ _ _ _ Hrhs) as ->.
    apply ret_Ok in Hstep as [[= <- <- <-] <-]. cbn [fst snd] in *.
    destruct (resolve_rhs_spec _ _ _ _ _ _ _ _ _ _ _ Hrhs Hfiled Hcache)
      as (Hc1 & Hg1 & Hr1 & Hi1 & Ht1).
    destruct (IH _ _ _ _ _ _ Hrest Hfiled Hc1) as (Hc2 & Hg2 & Hr2 & Hi2 & Ht2).
    split; [done|]. split; [by eapply grown_trans|].
    split; [|split; [by eapply incl_tran|auto]].
    constructor; [|done]. split; [|split; [|done]].
    + exists n. split; [by rewrite (name_at_Some _ _ _ Ho), Hon|done].
    + simpl. eapply Forall2_impl; [|exact Hr1].
      intros ref s. by apply resolved_grown.
Qed.

End ResolveFacts.

(** ** Pruning and numbering the productions *)

Lemma non_term_productions_spec (ps : list Production) (h : heap)
    (r : list Production) (h' : heap) :
  non_term_productions ps h = Ok r h' ->
  (forall p, In p r -> In p ps) /\
  (forall p ps', ps = p :: ps' -> is_NonTerminal_at h (symbol p) ->
                 exists r', r = p :: r').
Proof.
  revert r h'. induction ps as [|p ps IH]; intros r h' Hrun; simpl in Hrun.
  - apply ret_Ok in Hrun as [<- _]. split; [done|]. intros p ps' [=].
  - apply bind_Ok in Hrun as (o & h2 & Ho & Hrun). apply deref_Ok in Ho as [Ho ->].
    apply bind_Ok in Hrun as (r1 & h2 & Hr1 & Hrun).
    apply ret_Ok in Hrun as [<- _]. destruct (IH _ _ Hr1) as [Hin _]. split.
    + intros q Hq. destruct (_ || _); [destruct Hq as [->|Hq]|]; simpl; auto.
    + intros q ps' [= <- <-] (s & Hs). rewrite Hs in Ho. injection Ho as <-.
      simpl. eauto.
Qed.

Lemma enumerate_from_spec (idx : nat) (d : list (addr * nat)) (ps : list Production)
    (h : heap) (ps' : list Production) (h' : heap) :
  enumerate_from idx d ps h = Ok ps' h' ->
  Forall2 (fun p p' => symbol p' = symbol p /\ rhs p' = rhs p /\ nops p' = nops p) ps ps' /\
  (forall i p', ps' !! i = Some p' -> prod_id p' = Some (idx + i)).
Proof.
  revert idx d h ps' h'. induction ps as [|p ps IH]; intros idx d h ps' h' Hrun;
    simpl in Hrun.
  - apply ret_Ok in Hrun as [<- _]. split; [constructor|]. intros i p' Hi. done.
  - apply bind_Ok in Hrun as (n & h1 & _ & Hrun).
    apply bind_Ok in Hrun as (n' & h2 & _ & Hrun).
    apply bind_Ok in Hrun as (d' & h3 & _ & Hrun).
    apply bind_Ok in Hrun as (r & h4 & Hr & Hrun).
    apply ret_Ok in Hrun as [<- _]. destruct (IH _ _ _ _ _ Hr) as [Hall Hids]. split.
    + constructor; [done|exact Hall].
    + intros [|i] p' Hi; simpl in Hi.
      * injection Hi as <-. simpl. f_equal. lia.
      * apply Hids in Hi. rewrite Hi. f_equal. lia.
Qed.

Lemma count_EMPTY_valid (l : list addr) (n : nat) (h : heap) (c : nat) (h' : heap) :
  fold_m l n (fun n x => b <- py_eq x EMPTY ;; ret (if b then S n else n)) h = Ok c h' ->
  Forall (fun a => exists o, h !! a = Some o) l.
Proof.
  revert n. induction l as [|x l IH]; intros n Hrun; simpl in Hrun; [constructor|].
  apply bind_Ok in Hrun as (n1 & h1 & Hstep & Hrun).
  apply bind_Ok in Hstep as (b & h2 & Hb & Hstep).
  pose proof (pure_py_eq _ _ _ _ _ Hb) as ->. apply ret_Ok in Hstep as [_ <-].
  unfold py_eq in Hb. apply bind_Ok in Hb as (o & h3 & Ho & _).
  apply deref_Ok in Ho as [Ho _]. constructor; [eauto|]. by eapply IH.
Qed.

Lemma Production_new_valid (sym : addr) (l : list addr) (b : bool) (h : heap)
    (p : Production) (h' : heap) :
  Production_new sym l b h = Ok p h' -> Forall (fun a => exists o, h !! a = Some o) l.
Proof.
  unfold Production_new, Production_init, ProductionRHS_truthy, ProductionRHS_len,
    count_EMPTY.
  intros Hrun. apply bind_Ok in Hrun as (t & h1 & Ht & _).
  apply bind_Ok in Ht as (n & h2 & Hn & _).
  apply bind_Ok in Hn as (c & h3 & Hc & _). by eapply count_EMPTY_valid.
Qed.

(** The augmented production, as [_init_grammar] builds it. *)
Lemma augmented_production (start : addr) (h : heap) (p0 : Production) (h' : heap) :
  singletons_loaded h ->
  Production_new AUGSYMBOL [start; STOP] false h = Ok p0 h' ->
  p0 = plain_production AUGSYMBOL [start; STOP] false.
Proof.
  intros Hs Hrun. pose proof (Production_new_valid _ _ _ _ _ _ Hrun) as Hvalid.
  apply Forall_cons_iff in Hvalid as [(o & Ho) _].
  destruct Hs as (L0 & (s1 & t1 & L1 & N1) & L2 & L3).
  rewrite (Production_new_eq _ _ _ [obj_name o; "STOP"]) in Hrun.
  - injection Hrun as <- _. rewrite !count_named_EMPTY_cons. simpl.
    by destruct (String.eqb (obj_name o) "EMPTY").
  - repeat split; eauto.
  - constructor; [eauto|]. constructor; [|constructor].
    exists (Terminal s1 t1). split; [done|]. simpl. unfold name. by rewrite N1.
Qed.

(** ** The constructed grammar *)

Section Summary.
Context `{Imports}.

Lemma filed_by_name_nil (h : heap) : filed_by_name h [].
Proof. intros k a [=]. Qed.

Lemma singleton_names (h : heap) :
  singletons_loaded h ->
  name_at h AUGSYMBOL = Some "S'" /\ name_at h STOP = Some "STOP" /\
  name_at h EMPTY = Some "EMPTY" /\ name_at h EOF = Some "EOF" /\
  is_NonTerminal_at h AUGSYMBOL.
Proof.
  intros ((s0 & L0 & N0) & (s1 & t1 & L1 & N1) & (s2 & t2 & L2 & N2)
          & (s3 & t3 & L3 & N3)).
  unfold name_at, is_NonTerminal_at. rewrite L0, L1, L2, L3. simpl. unfold name.
  rewrite N0, N1, N2, N3. eauto 6.
Qed.

(** What [_init_grammar] establishes, phase by phase: [sbn0] is the index
    after the symbols were collected, [hc] the heap from then until the
    keyword terminals are fixed, [cache] the local cache of reference
    resolution at its end, [ps_res] the productions after resolution. *)
Lemma init_grammar_summary (ps : list Production) (imports_ : option (Dict.t string))
    (fp : string) (start : option addr) (no_check : bool) (h : heap)
    (g : Grammar) (h1 : heap) :
  singletons_loaded h ->
  _init_grammar ps imports_ fp start no_check h = Ok g h1 ->
  exists sbn0 ts0 ts1 cache ps_res hc,
    start = Some (start_symbol g) /\
    heap_evolves true h hc /\ heap_evolves false hc h1 /\
    fold_m (plain_production AUGSYMBOL [start_symbol g; STOP] false :: ps) ([], [])
      collect_step h = Ok (sbn0, recog_to_terminals g) hc /\
    symbols_by_name g
    = Dict.set "STOP" STOP (Dict.set "EOF" EOF (Dict.set "EMPTY" EMPTY sbn0)) /\
    filed_by_name hc (symbols_by_name g) /\
    set_of_class isinstance_Terminal (Dict.values sbn0) hc = Ok ts0 hc /\
    set_of_class isinstance_NonTerminal (Dict.values sbn0) hc = Ok (nonterminals g) hc /\
    set_update ts0 [EMPTY; EOF; STOP] hc = Ok ts1 hc /\
    cache_ok hc (symbols_by_name g) cache /\
    Forall2 (resolved_production hc (symbols_by_name g) cache)
      (plain_production AUGSYMBOL [start_symbol g; STOP] false :: ps) ps_res /\
    incl ts1 (terminals g) /\
    (terminals_ok hc (symbols_by_name g) [] ts1 ->
     terminals_ok hc (symbols_by_name g) cache (terminals g)) /\
    (forall p, In p (productions g) ->
       exists q, In q ps_res /\ symbol p = symbol q /\ rhs p = rhs q) /\
    (forall q rest, ps_res = q :: rest -> is_NonTerminal_at hc (symbol q) ->
       exists p rest', productions g = p :: rest' /\ symbol p = symbol q /\
                       rhs p = rhs q) /\
    (forall i p, productions g !! i = Some p -> prod_id p = Some i).
Proof.
  intros Hs Hrun.
  apply init_grammar_Ok in Hrun
    as (s0 & p0 & sbn0 & r2t & ts0 & nts & ts1 & ts2 & ps_res & ntp & ps_enum & hc
        & -> & Hp0 & Hc & Hts1 & -> & Hres & Hntp & Henum & -> & Hfix).
  cbn [start_symbol symbols_by_name recog_to_terminals nonterminals terminals
       productions].
  apply augmented_production in Hp0 as ->; [|done].
  unfold _collect_grammar_symbols in Hc.
  apply bind_Ok in Hc as ([sbn r2t'] & hc1 & Hfold & Hc).
  unfold collect_symbols in Hfold.
  apply bind_Ok in Hc as (tsx & hc2 & Htsx & Hc).
  pose proof (pure_set_of_class _ _ _ _ _ Htsx) as ->.
  apply bind_Ok in Hc as (ntsx & hc3 & Hntsx & Hc).
  pose proof (pure_set_of_class _ _ _ _ _ Hntsx) as ->.
  apply ret_Ok in Hc as [[= <- <- <- <-] <-]. cbn [fst snd] in *.
  destruct (collect_loop_spec _ _ _ _ _ Hfold (filed_by_name_nil h))
    as (Hfiled & Hev & _).
  pose proof (heap_evolves_loaded _ _ _ Hev Hs) as Hsc.
  destruct (singleton_names _ Hsc) as (_ & NSTOP & NEMPTY & NEOF & _).
  set (sbnF := Dict.set "STOP" STOP (Dict.set "EOF" EOF (Dict.set "EMPTY" EMPTY sbn))).
  assert (HfiledF : filed_by_name hc1 sbnF)
    by (unfold sbnF; repeat apply filed_by_name_set; assumption).
  unfold _resolve_references in Hres.
  apply bind_Ok in Hres as ([[cache ts2'] ps_res'] & hr & Hres & Hret).
  apply ret_Ok in Hret as [[= <- <-] _]. cbn [fst snd] in *.
  assert (Hc0 : cache_ok hc1 sbnF []) by (intros k a [=]).
  destruct (resolve_productions_spec _ _ _ _ _ _ _ _ _ _ Hres HfiledF Hc0)
    as (Hcache & _ & Hall & Hincl & Hterm).
  destruct (non_term_productions_spec _ _ _ _ Hntp) as [Hntp_in Hntp_head].
  unfold _enumerate_productions in Henum.
  destruct (enumerate_from_spec _ _ _ _ _ _ Henum) as [Hsame Hids].
  exists sbn, tsx, ts1, cache, ps_res', hc1.
  split; [done|]. split; [done|].
  split; [by eapply evolving_fix_keyword_terminals|].
  do 9 (split; [done|]).
  split; [done|]. split; [|split; [|exact Hids]].
  - intros p Hp. apply list_elem_of_In in Hp.
    destruct (proj1 (list_elem_of_lookup _ _) Hp) as (i & Hi).
    destruct (Forall2_lookup_r _ _ _ _ _ Hsame Hi) as (q & Hq & Hsq & Hrq & _).
    exists q. split; [|done].
    apply list_elem_of_lookup_2, list_elem_of_In in Hq.
    destruct (1 <? length ntp); auto.
  - intros q rest -> Hq.
    destruct (Hntp_head q rest eq_refl Hq) as (r' & ->).
    assert (Hhead : exists l, (if 1 <? length (q :: r') then q :: r' else q :: rest) = q :: l)
      by (destruct (1 <? _); eauto).
    destruct Hhead as (l & Hl). rewrite Hl in Hsame.
    apply Forall2_cons_inv_l in Hsame as (p & rest' & (Hsp & Hrp & _) & _ & ->).
    eauto.
Qed.

End Summary.




(** ** One instance for each name *)

Lemma Dict_keys_set {V} (k : string) (v : V) (d : Dict.t V) (k' : string) :
  In k' (Dict.keys (Dict.set k v d)) -> k' = k \/ In k' (Dict.keys d).
Proof.
  induction d as [|[k0 v0] d IH]; simpl.
  - intros [<-|[]]. by left.
  - destruct (String.eqb k k0); simpl; [auto|].
    intros [<-|Hin]; [auto|]. destruct (IH Hin); auto.
Qed.

Lemma Dict_set_NoDup {V} (k : string) (v : V) (d : Dict.t V) :
  List.NoDup (Dict.keys d) -> List.NoDup (Dict.keys (Dict.set k v d)).
Proof.
  induction d as [|[k0 v0] d IH]; simpl; intros Hd.
  - constructor; [intros Hin; exact Hin|constructor].
  - apply NoDup_cons_iff in Hd as [Hk0 Hd].
    destruct (String.eqb_spec k k0) as [->|Hne]; simpl.
    + by apply NoDup_cons_iff.
    + apply NoDup_cons_iff. split; [|by apply IH].
      intros [->|Hin]%Dict_keys_set; [done|by apply Hk0].
Qed.

(** With one entry for each key, every entry is the one that [get] finds. *)
Lemma Dict_get_In {V} (k : string) (v : V) (d : Dict.t V) :
  List.NoDup (Dict.keys d) -> In (k, v) d -> Dict.get k d = Some v.
Proof.
  induction d as [|[k0 v0] d IH]; simpl; intros Hd Hin; [done|].
  apply NoDup_cons_iff in Hd as [Hk0 Hd]. destruct Hin as [[= -> ->]|Hin].
  - by rewrite String.eqb_refl.
  - destruct (String.eqb_spec k k0) as [->|_]; [|by apply IH].
    destruct Hk0. apply in_map_iff. by exists (k0, v).
Qed.

Lemma Dict_values_get {V} (x : V) (d : Dict.t V) :
  List.NoDup (Dict.keys d) -> In x (Dict.values d) -> exists k, Dict.get k d = Some x.
Proof.
  intros Hd ([k v] & <- & Hin)%in_map_iff. exists k. by apply Dict_get_In.
Qed.

Lemma Dict_get_Some_set {V} (k k' : string) (v v' : V) (d : Dict.t V) :
  Dict.get k d = Some v -> exists w, Dict.get k (Dict.set k' v' d) = Some w.
Proof. intros Hk. rewrite Dict_get_set. destruct (String.eqb k k'); eauto. Qed.

Section CollectKeys.
Context `{Imports}.

Lemma collect_loop_NoDup (ps : list Production) (st : Dict.t addr * Dict.t addr)
    (h : heap) (st' : Dict.t addr * Dict.t addr) (h' : heap) :
  fold_m ps st collect_step h = Ok st' h' ->
  filed_by_name h (fst st) -> List.NoDup (Dict.keys (fst st)) ->
  List.NoDup (Dict.keys (fst st')).
Proof.
  revert st h. induction ps as [|p ps IH]; intros st h Hrun Hfiled Hd; simpl in Hrun.
  - by apply ret_Ok in Hrun as [<- _].
  - apply bind_Ok in Hrun as (st1 & h1 & Hstep & Hrun).
    destruct (collect_step_spec _ _ _ _ _ Hstep Hfiled)
      as (n & new & _ & Hst1 & Hnew & Hev & _).
    apply (IH _ _ Hrun); rewrite Hst1.
    + apply filed_by_name_set; [|done]. by eapply filed_by_name_evolves.
    + by apply Dict_set_NoDup.
Qed.

End CollectKeys.

(** ** Sets of symbols *)

Lemma set_update_members (l s : list addr) (h : heap) (s' : list addr) (h' : heap) :
  set_update s l h = Ok s' h' -> forall x, In x s' -> In x s \/ In x l.
Proof.
  unfold set_update. revert s h.
  induction l as [|y l IH]; intros s h Hrun x Hx; simpl in Hrun.
  - apply ret_Ok in Hrun as [<- _]. auto.
  - apply bind_Ok in Hrun as (s1 & h1 & Hadd & Hrun).
    destruct (IH _ _ Hrun x Hx) as [Hin|Hin]; [|simpl; auto].
    apply set_add_spec in Hadd as [->|[-> _]]; [|auto].
    apply in_app_or in Hin as [Hin|[<-|[]]]; simpl; auto.
Qed.

Lemma set_of_class_members (cls : object -> bool) (vals : list addr) (h : heap)
    (s : list addr) (h' : heap) :
  set_of_class cls vals h = Ok s h' ->
  forall x, In x s -> In x vals /\ exists o, h !! x = Some o /\ cls o = true.
Proof.
  unfold set_of_class. intros Hrun.
  assert (Hgen : forall s0 : list addr,
             fold_m vals s0
               (fun s x => o <- deref x ;; if cls o then set_add s x else ret s) h
             = Ok s h' ->
             forall x, In x s ->
               In x s0 \/ (In x vals /\ exists o, h !! x = Some o /\ cls o = true)).
  { clear Hrun. revert h. induction vals as [|y vals IH]; intros h s0 Hrun x Hx;
      simpl in Hrun.
    - apply ret_Ok in Hrun as [<- _]. auto.
    - apply bind_Ok in Hrun as (s1 & h1 & Hstep & Hrun).
      apply bind_Ok in Hstep as (o & h2 & Ho & Hstep). apply deref_Ok in Ho as [Ho ->].
      assert (h1 = h) as ->.
      { destruct (cls o); [by apply pure_set_add in Hstep|by apply ret_Ok in Hstep as [_ <-]]. }
      destruct (IH _ _ Hrun x Hx) as [Hin|[Hin Hcls]]; [|simpl; auto].
      destruct (cls o) eqn:Hc.
      + apply set_add_spec in Hstep as [->|[-> _]]; [|auto].
        apply in_app_or in Hin as [Hin|[<-|[]]]; [auto|]. right. simpl. eauto.
      + apply ret_Ok in Hstep as [<- _]. auto. }
  intros x Hx. by destruct (Hgen [] Hrun x Hx) as [[]|].
Qed.

Lemma not_reserved (n : string) :
  Str.mem n RESERVED_SYMBOL_NAMES = false -> n <> "EOF" /\ n <> "STOP" /\ n <> "EMPTY".
Proof.
  unfold Str.mem, RESERVED_SYMBOL_NAMES. simpl. intros Hn.
  repeat split; intros ->; discriminate Hn.
Qed.

Lemma resolved_canonical (h : heap) (sbn cache : Dict.t addr) (l l' : list addr) :
  Forall2 (resolved h sbn cache) l l' -> Forall (canonical h sbn cache) l'.
Proof. induction 1 as [|x y l l' [_ Hc] _ IH]; constructor; done. Qed.

Section OneInstance.
Context `{Imports}.

(** After [_init_grammar], every symbol of the grammar is the one instance
    of its name: the symbols of the productions, those of their right-hand
    sides, and the members of the two sets. *)
Lemma init_grammar_instances (ps : list Production) (imports_ : option (Dict.t string))
    (fp : string) (start : option addr) (no_check : bool) (h : heap)
    (g : Grammar) (h1 : heap) :
  singletons_loaded h ->
  (forall p, In p ps ->
     exists n, name_at h (symbol p) = Some n /\ Str.mem n RESERVED_SYMBOL_NAMES = false) ->
  _init_grammar ps imports_ fp start no_check h = Ok g h1 ->
  exists cache hc,
    heap_evolves false hc h1 /\
    cache_ok hc (symbols_by_name g) cache /\
    terminals_ok hc (symbols_by_name g) cache (terminals g) /\
    (forall p, In p (productions g) ->
       (exists n, name_at hc (symbol p) = Some n /\
                  Dict.get n (symbols_by_name g) = Some (symbol p)) /\
       Forall (canonical hc (symbols_by_name g) cache) (rhs p)) /\
    (forall s, In s (nonterminals g) ->
       exists n, name_at hc s = Some n /\ Dict.get n (symbols_by_name g) = Some s).
Proof.
  intros Hs Hnames Hrun.
  destruct (init_grammar_summary _ _ _ _ _ _ _ _ Hs Hrun)
    as (sbn0 & ts0 & ts1 & cache & ps_res & hc & _ & Hev & Hev1 & Hfold & Hsbn
        & Hfiled & Hts0 & Hnts & Hts1 & Hcache & Hall & _ & Hterm & Hprods & _ & _).
  pose proof (heap_evolves_loaded _ _ _ Hev Hs) as Hsc.
  destruct (singleton_names _ Hsc) as (NAUG & NSTOP & NEMPTY & NEOF & _).
  destruct (collect_loop_spec _ _ _ _ _ Hfold (filed_by_name_nil h))
    as (_ & _ & Hreg & Horigin & _ & _ & _).
  pose proof (collect_loop_NoDup _ _ _ _ _ Hfold (filed_by_name_nil h) (List.NoDup_nil _))
    as Hnodup.
  cbn [fst] in Hreg, Horigin, Hnodup.
  set (sbnF := symbols_by_name g) in *.
  assert (HK : forall k a, Dict.get k sbn0 = Some a -> Dict.get k sbnF = Some a).
  { intros k a Hk.
    assert (Hne : k <> "EOF" /\ k <> "STOP" /\ k <> "EMPTY").
    { destruct (Horigin k a Hk) as [(a0 & [=])|(p & [<-|Hp] & Hpn)].
      - simpl in Hpn. rewrite NAUG in Hpn. injection Hpn as <-.
        repeat split; discriminate.
      - destruct (Hnames p Hp) as (n & Hn & Hres).
        rewrite (heap_evolves_name _ _ _ _ _ Hev Hn) in Hpn. injection Hpn as <-.
        by apply not_reserved. }
    destruct Hne as (? & ? & ?). by rewrite Hsbn, !Dict_get_set_ne. }
  assert (HV : forall x, In x (Dict.values sbn0) ->
                 exists n, name_at hc x = Some n /\ Dict.get n sbnF = Some x).
  { intros x Hx. destruct (Dict_values_get _ _ Hnodup Hx) as (k & Hk).
    exists k. split; [apply Hfiled|]; by apply HK. }
  assert (Hspecial : Dict.get "EMPTY" sbnF = Some EMPTY /\ Dict.get "EOF" sbnF = Some EOF
                     /\ Dict.get "STOP" sbnF = Some STOP).
  { rewrite Hsbn. repeat split.
    - rewrite !Dict_get_set_ne by discriminate. apply Dict_get_set_eq.
    - rewrite Dict_get_set_ne by discriminate. apply Dict_get_set_eq.
    - apply Dict_get_set_eq. }
  destruct Hspecial as (GEMPTY & GEOF & GSTOP).
  assert (Hinit : terminals_ok hc sbnF [] ts1).
  { split; [|intros k a [=]]. apply Forall_forall. intros x Hx.
    destruct (set_update_members _ _ _ _ _ Hts1 x Hx) as [Hin|[<-|[<-|[<-|[]]]]].
    - destruct (set_of_class_members _ _ _ _ _ Hts0 x Hin) as [Hval _].
      destruct (HV x Hval) as (n & Hn & Hg). exists n. auto.
    - exists "EMPTY". auto.
    - exists "EOF". auto.
    - exists "STOP". auto. }
  exists cache, hc.
  split; [done|]. split; [done|]. split; [by apply Hterm|]. split.
  - intros p Hp. destruct (Hprods p Hp) as (q & Hq & -> & ->).
    apply list_elem_of_In in Hq.
    destruct (proj1 (list_elem_of_lookup _ _) Hq) as (i & Hi).
    destruct (Forall2_lookup_r _ _ _ _ _ Hall Hi)
      as (p' & Hp' & (n & Hn & Hsq) & Hrhs & _).
    apply list_elem_of_lookup_2, list_elem_of_In in Hp'.
    destruct (Hreg p' Hp') as (n' & a & Hn' & Ha).
    rewrite Hn in Hn'. injection Hn' as <-.
    assert (Hw : exists w, Dict.get n sbnF = Some w).
    { rewrite Hsbn.
      destruct (Dict_get_Some_set n "EMPTY" a EMPTY sbn0 Ha) as (w1 & Hw1).
      destruct (Dict_get_Some_set n "EOF" w1 EOF _ Hw1) as (w2 & Hw2).
      exact (Dict_get_Some_set n "STOP" w2 STOP _ Hw2). }
    destruct Hw as (w & Hw). rewrite Hw in Hsq. split.
    + exists n. rewrite Hsq. split; [by apply Hfiled|done].
    + by eapply resolved_canonical.
  - intros s Hin. destruct (set_of_class_members _ _ _ _ _ Hnts s Hin) as [Hval _].
    by apply HV.
Qed.

End OneInstance.

(** C1, the case it leaves out.  For the grammar [S: "a" S | EMPTY;] the
    terminal [a], written in the right-hand side, is a member of [terminals]
    and stands in the right-hand side of a production of the constructed
    grammar, and the index [symbols_by_name] has no entry for its name: the
    instance is not the one registered under its name, as none is. *)
Lemma C1_inline_terminal_not_registered :
  exists g h1,
    @Grammar_init example_imports (Some productions_S) None (Some "grammar.pg")
      None StartNone true heap_S = Ok g h1 /\
    In term_a (terminals g) /\
    (exists p, In p (productions g) /\ In term_a (rhs p)) /\
    name_at h1 term_a = Some "a" /\
    Dict.get "a" (symbols_by_name g) = None /\
    ~ registered g h1 term_a.
Proof.
  eexists _, _. split; [vm_compute; reflexivity|].
  split; [vm_compute; tauto|].
  split; [eexists; split; [right; left; reflexivity|left; reflexivity]|].
  split; [reflexivity|]. split; [reflexivity|].
  intros (n & Hn & Hg). vm_compute in Hn. injection Hn as <-. discriminate Hg.
Qed.

(** C1.  In a grammar that construction returns, when no production came
    with a symbol named [EOF], [STOP] or [EMPTY]: the symbol of every
    production and every member of [nonterminals] is the instance that
    [symbols_by_name] has under its name; every symbol of a right-hand side
    and every member of [terminals] is either that instance or a terminal of
    [terminals] whose name [symbols_by_name] does not have; and two of
    these symbols with the same name are the same object. *)
Theorem C1_one_instance_per_name `{Imports}
    (productions_ : option (list Production)) (imports_ : option (Dict.t string))
    (file_path_ : option string) (recognizers : option (Dict.t Recognizer))
    (start : start_arg) (no_check : bool) (h : heap) (g : Grammar) (h1 : heap) :
  singletons_loaded h ->
  (forall ps p, productions_ = Some ps -> In p ps ->
     exists n, name_at h (symbol p) = Some n /\
               Str.mem n RESERVED_SYMBOL_NAMES = false) ->
  Grammar_init productions_ imports_ file_path_ recognizers start no_check h = Ok g h1 ->
  (forall p, In p (productions g) -> registered g h1 (symbol p)) /\
  (forall p s, In p (productions g) -> In s (rhs p) ->
     registered g h1 s \/ inline_terminal g h1 s) /\
  (forall t, In t (terminals g) -> registered g h1 t \/ inline_terminal g h1 t) /\
  (forall s, In s (nonterminals g) -> registered g h1 s) /\
  (forall s1 s2, grammar_symbol g s1 -> grammar_symbol g s2 ->
     name_at h1 s1 = name_at h1 s2 -> s1 = s2).
Proof.
  intros Hs Hnames Hrun.
  apply Grammar_init_Ok in Hrun as (ps & fp & st & h0 & s0 & -> & _ & Hc0 & _ & Hrun).
  apply evolving_collect_symbols in Hc0.
  pose proof (heap_evolves_loaded _ _ _ Hc0 Hs) as Hs0.
  assert (Hnames0 : forall p, In p ps ->
            exists n, name_at h0 (symbol p) = Some n /\
                      Str.mem n RESERVED_SYMBOL_NAMES = false).
  { intros p Hp. destruct (Hnames ps p eq_refl Hp) as (n & Hn & Hres).
    exists n. split; [by eapply heap_evolves_name|done]. }
  destruct (init_grammar_instances _ _ _ _ _ _ _ _ Hs0 Hnames0 Hrun)
    as (cache & hc & Hev & Hcache & [Hts Hcts] & Hprods & Hnts).
  rewrite Forall_forall in Hts.
  assert (Hreg : forall s n, name_at hc s = Some n ->
                   Dict.get n (symbols_by_name g) = Some s -> registered g h1 s).
  { intros s n Hn Hg. exists n. split; [by eapply heap_evolves_name|done]. }
  assert (Hcan : forall s, canonical hc (symbols_by_name g) cache s ->
                   registered g h1 s \/ inline_terminal g h1 s).
  { intros s (n & Hn & [Hg|[Hg Hc]]); [left; by eapply Hreg|].
    right. destruct (Hcache _ _ Hc) as (_ & _ & Hterm). exists n.
    split; [by eapply heap_evolves_name|]. split; [done|].
    split; [by eapply is_Terminal_evolves|by eapply Hcts]. }
  assert (Hsym : forall s, grammar_symbol g s ->
                   canonical hc (symbols_by_name g) cache s).
  { intros s [(p & Hp & [->|Hin])|[Hin|Hin]].
    - destruct (Hprods p Hp) as [(n & Hn & Hg) _]. exists n. auto.
    - destruct (Hprods p Hp) as [_ Hrhs]. rewrite Forall_forall in Hrhs. by apply Hrhs.
    - by apply Hts.
    - destruct (Hnts s Hin) as (n & Hn & Hg). exists n. auto. }
  split; [|split; [|split; [|split]]].
  - intros p Hp. destruct (Hprods p Hp) as [(n & Hn & Hg) _]. by eapply Hreg.
  - intros p s Hp Hin. apply Hcan, Hsym. left. eauto.
  - intros t Hin. apply Hcan, Hsym. right. by left.
  - intros s Hin. destruct (Hnts s Hin) as (n & Hn & Hg). by eapply Hreg.
  - intros s1 s2 H1%Hsym H2%Hsym Heq.
    apply (canonical_unique _ _ _ _ _ H1 H2).
    destruct H1 as (n1 & Hn1 & _), H2 as (n2 & Hn2 & _).
    rewrite (heap_evolves_name _ _ _ _ _ Hev Hn1),
      (heap_evolves_name _ _ _ _ _ Hev Hn2) in Heq.
    congruence.
Qed.

Lemma C1_witness :
  exists g h1,
    @Grammar_init example_imports (Some productions_S) None (Some "grammar.pg")
      None StartNone true heap_S = Ok g h1 /\
    (forall p, In p (productions g) -> registered g h1 (symbol p)) /\
    (forall t, In t (terminals g) -> registered g h1 t \/ inline_terminal g h1 t) /\
    (forall s, In s (nonterminals g) -> registered g h1 s).
Proof.
  destruct (@Grammar_init example_imports (Some productions_S) None (Some "grammar.pg")
              None StartNone true heap_S) as [g h1|e] eqn:Hrun.
  - assert (Hs : singletons_loaded heap_S).
    { apply (module_heap_loaded
               [NonTerminal_init "S";
                Terminal_init "a" (Some (StringRecognizer "a" false));
                Reference "S" None]). }
    assert (Hnames : forall ps p, Some productions_S = Some ps -> In p ps ->
              exists n, name_at heap_S (symbol p) = Some n /\
                        Str.mem n RESERVED_SYMBOL_NAMES = false).
    { intros ps p [= <-] Hp. exists "S".
      destruct Hp as [<-|[<-|[]]]; split; reflexivity. }
    destruct (@C1_one_instance_per_name example_imports _ _ _ _ _ _ _ _ _ Hs Hnames Hrun)
      as (HA & _ & HC & HD & _).
    exists g, h1. auto.
  - vm_compute in Hrun. discriminate Hrun.
Defined.

(** * Further properties of the module *)

(** ** Escaping, grammar.py:36 and grammar.py:160 *)

(** [escape] leaves neither a newline nor a tab in what it returns; it
    returns its argument unchanged exactly when the argument has neither;
    and escaping twice is escaping once. *)
Theorem escape_characterised (s : string) :
  has_char Str.newline (escape s) = false /\
  has_char Str.tab (escape s) = false /\
  (escape s = s <-> has_char Str.newline s = false /\ has_char Str.tab s = false) /\
  escape (escape s) = escape s.
Proof.
  assert (Hn : has_char Str.newline (escape s) = false).
  { unfold escape. apply replace_char_keeps_absent; [done|].
    by apply replace_char_removes. }
  assert (Ht : has_char Str.tab (escape s) = false).
  { unfold escape. by apply replace_char_removes. }
  split; [done|]. split; [done|]. split; [|apply escape_idem].
  split.
  - intros Heq. rewrite <- Heq. by split.
  - intros [Hsn Hst]. unfold escape.
    rewrite (replace_char_absent Str.newline _ s Hsn).
    by apply replace_char_absent.
Qed.

Lemma fold_replace_keeps_absent (d : ascii) (l : list (ascii * string)) (s : string) :
  Forall (fun vt => has_char d (snd vt) = false) l ->
  has_char d s = false ->
  has_char d (fold_left (fun regex vt => Str.replace_char (fst vt) (snd vt) regex) l s)
  = false.
Proof.
  intros Hl. revert s. induction Hl as [|[c by_] l Hby _ IH]; intros s Hs; [done|].
  simpl. apply IH. by apply replace_char_keeps_absent.
Qed.

Lemma fold_replace_removes (d : ascii) (l : list (ascii * string)) (s : string) :
  Forall (fun vt => has_char d (snd vt) = false) l ->
  In d (map fst l) ->
  has_char d (fold_left (fun regex vt => Str.replace_char (fst vt) (snd vt) regex) l s)
  = false.
Proof.
  intros Hl. revert s. induction Hl as [|[c by_] l Hby Hl IH]; intros s Hin; [done|].
  simpl in *. destruct Hin as [->|Hin]; [|by apply IH].
  apply fold_replace_keeps_absent; [done|]. by apply replace_char_removes.
Qed.

Lemma fold_replace_absent (l : list (ascii * string)) (s : string) :
  Forall (fun vt => has_char (fst vt) s = false) l ->
  fold_left (fun regex vt => Str.replace_char (fst vt) (snd vt) regex) l s = s.
Proof.
  induction 1 as [|[c by_] l Hc _ IH]; [done|].
  simpl in *. by rewrite (replace_char_absent c by_ s Hc).
Qed.

(** [esc_control_characters] leaves none of the seven control characters
    BEL, BS, FF, LF, CR, TAB and VT in what it returns, and returns a
    pattern that has none of them unchanged. *)
Theorem esc_control_characters_clean (regex : string) :
  Forall (fun c => has_char c (esc_control_characters regex) = false)
    ["007"; "008"; "012"; "010"; "013"; "009"; "011"]%char /\
  (Forall (fun c => has_char c regex = false)
     ["007"; "008"; "012"; "010"; "013"; "009"; "011"]%char <->
   esc_control_characters regex = regex).
Proof.
  assert (Hclean : Forall (fun c => has_char c (esc_control_characters regex) = false)
                     ["007"; "008"; "012"; "010"; "013"; "009"; "011"]%char).
  { unfold esc_control_characters.
    repeat constructor;
      (apply fold_replace_removes; [repeat constructor|simpl; tauto]). }
  split; [done|]. split.
  - intros Hall. unfold esc_control_characters. apply fold_replace_absent.
    repeat (apply Forall_cons_iff in Hall as [? Hall]). repeat constructor; done.
  - intros Heq. by rewrite <- Heq.
Qed.

(** ** String recognizers, grammar.py:144 *)

Lemma substring_skip (pre t : string) (n : nat) :
  String.substring (String.length pre) n (pre +:+ t) = String.substring 0 n t.
Proof.
  induction pre as [|c pre IH]; [by rewrite append_nil_l|].
  rewrite append_cons. simpl. apply IH.
Qed.

Lemma substring_prefix (v post : string) :
  String.substring 0 (String.length v) (v +:+ post) = v.
Proof.
  induction v as [|c v IH]; [rewrite append_nil_l; by destruct post|].
  rewrite append_cons. simpl. by rewrite IH.
Qed.

Lemma substring_prefix_inv (v t : string) :
  String.substring 0 (String.length v) t = v -> exists post, t = v +:+ post.
Proof.
  revert t. induction v as [|c v IH]; intros t Ht.
  - exists t. by rewrite append_nil_l.
  - destruct t as [|c' t]; [discriminate|]. simpl in Ht. injection Ht as -> Ht.
    destruct (IH t Ht) as (post & ->). exists post. by rewrite append_cons.
Qed.

Lemma substring_split (s : string) (pos : nat) :
  pos <= String.length s ->
  exists pre t, s = pre +:+ t /\ String.length pre = pos.
Proof.
  revert s. induction pos as [|pos IH]; intros s Hpos.
  - exists EmptyString, s. by rewrite append_nil_l.
  - destruct s as [|c s]; [simpl in Hpos; lia|]. simpl in Hpos.
    destruct (IH s) as (pre & t & -> & Hlen); [lia|].
    exists (String c pre), t. rewrite append_cons. simpl. by rewrite Hlen.
Qed.

(** A case-sensitive string recognizer answers its value where the input
    has the value at the position, and only there: a match at a position
    within the input means that the input is some text of that length, then
    the value, then the rest. *)
Theorem StringRecognizer_matches_prefix `{Imports} (value in_str : string) (pos : nat) :
  (forall pre post, in_str = pre +:+ (value +:+ post) -> String.length pre = pos ->
     StringRecognizer_call value false in_str pos = Some value) /\
  (forall r, StringRecognizer_call value false in_str pos = Some r ->
     pos <= String.length in_str ->
     r = value /\
     exists pre post, in_str = pre +:+ (value +:+ post) /\ String.length pre = pos).
Proof.
  unfold StringRecognizer_call, value_cmp, Str.slice. split.
  - intros pre post -> <-. rewrite substring_skip, substring_prefix.
    by rewrite String.eqb_refl.
  - intros r Hr Hpos.
    destruct (String.eqb_spec (String.substring pos (String.length value) in_str) value)
      as [Heq|]; [|discriminate].
    injection Hr as <-. split; [done|].
    destruct (substring_split in_str pos Hpos) as (pre & t & -> & <-).
    rewrite substring_skip in Heq.
    destruct (substring_prefix_inv _ _ Heq) as (post & ->). eauto.
Qed.

(** A match of a string recognizer answers the value as the grammar has
    it, whatever the text of the input.  A recognizer that ignores case
    matches wherever the case-sensitive recognizer of the same value does;
    and two recognizers that ignore case, whose values have the same length
    and the same lower-case form, match at the same places, each with its
    own value.  Nothing is assumed of [str.lower]. *)
Theorem StringRecognizer_ignore_case `{Imports} (value in_str : string) (pos : nat) :
  (forall ic r, StringRecognizer_call value ic in_str pos = Some r -> r = value) /\
  (StringRecognizer_call value false in_str pos = Some value ->
   StringRecognizer_call value true in_str pos = Some value) /\
  (forall other,
     String.length other = String.length value ->
     str_lower other = str_lower value ->
     (StringRecognizer_call other true in_str pos = Some other <->
      StringRecognizer_call value true in_str pos = Some value)).
Proof.
  unfold StringRecognizer_call, value_cmp, Str.slice. split; [|split].
  - intros [] r; destruct (String.eqb _ _); congruence.
  - destruct (String.eqb_spec (String.substring pos (String.length value) in_str) value)
      as [->|]; [|discriminate].
    by rewrite String.eqb_refl.
  - intros other -> ->. by destruct (String.eqb _ _).
Qed.

(** ** Indexing a right-hand side, grammar.py:271 *)

Lemma getitem_loop_result (fuel : nat) (l : list addr) (idx : Z) (x : addr) :
  getitem_loop fuel l idx = Some (Some x) -> x <> EMPTY /\ In x l.
Proof.
  revert idx. induction fuel as [|fuel IH]; intros idx Hx; [discriminate|].
  simpl in Hx. destruct (list_getitem l idx) as [symbol|] eqn:Hg; [|discriminate].
  destruct (Nat.eqb_spec symbol EMPTY) as [->|Hne]; [by eapply IH|].
  injection Hx as <-. split; [done|].
  unfold list_getitem in Hg.
  destruct (idx <? 0)%Z; [destruct (idx + _ <? 0)%Z; [discriminate|]|];
    apply list_elem_of_In; by eapply list_elem_of_lookup_2.
Qed.

(** Indexing never answers [EMPTY]: whatever the list and whatever the
    integer index, negative ones included, what [rhs[idx]] answers is an
    element of the backing list other than the [EMPTY] object, or [None]. *)
Theorem getitem_never_EMPTY (l : list addr) (idx : Z) (x : addr) :
  ProductionRHS_getitem l idx = Some x -> x <> EMPTY /\ In x l.
Proof.
  unfold ProductionRHS_getitem.
  destruct (getitem_loop _ l idx) as [[y|]|] eqn:Hloop; try discriminate.
  intros [= ->]. by eapply getitem_loop_result.
Qed.

Lemma getitem_never_EMPTY_witness :
  sym_B <> EMPTY /\ In sym_B [EMPTY; sym_A; EMPTY; sym_B].
Proof. apply (getitem_never_EMPTY [EMPTY; sym_A; EMPTY; sym_B] 2). reflexivity. Defined.

Lemma getitem_loop_negative (l : list addr) (k : nat) (fuel : nat) :
  k <= length l -> k + length l < fuel ->
  getitem_loop fuel l (- Z.of_nat k)
  = Some (head (non_EMPTY (drop (length l - k) l ++ l))).
Proof.
  revert fuel. induction k as [|k IH]; intros fuel Hk Hf.
  - rewrite Nat.sub_0_r, drop_all.
    etransitivity; [apply (getitem_loop_from fuel l 0); lia|].
    by rewrite drop_0.
  - destruct fuel as [|fuel]; [lia|]. simpl getitem_loop.
    assert (Hget : list_getitem l (- Z.of_nat (S k)) = l !! (length l - S k)).
    { unfold list_getitem.
      destruct (Z.ltb_spec (- Z.of_nat (S k)) 0); [|lia].
      destruct (Z.ltb_spec (- Z.of_nat (S k) + Z.of_nat (length l)) 0); [lia|].
      f_equal. lia. }
    rewrite Hget.
    destruct (lookup_lt_is_Some_2 l (length l - S k)) as [x Hx]; [lia|].
    rewrite Hx, (drop_S _ _ _ Hx).
    replace (S (length l - S k)) with (length l - k) by lia.
    unfold non_EMPTY. simpl. rewrite filter_cons.
    destruct (Nat.eqb_spec x EMPTY) as [->|Hne].
    + rewrite decide_False by (intros ?; congruence).
      replace (- Z.of_nat (S k) + 1)%Z with (- Z.of_nat k)%Z by lia.
      apply IH; lia.
    + by rewrite decide_True.
Qed.

(** A negative index [-k] counts from the end of the backing list, and the
    search for an element that is not [EMPTY] runs on from there past the
    end to the start of the list: [rhs[-k]] is the first such element of
    the last [k] elements followed by the whole list.  Below [-len] the
    answer is [None]. *)
Theorem getitem_negative_wraps (l : list addr) (k : nat) :
  (k <= length l ->
   ProductionRHS_getitem l (- Z.of_nat k)
   = head (non_EMPTY (drop (length l - k) l ++ l))) /\
  (length l < k -> ProductionRHS_getitem l (- Z.of_nat k) = None).
Proof.
  unfold ProductionRHS_getitem, getitem_fuel. split; intros Hk.
  - rewrite getitem_loop_negative; [done|done|]. lia.
  - simpl. unfold list_getitem.
    destruct (Z.ltb_spec (- Z.of_nat k) 0); [|lia].
    by destruct (Z.ltb_spec (- Z.of_nat k + Z.of_nat (length l)) 0); [|lia].
Qed.

Lemma getitem_negative_wraps_witness :
  ProductionRHS_getitem [sym_A; sym_B; EMPTY] (- Z.of_nat 1) = Some sym_A.
Proof.
  rewrite (proj1 (getitem_negative_wraps [sym_A; sym_B; EMPTY] 1)); [reflexivity|].
  simpl. lia.
Defined.

(** ** Looking symbols up by name, grammar.py:674-701 *)

Lemma find_named_first (n : string) (s : list addr) (h : heap) (r : option addr)
    (h' : heap) :
  find_named n s h = Ok r h' ->
  match r with
  | Some t => In t s /\ name_at h t = Some n
  | None => forall x, In x s -> name_at h x <> Some n
  end.
Proof.
  induction s as [|t s IH]; simpl; intros Hrun.
  - apply ret_Ok in Hrun as [<- _]. by intros x [].
  - apply bind_Ok in Hrun as (tn & h2 & Hn & Hrun).
    apply get_name_Ok in Hn as [(o & Ho & Hon) ->].
    destruct (String.eqb_spec tn n) as [->|Hne].
    + apply ret_Ok in Hrun as [<- _]. split; [by left|].
      by rewrite (name_at_Some _ _ _ Ho), Hon.
    + apply IH in Hrun. destruct r as [t'|].
      * destruct Hrun. auto.
      * intros x [<-|Hx]; [|by apply Hrun].
        rewrite (name_at_Some _ _ _ Ho), Hon. congruence.
Qed.

Lemma find_named_total (n : string) (s : list addr) (h : heap) :
  (forall a, In a s -> exists m, name_at h a = Some m) ->
  exists r, find_named n s h = Ok r h.
Proof.
  induction s as [|t s IH]; simpl; intros Hs; [by eexists|].
  destruct (Hs t (or_introl eq_refl)) as (m & (o & Ho & <-)%name_at_inv).
  rewrite (bind_eq _ _ _ _ _ (get_name_eq _ _ _ Ho)).
  destruct (String.eqb (obj_name o) n); [by eexists|]. apply IH. auto.
Qed.

Section Lookup.
Context `{Imports}.

(** The members of the two sets of a constructed grammar are the one
    instance of their name. *)
Lemma Grammar_init_canonical (productions_ : option (list Production))
    (imports_ : option (Dict.t string)) (file_path_ : option string)
    (recognizers : option (Dict.t Recognizer)) (start : start_arg) (no_check : bool)
    (h : heap) (g : Grammar) (h1 : heap) :
  singletons_loaded h ->
  (forall ps p, productions_ = Some ps -> In p ps ->
     exists n, name_at h (symbol p) = Some n /\
               Str.mem n RESERVED_SYMBOL_NAMES = false) ->
  Grammar_init productions_ imports_ file_path_ recognizers start no_check h = Ok g h1 ->
  exists cache hc,
    heap_evolves false hc h1 /\
    forall s, In s (terminals g) \/ In s (nonterminals g) ->
              canonical hc (symbols_by_name g) cache s.
Proof.
  intros Hs Hnames Hrun.
  apply Grammar_init_Ok in Hrun as (ps & fp & st & h0 & s0 & -> & _ & Hc0 & _ & Hrun).
  apply evolving_collect_symbols in Hc0.
  pose proof (heap_evolves_loaded _ _ _ Hc0 Hs) as Hs0.
  assert (Hnames0 : forall p, In p ps ->
            exists n, name_at h0 (symbol p) = Some n /\
                      Str.mem n RESERVED_SYMBOL_NAMES = false).
  { intros p Hp. destruct (Hnames ps p eq_refl Hp) as (n & Hn & Hres).
    exists n. split; [by eapply heap_evolves_name|done]. }
  destruct (init_grammar_instances _ _ _ _ _ _ _ _ Hs0 Hnames0 Hrun)
    as (cache & hc & Hev & _ & [Hts _] & _ & Hnts).
  rewrite Forall_forall in Hts.
  exists cache, hc. split; [done|]. intros s [Hin|Hin]; [by apply Hts|].
  destruct (Hnts s Hin) as (n & Hn & Hg). exists n. auto.
Qed.

Lemma canonical_same_name (hc h1 : heap) (sbn cache : Dict.t addr) (s t : addr)
    (n : string) :
  heap_evolves false hc h1 ->
  canonical hc sbn cache s -> canonical hc sbn cache t ->
  name_at h1 s = Some n -> name_at h1 t = Some n -> s = t.
Proof.
  intros Hev Hs Ht Hns Hnt. apply (canonical_unique _ _ _ _ _ Hs Ht).
  destruct Hs as (n1 & Hn1 & _), Ht as (n2 & Hn2 & _).
  pose proof (heap_evolves_name _ _ _ _ _ Hev Hn1).
  pose proof (heap_evolves_name _ _ _ _ _ Hev Hn2). congruence.
Qed.

Lemma canonical_named (hc h1 : heap) (sbn cache : Dict.t addr) (s : addr) :
  heap_evolves false hc h1 -> canonical hc sbn cache s ->
  exists m, name_at h1 s = Some m.
Proof. intros Hev (n & Hn & _). exists n. by eapply heap_evolves_name. Qed.

(** Lookup by name in a constructed grammar (no production having come
    with a symbol named [EOF], [STOP] or [EMPTY]) finds every member of the
    sets under its own name: [get_terminal] and [get_nonterminal] answer
    the member itself, [get_symbol] answers it whichever set it is in, and
    answers [None] for a name that no member has. *)
Theorem lookup_by_name_finds_member
    (productions_ : option (list Production)) (imports_ : option (Dict.t string))
    (file_path_ : option string) (recognizers : option (Dict.t Recognizer))
    (start : start_arg) (no_check : bool) (h : heap) (g : Grammar) (h1 : heap) :
  singletons_loaded h ->
  (forall ps p, productions_ = Some ps -> In p ps ->
     exists n, name_at h (symbol p) = Some n /\
               Str.mem n RESERVED_SYMBOL_NAMES = false) ->
  Grammar_init productions_ imports_ file_path_ recognizers start no_check h = Ok g h1 ->
  (forall t n, In t (terminals g) -> name_at h1 t = Some n ->
     get_terminal g n h1 = Ok (Some t) h1) /\
  (forall s n, In s (nonterminals g) -> name_at h1 s = Some n ->
     get_nonterminal g n h1 = Ok (Some s) h1) /\
  (forall s n, In s (terminals g) \/ In s (nonterminals g) -> name_at h1 s = Some n ->
     get_symbol g n h1 = Ok (Some s) h1) /\
  (forall n, (forall s, In s (terminals g) \/ In s (nonterminals g) ->
                        name_at h1 s <> Some n) ->
     get_symbol g n h1 = Ok None h1).
Proof.
  intros Hs Hnames Hrun.
  destruct (Grammar_init_canonical _ _ _ _ _ _ _ _ _ Hs Hnames Hrun)
    as (cache & hc & Hev & Hcan).
  assert (Hfind : forall l s n,
            (forall x, In x l -> In x (terminals g) \/ In x (nonterminals g)) ->
            In s (terminals g) \/ In s (nonterminals g) ->
            name_at h1 s = Some n ->
            exists r, find_named n l h1 = Ok r h1 /\
                      (In s l -> r = Some s) /\ (r = None \/ r = Some s)).
  { intros l s n Hl Hin Hn.
    destruct (find_named_total n l h1) as (r & Hr).
    { intros a Ha. eapply canonical_named; [exact Hev|]. by apply Hcan, Hl. }
    exists r. split; [done|]. apply find_named_first in Hr.
    destruct r as [t|].
    - destruct Hr as [Ht Htn].
      assert (t = s) as ->; [|auto].
      eapply canonical_same_name; [exact Hev| | |exact Htn|exact Hn]; apply Hcan; auto.
    - split; [|auto]. intros Hsl. by destruct (Hr s Hsl). }
  assert (Hnone : forall l n,
            (forall x, In x l -> In x (terminals g) \/ In x (nonterminals g)) ->
            (forall s, In s (terminals g) \/ In s (nonterminals g) ->
                       name_at h1 s <> Some n) ->
            find_named n l h1 = Ok None h1).
  { intros l n Hl Hno. destruct (find_named_total n l h1) as (r & Hr).
    { intros a Ha. eapply canonical_named; [exact Hev|]. by apply Hcan, Hl. }
    pose proof (find_named_first _ _ _ _ _ Hr) as Hf. destruct r as [t|]; [|done].
    destruct Hf as [Ht Htn]. by destruct (Hno t (Hl t Ht)). }
  split; [|split; [|split]].
  - intros t n Hin Hn. unfold get_terminal.
    destruct (Hfind (terminals g) t n) as (r & Hr & Hsome & _); auto.
    by rewrite Hr, (Hsome Hin).
  - intros s n Hin Hn. unfold get_nonterminal.
    destruct (Hfind (nonterminals g) s n) as (r & Hr & Hsome & _); auto.
    by rewrite Hr, (Hsome Hin).
  - intros s n Hin Hn. unfold get_symbol, get_terminal, get_nonterminal.
    destruct (Hfind (terminals g) s n) as (r & Hr & Hsome & Hcase); auto.
    rewrite (bind_eq _ _ _ _ _ Hr). destruct Hcase as [->| ->]; [|done].
    destruct (Hfind (nonterminals g) s n) as (r' & Hr' & Hsome' & _); auto.
    destruct Hin as [Hin|Hin]; [by specialize (Hsome Hin)|].
    by rewrite Hr', (Hsome' Hin).
  - intros n Hno. unfold get_symbol, get_terminal, get_nonterminal.
    rewrite (bind_eq _ _ _ _ _ (Hnone (terminals g) n ltac:(auto) Hno)).
    apply Hnone; auto.
Qed.

End Lookup.

Lemma lookup_by_name_witness :
  exists g h1,
    @Grammar_init example_imports (Some productions_S) None (Some "grammar.pg")
      None StartNone true heap_S = Ok g h1 /\
    (forall t n, In t (terminals g) -> name_at h1 t = Some n ->
       @get_terminal g n h1 = Ok (Some t) h1).
Proof.
  destruct (@Grammar_init example_imports (Some productions_S) None (Some "grammar.pg")
              None StartNone true heap_S) as [g h1|e] eqn:Hrun.
  - assert (Hs : singletons_loaded heap_S).
    { apply (module_heap_loaded
               [NonTerminal_init "S";
                Terminal_init "a" (Some (StringRecognizer "a" false));
                Reference "S" None]). }
    assert (Hnames : forall ps p, Some productions_S = Some ps -> In p ps ->
              exists n, name_at heap_S (symbol p) = Some n /\
                        Str.mem n RESERVED_SYMBOL_NAMES = false).
    { intros ps p [= <-] Hp. exists "S".
      destruct Hp as [<-|[<-|[]]]; split; reflexivity. }
    destruct (@lookup_by_name_finds_member example_imports _ _ _ _ _ _ _ _ _
                Hs Hnames Hrun) as (HA & _).
    exists g, h1. auto.
  - vm_compute in Hrun. discriminate Hrun.
Defined.

(** ** The ids of productions, grammar.py:637 and grammar.py:697 *)

Lemma find_production_id_first (n : string) (ps : list Production) (h : heap) :
  (forall p, In p ps -> exists m, name_at h (symbol p) = Some m) ->
  (exists i p, find_production_id n ps h = Ok (prod_id p) h /\
               ps !! i = Some p /\ name_at h (symbol p) = Some n /\
               forall j q, j < i -> ps !! j = Some q -> name_at h (symbol q) <> Some n) \/
  (find_production_id n ps h = Ok None h /\
   forall p, In p ps -> name_at h (symbol p) <> Some n).
Proof.
  induction ps as [|p ps IH]; simpl; intros Hps.
  - right. split; [done|]. by intros p [].
  - destruct (Hps p (or_introl eq_refl)) as (m & Hm).
    destruct (name_at_inv _ _ _ Hm) as (o & Ho & <-).
    rewrite (bind_eq _ _ _ _ _ (get_name_eq _ _ _ Ho)).
    destruct (String.eqb_spec (obj_name o) n) as [Heq|Hne].
    + left. exists 0, p. split; [done|]. split; [done|]. split; [congruence|].
      intros j q Hj. lia.
    + destruct IH as [(i & q & Hr & Hq & Hqn & Hbefore)|[Hr Hnone]]; [by auto| |].
      * left. exists (S i), q. split; [done|]. split; [done|]. split; [done|].
        intros [|j] q' Hj Hq'; simpl in Hq'.
        -- injection Hq' as <-. congruence.
        -- apply (Hbefore j q'); [lia|done].
      * right. split; [done|]. intros q [<-|Hq]; [congruence|by apply Hnone].
Qed.

Section ProductionIds.
Context `{Imports}.

(** The productions of a constructed grammar: the first is that of [S'],
    each has its position as [prod_id], and the symbol of each is a live
    object. *)
Lemma Grammar_init_productions (productions_ : option (list Production))
    (imports_ : option (Dict.t string)) (file_path_ : option string)
    (recognizers : option (Dict.t Recognizer)) (start : start_arg) (no_check : bool)
    (h : heap) (g : Grammar) (h1 : heap) :
  singletons_loaded h ->
  Grammar_init productions_ imports_ file_path_ recognizers start no_check h = Ok g h1 ->
  (exists p0 rest, productions g = p0 :: rest /\ name_at h1 (symbol p0) = Some "S'") /\
  (forall p, In p (productions g) -> exists n, name_at h1 (symbol p) = Some n) /\
  (forall i p, productions g !! i = Some p -> prod_id p = Some i).
Proof.
  intros Hs Hrun.
  apply Grammar_init_Ok in Hrun as (ps & fp & st & h0 & s0 & _ & _ & Hc0 & _ & Hrun).
  apply evolving_collect_symbols in Hc0.
  pose proof (heap_evolves_loaded _ _ _ Hc0 Hs) as Hs0.
  destruct (init_grammar_summary _ _ _ _ _ _ _ _ Hs0 Hrun)
    as (sbn0 & ts0 & ts1 & cache & ps_res & hc & _ & Hev & Hev1 & Hfold & Hsbn
        & Hfiled & _ & _ & _ & _ & Hall & _ & _ & Hprods & Hhead & Hids).
  pose proof (heap_evolves_loaded _ _ _ Hev Hs0) as Hsc.
  destruct (singleton_names _ Hs0) as (_ & _ & _ & _ & HNT0).
  destruct (singleton_names _ Hsc) as (NAUG & _).
  destruct (collect_loop_spec _ _ _ _ _ Hfold (filed_by_name_nil h0))
    as (_ & _ & _ & _ & _ & _ & Hntp).
  assert (Hsym : forall q p', In q ps_res ->
            resolved_production hc (symbols_by_name g) cache p' q ->
            exists n, name_at hc (symbol q) = Some n).
  { intros q p' _ ((n & Hn & Hsq) & _). rewrite Hsq.
    destruct (Dict.get n (symbols_by_name g)) as [s|] eqn:Hg; [|eauto].
    exists n. by apply Hfiled. }
  split; [|split; [|exact Hids]].
  - destruct (Hntp _ (or_introl eq_refl) HNT0) as (n0 & a' & Hn0 & Ha' & Hant).
    simpl in Hn0. rewrite NAUG in Hn0. injection Hn0 as <-.
    assert (HaF : Dict.get "S'" (symbols_by_name g) = Some a')
      by (rewrite Hsbn, !Dict_get_set_ne by discriminate; exact Ha').
    apply Forall2_cons_inv_l in Hall
      as (q & rest & ((m & Hm & Hsq) & _) & _ & ->).
    simpl in Hm. rewrite NAUG in Hm. injection Hm as <-. rewrite HaF in Hsq.
    destruct (Hhead q rest eq_refl) as (p & rest' & Hp & Hsp & _);
      [by rewrite Hsq|].
    exists p, rest'. split; [done|]. rewrite Hsp, Hsq.
    eapply heap_evolves_name; [exact Hev1|by apply Hfiled].
  - intros p Hp. destruct (Hprods p Hp) as (q & Hq & -> & _).
    pose proof Hq as Hq'. apply list_elem_of_In in Hq'.
    destruct (proj1 (list_elem_of_lookup _ _) Hq') as (i & Hi).
    destruct (Forall2_lookup_r _ _ _ _ _ Hall Hi) as (p' & _ & Hres).
    destruct (Hsym q p' Hq Hres) as (n & Hn). exists n.
    by eapply heap_evolves_name.
Qed.

(** In a constructed grammar [get_production_id] answers the position of
    the first production whose symbol has the name, [None] when there is
    none; for [S'] that is 0. *)
Theorem get_production_id_first
    (productions_ : option (list Production)) (imports_ : option (Dict.t string))
    (file_path_ : option string) (recognizers : option (Dict.t Recognizer))
    (start : start_arg) (no_check : bool) (h : heap) (g : Grammar) (h1 : heap) :
  singletons_loaded h ->
  Grammar_init productions_ imports_ file_path_ recognizers start no_check h = Ok g h1 ->
  get_production_id g "S'" h1 = Ok (Some 0) h1 /\
  forall n,
    (exists i p, get_production_id g n h1 = Ok (Some i) h1 /\
                 productions g !! i = Some p /\ name_at h1 (symbol p) = Some n /\
                 forall j q, j < i -> productions g !! j = Some q ->
                             name_at h1 (symbol q) <> Some n) \/
    (get_production_id g n h1 = Ok None h1 /\
     forall p, In p (productions g) -> name_at h1 (symbol p) <> Some n).
Proof.
  intros Hs Hrun.
  destruct (Grammar_init_productions _ _ _ _ _ _ _ _ _ Hs Hrun)
    as ((p0 & rest & Hp0 & Hname0) & Hnames & Hids).
  unfold get_production_id. split.
  - rewrite Hp0. simpl. destruct (name_at_inv _ _ _ Hname0) as (o & Ho & Hon).
    rewrite (bind_eq _ _ _ _ _ (get_name_eq _ _ _ Ho)), Hon. simpl.
    unfold ret. f_equal. apply (Hids 0). by rewrite Hp0.
  - intros n.
    destruct (find_production_id_first n (productions g) h1 Hnames)
      as [(i & p & Hr & Hp & Hpn & Hbefore)|[Hr Hnone]]; [left|right; auto].
    exists i, p. rewrite Hr, (Hids i p Hp). auto.
Qed.

End ProductionIds.

Lemma get_production_id_witness :
  exists g h1,
    @Grammar_init example_imports (Some productions_S) None (Some "grammar.pg")
      None StartNone true heap_S = Ok g h1 /\
    get_production_id g "S'" h1 = Ok (Some 0) h1.
Proof.
  destruct (@Grammar_init example_imports (Some productions_S) None (Some "grammar.pg")
              None StartNone true heap_S) as [g h1|e] eqn:Hrun.
  - assert (Hs : singletons_loaded heap_S).
    { apply (module_heap_loaded
               [NonTerminal_init "S";
                Terminal_init "a" (Some (StringRecognizer "a" false));
                Reference "S" None]). }
    destruct (@get_production_id_first example_imports _ _ _ _ _ _ _ _ _ Hs Hrun)
      as (H0 & _).
    exists g, h1. auto.
  - vm_compute in Hrun. discriminate Hrun.
Defined.

(** ** The phases of [_init_grammar], grammar.py:467 *)

Section Phases.
Context `{Imports}.

(** A successful [_init_grammar], phase by phase, with the state between
    the phases: [hc] is the heap once the symbols are collected. *)
Lemma init_grammar_phases (ps : list Production) (imports_ : option (Dict.t string))
    (fp : string) (start : option addr) (no_check : bool) (h : heap)
    (g : Grammar) (h1 : heap) :
  singletons_loaded h ->
  _init_grammar ps imports_ fp start no_check h = Ok g h1 ->
  exists sbn0 ts0 ts1 cache ps_res ntp hc,
    heap_evolves true h hc /\ heap_evolves false hc h1 /\ singletons_loaded hc /\
    fold_m (plain_production AUGSYMBOL [start_symbol g; STOP] false :: ps) ([], [])
      collect_step h = Ok (sbn0, recog_to_terminals g) hc /\
    symbols_by_name g
    = Dict.set "STOP" STOP (Dict.set "EOF" EOF (Dict.set "EMPTY" EMPTY sbn0)) /\
    filed_by_name hc sbn0 /\
    set_of_class isinstance_Terminal (Dict.values sbn0) hc = Ok ts0 hc /\
    set_of_class isinstance_NonTerminal (Dict.values sbn0) hc = Ok (nonterminals g) hc /\
    set_update ts0 [EMPTY; EOF; STOP] hc = Ok ts1 hc /\
    resolve_productions (symbols_by_name g) (recog_to_terminals g) ([], ts1)
      (plain_production AUGSYMBOL [start_symbol g; STOP] false :: ps) hc
    = Ok (cache, terminals g, ps_res) hc /\
    non_term_productions ps_res hc = Ok ntp hc /\
    enumerate_from 0 [] (if 1 <? length ntp then ntp else ps_res) hc
    = Ok (productions g) hc /\
    _fix_keyword_terminals g hc = Ok tt h1.
Proof.
  intros Hs Hrun.
  apply init_grammar_Ok in Hrun
    as (s0 & p0 & sbn0 & r2t & ts0 & nts & ts1 & ts2 & ps_res & ntp & ps_enum & hc
        & -> & Hp0 & Hc & Hts1 & -> & Hres & Hntp & Henum & -> & Hfix).
  cbn [start_symbol symbols_by_name recog_to_terminals nonterminals terminals
       productions].
  apply augmented_production in Hp0 as ->; [|done].
  unfold _collect_grammar_symbols in Hc.
  apply bind_Ok in Hc as ([sbn r2t'] & hc1 & Hfold & Hc).
  unfold collect_symbols in Hfold.
  apply bind_Ok in Hc as (tsx & hc2 & Htsx & Hc).
  pose proof (pure_set_of_class _ _ _ _ _ Htsx) as ->.
  apply bind_Ok in Hc as (ntsx & hc3 & Hntsx & Hc).
  pose proof (pure_set_of_class _ _ _ _ _ Hntsx) as ->.
  apply ret_Ok in Hc as [[= <- <- <- <-] <-]. cbn [fst snd] in *.
  destruct (collect_loop_spec _ _ _ _ _ Hfold (filed_by_name_nil h))
    as (Hfiled & Hev & _).
  unfold _resolve_references in Hres.
  apply bind_Ok in Hres as ([[cache ts2'] ps_res'] & hr & Hres & Hret).
  pose proof (pure_resolve_productions _ _ _ _ _ _ _ Hres) as ->.
  apply ret_Ok in Hret as [[= <- <-] _]. cbn [fst snd] in *.
  exists sbn, tsx, ts1, cache, ps_res', ntp, hc1.
  split; [done|]. split; [by eapply evolving_fix_keyword_terminals|].
  split; [by eapply heap_evolves_loaded|].
  do 8 (split; [done|]). split; [exact Henum|exact Hfix].
Qed.

(** The same for [Grammar.__init__]: [h0] is the heap that
    [PGFile.__init__] leaves. *)
Lemma Grammar_init_phases (productions_ : option (list Production))
    (imports_ : option (Dict.t string)) (file_path_ : option string)
    (recognizers : option (Dict.t Recognizer)) (start : start_arg) (no_check : bool)
    (h : heap) (g : Grammar) (h1 : heap) :
  singletons_loaded h ->
  Grammar_init productions_ imports_ file_path_ recognizers start no_check h = Ok g h1 ->
  exists ps sbn0 ts0 ts1 cache ps_res ntp h0 hc,
    productions_ = Some ps /\
    heap_evolves true h h0 /\
    heap_evolves true h0 hc /\ heap_evolves false hc h1 /\ singletons_loaded hc /\
    fold_m (plain_production AUGSYMBOL [start_symbol g; STOP] false :: ps) ([], [])
      collect_step h0 = Ok (sbn0, recog_to_terminals g) hc /\
    symbols_by_name g
    = Dict.set "STOP" STOP (Dict.set "EOF" EOF (Dict.set "EMPTY" EMPTY sbn0)) /\
    filed_by_name hc sbn0 /\
    set_of_class isinstance_Terminal (Dict.values sbn0) hc = Ok ts0 hc /\
    set_of_class isinstance_NonTerminal (Dict.values sbn0) hc = Ok (nonterminals g) hc /\
    set_update ts0 [EMPTY; EOF; STOP] hc = Ok ts1 hc /\
    resolve_productions (symbols_by_name g) (recog_to_terminals g) ([], ts1)
      (plain_production AUGSYMBOL [start_symbol g; STOP] false :: ps) hc
    = Ok (cache, terminals g, ps_res) hc /\
    non_term_productions ps_res hc = Ok ntp hc /\
    enumerate_from 0 [] (if 1 <? length ntp then ntp else ps_res) hc
    = Ok (productions g) hc /\
    _fix_keyword_terminals g hc = Ok tt h1.
Proof.
  intros Hs Hrun.
  apply Grammar_init_Ok in Hrun as (ps & fp & st & h0 & s0 & -> & _ & Hc0 & _ & Hrun).
  apply evolving_collect_symbols in Hc0.
  pose proof (heap_evolves_loaded _ _ _ Hc0 Hs) as Hs0.
  destruct (init_grammar_phases _ _ _ _ _ _ _ _ Hs0 Hrun)
    as (sbn0 & ts0 & ts1 & cache & ps_res & ntp & hc & Hphases).
  exists ps, sbn0, ts0, ts1, cache, ps_res, ntp, h0, hc. auto.
Qed.

End Phases.

(** ** Dropping the productions of terminals, grammar.py:496-503 *)

Lemma non_term_productions_filter (ps : list Production) (h : heap)
    (r : list Production) (h' : heap) :
  non_term_productions ps h = Ok r h' ->
  r = List.filter (fun p => rule_symbol h (symbol p)) ps /\
  Forall (fun p => exists o, h !! symbol p = Some o) ps.
Proof.
  revert r h'. induction ps as [|p ps IH]; intros r h' Hrun; simpl in Hrun.
  - apply ret_Ok in Hrun as [<- _]. by split.
  - apply bind_Ok in Hrun as (o & h2 & Ho & Hrun). apply deref_Ok in Ho as [Ho ->].
    apply bind_Ok in Hrun as (r1 & h2 & Hr1 & Hrun).
    apply ret_Ok in Hrun as [<- _]. destruct (IH _ _ Hr1) as [-> Hvalid].
    split; [|constructor; eauto]. simpl.
    assert (rule_symbol h (symbol p)
            = isinstance_NonTerminal o || String.eqb (obj_name o) "LAYOUT") as ->
      by (unfold rule_symbol; by rewrite Ho).
    done.
Qed.

Lemma rule_symbol_evolves (keep : bool) (h h' : heap) (a : addr) (o : object) :
  heap_evolves keep h h' -> h !! a = Some o -> rule_symbol h' a = rule_symbol h a.
Proof.
  intros Hev Ha. unfold rule_symbol. destruct (Hev a o Ha) as (o' & -> & S).
  rewrite Ha, (same_object_name _ _ _ S). by destruct o, o'.
Qed.

Lemma enumerate_from_symbols (idx : nat) (d : list (addr * nat)) (ps : list Production)
    (h : heap) (ps' : list Production) (h' : heap) :
  enumerate_from idx d ps h = Ok ps' h' -> map symbol ps' = map symbol ps.
Proof.
  intros Hrun. destruct (enumerate_from_spec _ _ _ _ _ _ Hrun) as [Hall _].
  clear Hrun. induction Hall as [|p p' l l' (Hs & _) _ IH]; [done|]. simpl. by rewrite Hs, IH.
Qed.

Section Pruning.
Context `{Imports}.

(** The productions of a constructed grammar: when more than one
    production has a non-terminal or a symbol named [LAYOUT] on its left,
    every production has; the productions of terminals are only kept in a
    grammar where at most one production, that of [S'], has. *)
Theorem terminal_productions_dropped
    (productions_ : option (list Production)) (imports_ : option (Dict.t string))
    (file_path_ : option string) (recognizers : option (Dict.t Recognizer))
    (start : start_arg) (no_check : bool) (h : heap) (g : Grammar) (h1 : heap) :
  singletons_loaded h ->
  Grammar_init productions_ imports_ file_path_ recognizers start no_check h = Ok g h1 ->
  Forall (fun a => rule_symbol h1 a = true) (map symbol (productions g)) \/
  length (List.filter (rule_symbol h1) (map symbol (productions g))) <= 1.
Proof.
  intros Hs Hrun.
  destruct (Grammar_init_phases _ _ _ _ _ _ _ _ _ Hs Hrun)
    as (ps & sbn0 & ts0 & ts1 & cache & ps_res & ntp & h0 & hc & _ & _ & _ & Hev1
        & _ & _ & _ & _ & _ & _ & _ & _ & Hntp & Henum & _).
  destruct (non_term_productions_filter _ _ _ _ Hntp) as [-> Hvalid].
  rewrite (enumerate_from_symbols _ _ _ _ _ _ Henum).
  assert (Hsame : forall l, Forall (fun p => exists o, hc !! symbol p = Some o) l ->
            map (rule_symbol h1) (map symbol l) = map (rule_symbol hc) (map symbol l)).
  { induction 1 as [|p l (o & Ho) _ IH]; [done|]. simpl.
    by rewrite (rule_symbol_evolves _ _ _ _ _ Hev1 Ho), IH. }
  assert (Hfilter : forall (f f' : addr -> bool) (l : list addr),
            map f l = map f' l -> List.filter f l = List.filter f' l).
  { intros f f'. induction l as [|a l IH]; [done|]. simpl. intros [= -> Hl].
    by rewrite (IH Hl). }
  assert (Hlen : forall l, length (List.filter (rule_symbol hc) (map symbol l))
                           = length (List.filter (fun p => rule_symbol hc (symbol p)) l)).
  { induction l as [|p l IH]; [done|]. simpl. destruct (rule_symbol hc (symbol p)); simpl;
      by rewrite IH. }
  destruct (Nat.ltb_spec 1
              (length (List.filter (fun p => rule_symbol hc (symbol p)) ps_res)))
    as [Hmany|Hfew].
  - left. apply Forall_forall. intros a (p & <- & Hp)%in_map_iff.
    pose proof Hp as [Hin Hrule]%filter_In.
    rewrite Forall_forall in Hvalid. destruct (Hvalid p Hin) as (o & Ho).
    by rewrite (rule_symbol_evolves _ _ _ _ _ Hev1 Ho).
  - right. rewrite (Hfilter _ _ _ (Hsame _ Hvalid)), Hlen. exact Hfew.
Qed.

End Pruning.

Lemma terminal_productions_dropped_witness :
  exists g h1,
    @Grammar_init example_imports (Some productions_kw) None (Some "grammar.pg")
      None StartNone true heap_kw = Ok g h1 /\
    (Forall (fun a => rule_symbol h1 a = true) (map symbol (productions g)) \/
     length (List.filter (rule_symbol h1) (map symbol (productions g))) <= 1).
Proof.
  destruct (@Grammar_init example_imports (Some productions_kw) None (Some "grammar.pg")
              None StartNone true heap_kw) as [g h1|e] eqn:Hrun.
  - exists g, h1. split; [reflexivity|].
    apply (@terminal_productions_dropped example_imports _ _ _ _ _ _ _ _ _
             (module_heap_loaded _) Hrun).
  - vm_compute in Hrun. discriminate Hrun.
Defined.

(** ** The classes of the symbols of a grammar *)

Lemma is_symbol_evolves (keep : bool) (h h' : heap) (a : addr) :
  heap_evolves keep h h' -> is_symbol_at h a -> is_symbol_at h' a.
Proof.
  intros Hev [Ht|Hnt]; [left; by eapply is_Terminal_evolves|
                        right; by eapply is_NonTerminal_evolves].
Qed.

(** Going back along the evolution of the heap: an object that was there
    has the class it has now. *)
Lemma is_Terminal_before (keep : bool) (h h' : heap) (a : addr) (o : object) :
  heap_evolves keep h h' -> h !! a = Some o -> is_Terminal_at h' a -> is_Terminal_at h a.
Proof.
  intros Hev Ha (s & t & Ha'). destruct (Hev a o Ha) as (o' & Ho' & S).
  rewrite Ha' in Ho'. injection Ho' as <-. destruct o; simpl in S; try tauto.
  by eexists _, _.
Qed.

Section Classes.
Context `{Imports}.

Lemma collect_step_class (st : Dict.t addr * Dict.t addr) (p : Production)
    (h : heap) (st' : Dict.t addr * Dict.t addr) (h' : heap) :
  collect_step st p h = Ok st' h' ->
  exists n new, fst st' = Dict.set n new (fst st) /\ is_symbol_at h' new.
Proof.
  destruct st as [sbn r2t]. unfold collect_step. cbn [fst snd]. intros Hrun.
  apply bind_Ok in Hrun as (o & h0 & Ho & Hrun). apply deref_Ok in Ho as [Ho ->].
  apply bind_Ok in Hrun as ([new r2t'] & h2 & Hnew & Hrun). cbn [fst snd] in Hrun.
  apply bind_Ok in Hrun as ([] & h3 & Hact & Hrun).
  apply bind_Ok in Hrun as (n' & h4 & Hn' & Hrun).
  apply get_name_Ok in Hn' as [_ ->]. apply ret_Ok in Hrun as [<- <-]. cbn [fst snd].
  exists n', new. split; [done|].
  destruct (resolve_action_symbol _ _ _ _ Hact) as (o2 & Ho2 & Hsym2).
  apply (is_symbol_evolves true h2); [by eapply evolving_resolve_action|].
  destruct o2 as [s|s t|]; try discriminate; [right; by eexists|left; by eexists _, _].
Qed.

Lemma collect_loop_classes (ps : list Production) (st : Dict.t addr * Dict.t addr)
    (h : heap) (st' : Dict.t addr * Dict.t addr) (h' : heap) :
  fold_m ps st collect_step h = Ok st' h' ->
  (forall k a, Dict.get k (fst st) = Some a -> is_symbol_at h a) ->
  forall k a, Dict.get k (fst st') = Some a -> is_symbol_at h' a.
Proof.
  revert st h. induction ps as [|p ps IH]; intros st h Hrun Hst; simpl in Hrun.
  - by apply ret_Ok in Hrun as [<- <-].
  - apply bind_Ok in Hrun as (st1 & h1 & Hstep & Hrun).
    destruct (collect_step_class _ _ _ _ _ Hstep) as (n & new & Hst1 & Hnew).
    apply (IH _ _ Hrun). intros k a. rewrite Hst1, Dict_get_set.
    destruct (String.eqb k n); [by intros [= <-]|].
    intros Hk. eapply is_symbol_evolves; [by eapply evolving_collect_step|by eapply Hst].
Qed.

(** What a resolved reference was: a terminal, or a name that the index
    has; and the set of terminals stays one of terminals. *)
Lemma resolve_ref_source (sbn r2t : Dict.t addr) (p_symbol : addr)
    (cache : Dict.t addr) (ts : list addr) (ref : addr) (h : heap)
    (cache' : Dict.t addr) (ts' : list addr) (s : addr) (h' : heap) :
  resolve_ref sbn r2t p_symbol (cache, ts) ref h = Ok (cache', ts', s) h' ->
  (is_Terminal_at h ref \/
   exists n, name_at h ref = Some n /\ Dict.get n sbn = Some s) /\
  (Forall (is_Terminal_at h) ts -> Forall (is_Terminal_at h) ts').
Proof.
  unfold resolve_ref. intros Hrun.
  apply bind_Ok in Hrun as (n & h2 & Hn & Hrun).
  apply get_name_Ok in Hn as [(o & Ho & Hon) ->].
  assert (Hname : name_at h ref = Some n) by (by rewrite (name_at_Some _ _ _ Ho), Hon).
  destruct (Dict.get n sbn) as [ref_sym|] eqn:Hsbn.
  { apply ret_Ok in Hrun as [[= <- <- <-] _]. split; [right; eauto|done]. }
  apply bind_Ok in Hrun as (ps & h2 & Hps & Hrun). apply deref_Ok in Hps as [_ ->].
  destruct (if isinstance_NonTerminal ps then Dict.get n r2t else None).
  { apply bind_Ok in Hrun as (? & h2 & _ & Hrun).
    apply bind_Ok in Hrun as (? & h3 & _ & Hrun). discriminate. }
  apply bind_Ok in Hrun as (r & h2 & Hr & Hrun). apply deref_Ok in Hr as [Hr ->].
  rewrite Ho in Hr. injection Hr as <-.
  destruct (isinstance_Terminal o) eqn:Hterm; simpl in Hrun.
  2: { apply bind_Ok in Hrun as (? & h2 & _ & Hrun). discriminate. }
  assert (Hist : is_Terminal_at h ref) by (destruct o; try discriminate; by eexists _, _).
  split; [by left|]. cbn [fst snd] in Hrun.
  destruct (Dict.get n cache) as [ref_sym|].
  { by apply ret_Ok in Hrun as [[= <- <- <-] _]. }
  apply bind_Ok in Hrun as (ts2 & h2 & Hadd & Hrun).
  apply ret_Ok in Hrun as [[= <- <- <-] _].
  apply set_add_spec in Hadd as [->|[-> _]]; [|done].
  intros Hts. apply Forall_app. split; [done|]. by constructor.
Qed.

Lemma resolve_rhs_source (sbn r2t : Dict.t addr) (p_symbol : addr) (l : list addr)
    (cache : Dict.t addr) (ts : list addr) (h : heap)
    (cache' : Dict.t addr) (ts' : list addr) (l' : list addr) (h' : heap) :
  resolve_rhs sbn r2t p_symbol (cache, ts) l h = Ok (cache', ts', l') h' ->
  Forall (fun ref => is_Terminal_at h ref \/
                     exists n s, name_at h ref = Some n /\ Dict.get n sbn = Some s) l /\
  (Forall (is_Terminal_at h) ts -> Forall (is_Terminal_at h) ts').
Proof.
  revert cache ts cache' ts' l' h'.
  induction l as [|ref l IH]; intros cache ts cache' ts' l' h' Hrun; simpl in Hrun.
  - apply ret_Ok in Hrun as [[= <- <- <-] _]. by split.
  - apply bind_Ok in Hrun as ([[c1 t1] s] & h1 & Hstep & Hrun).
    pose proof (pure_resolve_ref _ _ _ _ _ _ _ _ Hstep) as ->.
    apply bind_Ok in Hrun as ([[c2 t2] l2] & h2 & Hrest & Hrun).
    pose proof (pure_resolve_rhs _ _ _ _ _ _ _ _ Hrest) as ->.
    apply ret_Ok in Hrun as [[= <- <- <-] _]. cbn [fst snd] in *.
    destruct (resolve_ref_source _ _ _ _ _ _ _ _ _ _ _ Hstep) as [Href Ht1].
    destruct (IH _ _ _ _ _ _ Hrest) as [Hl Ht2].
    split; [|auto]. constructor; [|done].
    destruct Href as [?|(n & ? & ?)]; eauto.
Qed.

Lemma resolve_productions_source (sbn r2t : Dict.t addr) (ps : list Production)
    (cache : Dict.t addr) (ts : list addr) (h : heap)
    (cache' : Dict.t addr) (ts' : list addr) (ps' : list Production) (h' : heap) :
  resolve_productions sbn r2t (cache, ts) ps h = Ok (cache', ts', ps') h' ->
  Forall (fun p =>
            Forall (fun ref => is_Terminal_at h ref \/
                               exists n s, name_at h ref = Some n /\
                                           Dict.get n sbn = Some s) (rhs p)) ps /\
  (Forall (is_Terminal_at h) ts -> Forall (is_Terminal_at h) ts').
Proof.
  revert cache ts cache' ts' ps' h'.
  induction ps as [|p ps IH]; intros cache ts cache' ts' ps' h' Hrun; simpl in Hrun.
  - apply ret_Ok in Hrun as [[= <- <- <-] _]. by split.
  - apply bind_Ok in Hrun as ([[c1 t1] p1] & h1 & Hstep & Hrun).
    apply bind_Ok in Hrun as ([[c2 t2] ps2] & h2 & Hrest & Hrun).
    apply ret_Ok in Hrun as [[= <- <- <-] _]. cbn [fst snd] in *.
    unfold resolve_production in Hstep.
    apply bind_Ok in Hstep as (n & h3 & Hn & Hstep).
    apply get_name_Ok in Hn as [_ ->].
    apply bind_Ok in Hstep as ([[c1' t1'] l1] & h3 & Hrhs & Hstep).
    pose proof (pure_resolve_rhs _ _ _ _ _ _ _ _ Hrhs) as ->.
    apply ret_Ok in Hstep as [[= <- <- <-] <-]. cbn [fst snd] in *.
    destruct (resolve_rhs_source _ _ _ _ _ _ _ _ _ _ _ Hrhs) as [Hl Ht1].
    destruct (IH _ _ _ _ _ _ Hrest) as [Hps Ht2].
    split; [by constructor|auto].
Qed.

End Classes.

Section Resolved.
Context `{Imports}.

(** What holds of a constructed grammar once the references are resolved,
    on the heap [hc] at that time. *)
Lemma Grammar_init_resolved (productions_ : option (list Production))
    (imports_ : option (Dict.t string)) (file_path_ : option string)
    (recognizers : option (Dict.t Recognizer)) (start : start_arg) (no_check : bool)
    (h : heap) (g : Grammar) (h1 : heap) :
  singletons_loaded h ->
  Grammar_init productions_ imports_ file_path_ recognizers start no_check h = Ok g h1 ->
  exists ps cache h0 hc,
    productions_ = Some ps /\
    heap_evolves true h h0 /\ heap_evolves true h0 hc /\ heap_evolves false hc h1 /\
    singletons_loaded hc /\
    filed_by_name hc (symbols_by_name g) /\
    (forall k a, Dict.get k (symbols_by_name g) = Some a -> is_symbol_at hc a) /\
    cache_ok hc (symbols_by_name g) cache /\
    Forall (is_Terminal_at hc) (terminals g) /\
    Forall (is_NonTerminal_at hc) (nonterminals g) /\
    (forall p, In p (productions g) ->
       (exists n, name_at hc (symbol p) = Some n /\
                  Dict.get n (symbols_by_name g) = Some (symbol p)) /\
       Forall (canonical hc (symbols_by_name g) cache) (rhs p)) /\
    (forall p r, In p ps -> In r (rhs p) ->
       is_Terminal_at hc r \/
       exists n s, name_at hc r = Some n /\ Dict.get n (symbols_by_name g) = Some s) /\
    (forall k a, Dict.get k (symbols_by_name g) = Some a ->
       In k ["S'"; "EMPTY"; "EOF"; "STOP"] \/
       exists p, In p ps /\ name_at hc (symbol p) = Some k) /\
    (exists chosen, enumerate_from 0 [] chosen hc = Ok (productions g) hc).
Proof.
  intros Hs Hrun.
  destruct (Grammar_init_phases _ _ _ _ _ _ _ _ _ Hs Hrun)
    as (ps & sbn0 & ts0 & ts1 & cache & ps_res & ntp & h0 & hc & -> & Hev0 & Hev & Hev1
        & Hsc & Hfold & Hsbn & Hfiled0 & Hts0 & Hnts & Hts1 & Hres & Hntp & Henum & _).
  destruct (singleton_names _ Hsc) as (NAUG & NSTOP & NEMPTY & NEOF & _).
  pose proof Hsc as (_ & (s1 & t1 & L1 & _) & (s2 & t2 & L2 & _) & (s3 & t3 & L3 & _)).
  set (sbnF := symbols_by_name g) in *.
  assert (HfiledF : filed_by_name hc sbnF)
    by (rewrite Hsbn; repeat apply filed_by_name_set; assumption).
  assert (Hclass0 : forall k a, Dict.get k sbn0 = Some a -> is_symbol_at hc a).
  { apply (collect_loop_classes _ _ _ _ _ Hfold). intros k a [=]. }
  assert (HclassF : forall k a, Dict.get k sbnF = Some a -> is_symbol_at hc a).
  { intros k a. rewrite Hsbn, !Dict_get_set.
    destruct (String.eqb k "STOP"); [intros [= <-]; left; by eexists _, _|].
    destruct (String.eqb k "EOF"); [intros [= <-]; left; by eexists _, _|].
    destruct (String.eqb k "EMPTY"); [intros [= <-]; left; by eexists _, _|].
    apply Hclass0. }
  destruct (collect_loop_spec _ _ _ _ _ Hfold (filed_by_name_nil h0))
    as (_ & _ & Hreg & Horigin & _ & _ & _).
  cbn [fst] in Hreg, Horigin.
  assert (Hc0 : cache_ok hc sbnF []) by (intros k a [=]).
  destruct (resolve_productions_spec _ _ _ _ _ _ _ _ _ _ Hres HfiledF Hc0)
    as (Hcache & _ & Hall & _ & _).
  destruct (resolve_productions_source _ _ _ _ _ _ _ _ _ _ Hres) as [Hsrc Hterm].
  assert (Hts1T : Forall (is_Terminal_at hc) ts1).
  { apply Forall_forall. intros x Hx.
    destruct (set_update_members _ _ _ _ _ Hts1 x Hx) as [Hin|[<-|[<-|[<-|[]]]]];
      try (by eexists _, _).
    destruct (set_of_class_members _ _ _ _ _ Hts0 x Hin) as [_ (o & Ho & Hc)].
    destruct o; try discriminate. by eexists _, _. }
  destruct (non_term_productions_filter _ _ _ _ Hntp) as [-> _].
  destruct (enumerate_from_spec _ _ _ _ _ _ Henum) as [Hsame _].
  exists ps, cache, h0, hc.
  split; [done|]. split; [done|]. split; [done|]. split; [done|]. split; [done|].
  split; [done|]. split; [done|]. split; [done|]. split; [by apply Hterm|].
  split; [|split; [|split; [|split; [|by eexists]]]].
  - apply Forall_forall. intros x Hx.
    destruct (set_of_class_members _ _ _ _ _ Hnts x Hx) as [_ (o & Ho & Hc)].
    destruct o; try discriminate. by eexists.
  - intros p Hp. apply list_elem_of_In in Hp.
    destruct (proj1 (list_elem_of_lookup _ _) Hp) as (i & Hi).
    destruct (Forall2_lookup_r _ _ _ _ _ Hsame Hi) as (q & Hq & -> & -> & _).
    apply list_elem_of_lookup_2, list_elem_of_In in Hq.
    assert (Hq' : In q ps_res) by (destruct (1 <? _); [by apply filter_In in Hq as [? _]|done]).
    apply list_elem_of_In in Hq'.
    destruct (proj1 (list_elem_of_lookup _ _) Hq') as (j & Hj).
    destruct (Forall2_lookup_r _ _ _ _ _ Hall Hj)
      as (p' & Hp' & (n & Hn & Hsq) & Hrhs & _).
    apply list_elem_of_lookup_2, list_elem_of_In in Hp'.
    destruct (Hreg p' Hp') as (n' & a & Hn' & Ha).
    rewrite Hn in Hn'. injection Hn' as <-.
    assert (Hw : exists w, Dict.get n sbnF = Some w).
    { rewrite Hsbn.
      destruct (Dict_get_Some_set n "EMPTY" a EMPTY sbn0 Ha) as (w1 & Hw1).
      destruct (Dict_get_Some_set n "EOF" w1 EOF _ Hw1) as (w2 & Hw2).
      exact (Dict_get_Some_set n "STOP" w2 STOP _ Hw2). }
    destruct Hw as (w & Hw). rewrite Hw in Hsq. split.
    + exists n. rewrite Hsq. split; [by apply HfiledF|done].
    + by eapply resolved_canonical.
  - intros p r Hp Hr. rewrite Forall_forall in Hsrc.
    pose proof (Hsrc p (or_intror Hp)) as Hrhs. rewrite Forall_forall in Hrhs.
    by apply Hrhs.
  - intros k a. rewrite Hsbn, !Dict_get_set.
    destruct (String.eqb_spec k "STOP") as [->|_]; [intros _; left; simpl; tauto|].
    destruct (String.eqb_spec k "EOF") as [->|_]; [intros _; left; simpl; tauto|].
    destruct (String.eqb_spec k "EMPTY") as [->|_]; [intros _; left; simpl; tauto|].
    intros Hk. destruct (Horigin k a Hk) as [(a0 & [=])|(p & [<-|Hp] & Hpn)].
    + simpl in Hpn. rewrite NAUG in Hpn. injection Hpn as <-. left. simpl. tauto.
    + right. eauto.
Qed.

End Resolved.

Section ResolvedFacts.
Context `{Imports}.

(** A constructed grammar holds no reference: the members of [terminals]
    are terminals, those of [nonterminals] non-terminals, the symbol of a
    production and every symbol of its right-hand side is a terminal or a
    non-terminal, and so is every entry of [symbols_by_name], which stands
    under the name of its symbol. *)
Theorem constructed_grammar_has_no_reference
    (productions_ : option (list Production)) (imports_ : option (Dict.t string))
    (file_path_ : option string) (recognizers : option (Dict.t Recognizer))
    (start : start_arg) (no_check : bool) (h : heap) (g : Grammar) (h1 : heap) :
  singletons_loaded h ->
  Grammar_init productions_ imports_ file_path_ recognizers start no_check h = Ok g h1 ->
  Forall (is_Terminal_at h1) (terminals g) /\
  Forall (is_NonTerminal_at h1) (nonterminals g) /\
  (forall p, In p (productions g) ->
     is_symbol_at h1 (symbol p) /\ Forall (is_symbol_at h1) (rhs p)) /\
  (forall k a, Dict.get k (symbols_by_name g) = Some a ->
     is_symbol_at h1 a /\ name_at h1 a = Some k).
Proof.
  intros Hs Hrun.
  destruct (Grammar_init_resolved _ _ _ _ _ _ _ _ _ Hs Hrun)
    as (ps & cache & h0 & hc & _ & _ & _ & Hev1 & _ & Hfiled & Hclass & Hcache
        & Hts & Hnts & Hprods & _ & _ & _).
  split; [|split; [|split]].
  - eapply Forall_impl; [|exact Hts]. intros a. by apply (is_Terminal_evolves false hc).
  - eapply Forall_impl; [|exact Hnts]. intros a. by apply (is_NonTerminal_evolves false hc).
  - intros p Hp. destruct (Hprods p Hp) as [(n & Hn & Hg) Hrhs]. split.
    + eapply is_symbol_evolves; [exact Hev1|by eapply Hclass].
    + eapply Forall_impl; [|exact Hrhs].
      intros s (m & Hm & [Hg'|[_ Hc]]); (eapply is_symbol_evolves; [exact Hev1|]).
      * by eapply Hclass.
      * left. by apply (Hcache _ _ Hc).
  - intros k a Hk. split.
    + eapply is_symbol_evolves; [exact Hev1|by eapply Hclass].
    + eapply heap_evolves_name; [exact Hev1|by apply Hfiled].
Qed.

(** When construction returns a grammar, every name that a right-hand side
    of the given productions refers to is defined: [symbols_by_name] has
    it, as the name of the symbol of a given production or as one of [S'],
    [EMPTY], [EOF] and [STOP]. *)
Theorem referenced_names_are_defined
    (productions_ : option (list Production)) (imports_ : option (Dict.t string))
    (file_path_ : option string) (recognizers : option (Dict.t Recognizer))
    (start : start_arg) (no_check : bool) (h : heap) (g : Grammar) (h1 : heap)
    (ps : list Production) (p : Production) (r : addr) (n : string)
    (m : option string) :
  singletons_loaded h ->
  Grammar_init productions_ imports_ file_path_ recognizers start no_check h = Ok g h1 ->
  productions_ = Some ps -> In p ps -> In r (rhs p) -> h !! r = Some (Reference n m) ->
  exists s, Dict.get n (symbols_by_name g) = Some s /\
            name_at h1 s = Some n /\ is_symbol_at h1 s /\
            (In n ["S'"; "EMPTY"; "EOF"; "STOP"] \/
             exists p', In p' ps /\ name_at h1 (symbol p') = Some n).
Proof.
  intros Hs Hrun -> Hp Hr Href.
  destruct (Grammar_init_resolved _ _ _ _ _ _ _ _ _ Hs Hrun)
    as (ps' & cache & h0 & hc & [= <-] & Hev0 & Hev & Hev1 & _ & Hfiled & Hclass & _
        & _ & _ & _ & Hsrc & Horigin & _).
  destruct (heap_evolves_trans _ _ _ _ Hev0 Hev r _ Href) as (o & Ho & S).
  destruct o as [| |n' m']; simpl in S; try tauto. destruct S as [<- <-].
  destruct (Hsrc p r Hp Hr) as [(s & t & Ht)|(k & s & Hk & Hg)]; [congruence|].
  rewrite (name_at_Some _ _ _ Ho) in Hk. injection Hk as <-.
  exists s. split; [done|]. split; [|split].
  - eapply heap_evolves_name; [exact Hev1|by apply Hfiled].
  - eapply is_symbol_evolves; [exact Hev1|by eapply Hclass].
  - destruct (Horigin _ _ Hg) as [?|(p' & Hp' & Hn')]; [by left|right].
    exists p'. split; [done|]. by eapply heap_evolves_name.
Qed.

End ResolvedFacts.

Lemma referenced_names_witness :
  exists g h1 s,
    @Grammar_init example_imports (Some productions_S) None (Some "grammar.pg")
      None StartNone true heap_S = Ok g h1 /\
    Dict.get "S" (symbols_by_name g) = Some s /\ name_at h1 s = Some "S".
Proof.
  destruct (@Grammar_init example_imports (Some productions_S) None (Some "grammar.pg")
              None StartNone true heap_S) as [g h1|e] eqn:Hrun.
  - destruct (@referenced_names_are_defined example_imports _ _ _ _ _ _ _ _ _
                productions_S (plain_production nt_S [term_a; ref_S] false) ref_S
                "S" None (module_heap_loaded _) Hrun eq_refl)
      as (s & Hg & Hn & _).
    + by left.
    + right. by left.
    + reflexivity.
    + exists g, h1, s. auto.
  - vm_compute in Hrun. discriminate Hrun.
Defined.

(** ** Numbering the alternatives of a symbol, grammar.py:637 *)

(** Two symbols that the index has under their names are the same key of a
    dictionary exactly when they are the same object. *)
Lemma same_key_registered (h : heap) (sbn : Dict.t addr) (a b : addr) (na nb : string) :
  is_symbol_at h a -> is_symbol_at h b ->
  name_at h a = Some na -> Dict.get na sbn = Some a ->
  name_at h b = Some nb -> Dict.get nb sbn = Some b ->
  same_key a b h = Ok (Nat.eqb a b) h.
Proof.
  intros Ha Hb Hna Hga Hnb Hgb. unfold same_key.
  destruct (name_at_inv _ _ _ Hna) as (x & Hx & Hxn).
  destruct (name_at_inv _ _ _ Hnb) as (y & Hy & Hyn).
  rewrite (bind_eq _ _ _ _ _ (deref_eq _ _ _ Hx)).
  rewrite (bind_eq _ _ _ _ _ (deref_eq _ _ _ Hy)). unfold ret. f_equal.
  destruct (Nat.eqb_spec a b) as [->|Hne].
  - rewrite Hx in Hy. injection Hy as <-. rewrite orb_true_l, andb_true_r.
    destruct x; simpl; by rewrite ?String.eqb_refl, ?Nat.eqb_refl.
  - rewrite orb_false_l.
    assert (Hobj : obj_eqb a x b y = false).
    { assert (obj_eqb a x b y = String.eqb (obj_name x) (obj_name y)) as ->.
      { destruct Ha as [(s & t & Ha)|(s & Ha)], Hb as [(s' & t' & Hb)|(s' & Hb)];
          rewrite Ha in Hx; rewrite Hb in Hy; by injection Hx as <-; injection Hy as <-. }
      destruct (String.eqb_spec (obj_name x) (obj_name y)) as [Heq|]; [|done].
      rewrite Hxn, Hyn in Heq. subst nb. congruence. }
    by rewrite Hobj, andb_false_r.
Qed.

Lemma idx_get_eq (d : list (addr * nat)) (s : addr) (h : heap) :
  (forall k, In k (map fst d) -> same_key k s h = Ok (Nat.eqb k s) h) ->
  idx_get d s h = Ok (idx_lookup d s) h.
Proof.
  induction d as [|[k v] d IH]; simpl; intros Hd; [done|].
  rewrite (bind_eq _ _ _ _ _ (Hd k (or_introl eq_refl))).
  destruct (k =? s); [done|]. apply IH. auto.
Qed.

Lemma idx_set_eq (d : list (addr * nat)) (s : addr) (v : nat) (h : heap) :
  (forall k, In k (map fst d) -> same_key k s h = Ok (Nat.eqb k s) h) ->
  exists d', idx_set d s v h = Ok d' h /\
             (forall s', idx_lookup d' s' = if Nat.eqb s s' then v else idx_lookup d s') /\
             (forall k, In k (map fst d') -> In k (map fst d) \/ k = s).
Proof.
  induction d as [|[k v'] d IH]; simpl; intros Hd.
  - exists [(s, v)]. split; [done|]. split; [done|]. simpl. intros k [<-|[]]. by right.
  - rewrite (bind_eq _ _ _ _ _ (Hd k (or_introl eq_refl))).
    destruct (Nat.eqb_spec k s) as [->|Hne].
    + exists ((s, v) :: d). split; [done|]. split.
      * intros s'. simpl. by destruct (s =? s').
      * simpl. tauto.
    + destruct IH as (d' & Hset & Hlook & Hkeys); [by auto|].
      exists ((k, v') :: d'). rewrite (bind_eq _ _ _ _ _ Hset). split; [done|]. split.
      * intros s'. simpl. rewrite Hlook.
        destruct (Nat.eqb_spec k s') as [->|_]; [|done].
        by destruct (Nat.eqb_spec s s') as [->|_].
      * simpl. intros k' [<-|Hk']; [tauto|]. destruct (Hkeys k' Hk'); tauto.
Qed.

Lemma enumerate_from_symbol_ids (idx : nat) (d : list (addr * nat))
    (ps : list Production) (h : heap) (ps' : list Production) (h' : heap) :
  (forall a b, In a (map fst d ++ map symbol ps) -> In b (map fst d ++ map symbol ps) ->
               same_key a b h = Ok (Nat.eqb a b) h) ->
  enumerate_from idx d ps h = Ok ps' h' ->
  forall i p', ps' !! i = Some p' ->
    prod_symbol_id p'
    = Some (idx_lookup d (symbol p')
            + count_occ Nat.eq_dec (map symbol (take i ps)) (symbol p')).
Proof.
  revert idx d ps'. induction ps as [|p ps IH]; intros idx d ps' HK Hrun; simpl in Hrun.
  - apply ret_Ok in Hrun as [<- _]. by intros i p'.
  - assert (Hkeys : forall k, In k (map fst d) ->
                      same_key k (symbol p) h = Ok (Nat.eqb k (symbol p)) h).
    { intros k Hk. apply HK; apply in_or_app; [by left|right; by left]. }
    rewrite (bind_eq _ _ _ _ _ (idx_get_eq _ _ _ Hkeys)) in Hrun.
    rewrite (bind_eq _ _ _ _ _ (idx_get_eq _ _ _ Hkeys)) in Hrun.
    destruct (idx_set_eq d (symbol p) (idx_lookup d (symbol p) + 1) h Hkeys)
      as (d' & Hset & Hlook & Hkeys').
    rewrite (bind_eq _ _ _ _ _ Hset) in Hrun.
    apply bind_Ok in Hrun as (r & h2 & Hr & Hrun). apply ret_Ok in Hrun as [<- ->].
    assert (HK' : forall a b, In a (map fst d' ++ map symbol ps) ->
                    In b (map fst d' ++ map symbol ps) ->
                    same_key a b h = Ok (Nat.eqb a b) h).
    { assert (Hsub : forall a, In a (map fst d' ++ map symbol ps) ->
                       In a (map fst d ++ map symbol (p :: ps))).
      { intros a [Ha|Ha]%in_app_or; apply in_or_app.
        - destruct (Hkeys' a Ha) as [?| ->]; [by left|right; by left].
        - right. by right. }
      intros a b Ha Hb. apply HK; by apply Hsub. }
    intros [|i] p' Hi; simpl in Hi.
    + injection Hi as <-. simpl. f_equal. lia.
    + rewrite (IH _ _ _ HK' Hr i p' Hi), Hlook. f_equal. simpl.
      destruct (Nat.eqb_spec (symbol p) (symbol p')) as [Heq|Hne].
      * rewrite Heq. destruct (Nat.eq_dec (symbol p') (symbol p')); [lia|done].
      * destruct (Nat.eq_dec (symbol p) (symbol p')); [done|lia].
Qed.

Section SymbolIds.
Context `{Imports}.

(** In a constructed grammar the [prod_symbol_id] of a production is the
    number of productions before it that have the same symbol: the
    zero-based ordinal of the production among the alternatives of its
    symbol. *)
Theorem prod_symbol_id_counts_alternatives
    (productions_ : option (list Production)) (imports_ : option (Dict.t string))
    (file_path_ : option string) (recognizers : option (Dict.t Recognizer))
    (start : start_arg) (no_check : bool) (h : heap) (g : Grammar) (h1 : heap)
    (i : nat) (p : Production) :
  singletons_loaded h ->
  Grammar_init productions_ imports_ file_path_ recognizers start no_check h = Ok g h1 ->
  productions g !! i = Some p ->
  prod_symbol_id p
  = Some (count_occ Nat.eq_dec (map symbol (take i (productions g))) (symbol p)).
Proof.
  intros Hs Hrun Hi.
  destruct (Grammar_init_resolved _ _ _ _ _ _ _ _ _ Hs Hrun)
    as (ps & cache & h0 & hc & _ & _ & _ & _ & _ & _ & Hclass & _ & _ & _ & Hprods & _
        & _ & (chosen & Henum)).
  pose proof (enumerate_from_symbols _ _ _ _ _ _ Henum) as Hsyms.
  assert (HK : forall a b,
                 In a (map fst (@nil (addr * nat)) ++ map symbol chosen) ->
                 In b (map fst (@nil (addr * nat)) ++ map symbol chosen) ->
                 same_key a b hc = Ok (Nat.eqb a b) hc).
  { simpl. rewrite <- Hsyms. intros a b (pa & <- & Hpa)%in_map_iff (pb & <- & Hpb)%in_map_iff.
    destruct (Hprods pa Hpa) as [(na & Hna & Hga) _].
    destruct (Hprods pb Hpb) as [(nb & Hnb & Hgb) _].
    eapply same_key_registered; eauto. }
  rewrite (enumerate_from_symbol_ids _ _ _ _ _ _ HK Henum i p Hi). simpl.
  by rewrite <- !firstn_map, Hsyms.
Qed.

End SymbolIds.

Lemma prod_symbol_id_witness :
  exists g h1 p,
    @Grammar_init example_imports (Some productions_S) None (Some "grammar.pg")
      None StartNone true heap_S = Ok g h1 /\
    productions g !! 2 = Some p /\ prod_symbol_id p = Some 1.
Proof.
  destruct (@Grammar_init example_imports (Some productions_S) None (Some "grammar.pg")
              None StartNone true heap_S) as [g h1|e] eqn:Hrun.
  - destruct (productions g !! 2) as [p|] eqn:Hp.
    + exists g, h1, p. split; [reflexivity|]. split; [exact Hp|].
      rewrite (@prod_symbol_id_counts_alternatives example_imports _ _ _ _ _ _ _ _ _
                 2 p (module_heap_loaded _) Hrun Hp).
      vm_compute in Hrun. injection Hrun as <- <-. vm_compute in Hp.
      injection Hp as <-. reflexivity.
    + vm_compute in Hrun. injection Hrun as <- <-. discriminate Hp.
  - vm_compute in Hrun. discriminate Hrun.
Defined.

(** ** Keyword terminals, grammar.py:648: what is left alone *)

Section KeywordMore.
Context `{Imports}.



End KeywordMore.


(** ** Repetition operators, grammar.py:1240-1324: more cases *)

Section RepetitionMore.
Context `{Imports}.

Lemma make_repetition_memo (context : Context) (h : heap) (g : addr) (sep : option addr)
    (gn : string) (sn : option string) (suffix : string) (action_ : string + Action)
    (prod_callable : addr -> Context -> M (list Production * Context))
    (d : Dict.t (addr * list Production)) (entry : addr * list Production) :
  name_at h g = Some gn -> opt_name_at h sep sn ->
  new_productions context = Some d ->
  Dict.get (repetition_name gn suffix sn) d = Some entry ->
  make_repetition context g sep suffix action_ prod_callable h
  = Ok (fst entry, context) h.
Proof.
  intros (o & Hg & <-)%name_at_inv Hsep Hc Hd. unfold make_repetition.
  rewrite (bind_eq _ _ _ _ _ (get_name_eq _ _ _ Hg)).
  destruct sep as [sep|], sn as [sn|]; simpl in Hsep; try done.
  - destruct (name_at_inv _ _ _ Hsep) as (so & Hso & <-).
    rewrite (bind_eq _ _ _ h (repetition_name (obj_name o) suffix (Some (obj_name so))))
      by (by rewrite (bind_eq _ _ _ _ _ (get_name_eq _ _ _ Hso))).
    unfold the_new_productions. rewrite Hc. cbn [new_productions]. by rewrite Hc, Hd.
  - rewrite (bind_eq _ _ _ h (repetition_name (obj_name o) suffix None)) by done.
    unfold the_new_productions. rewrite Hc. cbn [new_productions]. by rewrite Hc, Hd.
Qed.

(** Every repetition operator is memoized by the generated name: once the
    name of the auxiliary non-terminal is in the table of the compilation,
    [+], [*] and [?] on that symbol (and separator) answer the recorded
    non-terminal and change neither the table nor any object. *)
Theorem repetition_operators_memoized (context : Context) (h : heap) (g : addr)
    (sep : option addr) (gn : string) (sn : option string)
    (d : Dict.t (addr * list Production)) (entry : addr * list Production) :
  name_at h g = Some gn -> opt_name_at h sep sn ->
  new_productions context = Some d ->
  (Dict.get (repetition_name gn "_1" sn) d = Some entry ->
   make_one_or_more context g sep h = Ok (fst entry, context) h) /\
  (Dict.get (repetition_name gn "_0" sn) d = Some entry ->
   make_zero_or_more context g sep h = Ok (fst entry, context) h) /\
  (Dict.get (repetition_name gn "_opt" sn) d = Some entry ->
   make_optional context g sep h = Ok (fst entry, context) h).
Proof.
  intros Hg Hsep Hc.
  split; [|split]; intros Hd; by eapply make_repetition_memo.
Qed.

(** The first use of [X?]: one new non-terminal [X_opt] with the action
    name [optional] and the productions [X_opt: X] and [X_opt: EMPTY], the
    second with an empty right-hand side. *)
Theorem make_optional_fresh (context : Context) (h : heap) (g : addr) (o : object) :
  singletons_loaded h -> h !! g = Some o ->
  Dict.get (obj_name o +:+ "_opt") (the_new_productions context) = None ->
  make_optional context g None h
  = Ok (length h,
        set_new_productions
          (the_new_productions context
           ++ [(obj_name o +:+ "_opt",
                (length h,
                 [plain_production (length h) (single_rhs (obj_name o) g) false;
                  plain_production (length h) [] false]))])
          context)
       (h ++ [set_action_name "optional" (NonTerminal_init (obj_name o +:+ "_opt"))]).
Proof.
  intros Hs Hg Hd.
  set (key := obj_name o +:+ "_opt").
  set (nt := set_action_name "optional" (NonTerminal_init key)).
  assert (Hs1 : singletons_loaded (h ++ [nt])) by (apply singletons_loaded_app; exact Hs).
  assert (Hg1 : (h ++ [nt]) !! g = Some o) by (apply lookup_app_l_Some; exact Hg).
  assert (Hd' : Dict.get key
                  (the_new_productions
                     match new_productions context with
                     | Some _ => context
                     | None => set_new_productions [] context
                     end) = None).
  { unfold the_new_productions in *.
    destruct (new_productions context) eqn:E; simpl; rewrite ?E; done. }
  unfold make_optional, make_repetition, bind.
  rewrite (get_name_eq _ _ _ Hg). unfold ret at 1. fold key. rewrite Hd'.
  rewrite alloc_eq, modify_new. fold nt.
  rewrite (Production_new_eq _ _ _ [obj_name o] _ Hs1) by (repeat constructor; eauto).
  rewrite (Production_new_eq _ _ _ ["EMPTY"] _ Hs1) by (by apply singletons_loaded_EMPTY).
  rewrite !count_named_EMPTY_cons.
  unfold ret, single_rhs, count_named_EMPTY.
  assert (Hset : forall v,
            Dict.set key v (the_new_productions
                              match new_productions context with
                              | Some _ => context
                              | None => set_new_productions [] context
                              end)
            = the_new_productions context ++ [(key, v)]).
  { intros v. rewrite Dict_set_absent by exact Hd'.
    unfold the_new_productions. by destruct (new_productions context) eqn:E; simpl; rewrite ?E. }
  simpl. rewrite Hset. f_equal. f_equal.
  - destruct (String.eqb (obj_name o) "EMPTY"); simpl;
      by destruct (new_productions context).
Qed.

End RepetitionMore.

Lemma repetition_operators_memoized_witness :
  @make_optional example_imports
    (set_new_productions [("X_opt", (7, []))] fresh_context) ref_X None heap_refs
  = Ok (7, set_new_productions [("X_opt", (7, []))] fresh_context) heap_refs.
Proof.
  apply (proj2 (proj2 (@repetition_operators_memoized example_imports
                         (set_new_productions [("X_opt", (7, []))] fresh_context)
                         heap_refs ref_X None "X" None [("X_opt", (7, []))] (7, [])
                         eq_refl I eq_refl)) eq_refl).
Defined.

Lemma make_optional_fresh_witness :
  exists context1 h1,
    @make_optional example_imports fresh_context ref_X None heap_refs
    = Ok (7, context1) h1 /\
    Dict.keys (the_new_productions context1) = ["X_opt"].
Proof.
  eexists _, _. split.
  - apply (@make_optional_fresh example_imports fresh_context heap_refs ref_X
             (Reference "X" None)); [apply module_heap_loaded|reflexivity|reflexivity].
  - reflexivity.
Defined.

Lemma separated_not_EMPTY (a b : string) :
  String.eqb (escape ((a +:+ "_1") +:+ ("_" +:+ b))) "EMPTY" = false.
Proof.
  rewrite !escape_app. change (escape "_1") with "_1"%string.
  rewrite append_assoc. apply (suffixed_not_EMPTY (escape a)).
Qed.

(** The first use of [X+[sep]]: one new non-terminal [X_1_sep] with the
    action name [collect_sep] and the productions [X_1_sep: X_1_sep sep X]
    and [X_1_sep: X]. *)
Theorem make_one_or_more_separated (context : Context) (h : heap) (g sep : addr)
    (o so : object) :
  singletons_loaded h -> h !! g = Some o -> h !! sep = Some so ->
  Dict.get ((obj_name o +:+ "_1") +:+ ("_" +:+ obj_name so))
           (the_new_productions context) = None ->
  make_one_or_more context g (Some sep) h
  = Ok (length h,
        set_new_productions
          (the_new_productions context
           ++ [((obj_name o +:+ "_1") +:+ ("_" +:+ obj_name so),
                (length h,
                 [plain_production (length h) [length h; sep; g] false;
                  plain_production (length h) (single_rhs (obj_name o) g) false]))])
          context)
       (h ++ [set_action_name "collect_sep"
                (NonTerminal_init ((obj_name o +:+ "_1") +:+ ("_" +:+ obj_name so)))]).
Proof.
  intros Hs Hg Hsep Hd.
  set (key := (obj_name o +:+ "_1") +:+ ("_" +:+ obj_name so)).
  set (nt := set_action_name "collect_sep" (NonTerminal_init key)).
  assert (Hs1 : singletons_loaded (h ++ [nt])) by (apply singletons_loaded_app; exact Hs).
  assert (Hnt : (h ++ [nt]) !! length h = Some nt) by apply lookup_alloc.
  assert (Hg1 : (h ++ [nt]) !! g = Some o) by (apply lookup_app_l_Some; exact Hg).
  assert (Hsep1 : (h ++ [nt]) !! sep = Some so) by (apply lookup_app_l_Some; exact Hsep).
  assert (Hname : String.eqb (obj_name nt) "EMPTY" = false)
    by apply separated_not_EMPTY.
  assert (Hd' : Dict.get key
                  (the_new_productions
                     match new_productions context with
                     | Some _ => context
                     | None => set_new_productions [] context
                     end) = None).
  { unfold the_new_productions in *.
    destruct (new_productions context) eqn:E; simpl; rewrite ?E; done. }
  unfold make_one_or_more, make_repetition, bind.
  rewrite (get_name_eq _ _ _ Hg), (get_name_eq _ _ _ Hsep). unfold ret at 1. fold key.
  rewrite Hd'. rewrite alloc_eq. simpl is_None. cbv iota. rewrite modify_new. fold nt.
  rewrite (Production_new_eq _ _ _ [obj_name nt; obj_name so; obj_name o] _ Hs1)
    by (repeat constructor; eauto).
  rewrite (Production_new_eq _ _ _ [obj_name o] _ Hs1) by (repeat constructor; eauto).
  rewrite !count_named_EMPTY_cons, Hname.
  unfold ret, single_rhs, count_named_EMPTY.
  assert (Hset : forall v,
            Dict.set key v (the_new_productions
                              match new_productions context with
                              | Some _ => context
                              | None => set_new_productions [] context
                              end)
            = the_new_productions context ++ [(key, v)]).
  { intros v. rewrite Dict_set_absent by exact Hd'.
    unfold the_new_productions. by destruct (new_productions context) eqn:E; simpl; rewrite ?E. }
  simpl. rewrite Hset. f_equal. f_equal.
  - destruct (String.eqb (obj_name so) "EMPTY"), (String.eqb (obj_name o) "EMPTY"); simpl;
      by destruct (new_productions context).
Qed.

Lemma make_one_or_more_separated_witness :
  exists context1 h1,
    @make_one_or_more fresh_context ref_X (Some ref_opt) heap_refs
    = Ok (7, context1) h1 /\
    Dict.keys (the_new_productions context1) = ["X_1_opt"].
Proof.
  eexists _, _. split.
  - apply (make_one_or_more_separated fresh_context heap_refs ref_X ref_opt
             (Reference "X" None) (Reference "opt" None));
      [apply module_heap_loaded|reflexivity|reflexivity|reflexivity].
  - reflexivity.
Defined.

Lemma constructed_grammar_has_no_reference_witness :
  exists g h1,
    @Grammar_init example_imports (Some productions_S) None (Some "grammar.pg")
      None StartNone true heap_S = Ok g h1 /\
    Forall (is_Terminal_at h1) (terminals g) /\
    (forall p, In p (productions g) ->
       is_symbol_at h1 (symbol p) /\ Forall (is_symbol_at h1) (rhs p)).
Proof.
  destruct (@Grammar_init example_imports (Some productions_S) None (Some "grammar.pg")
              None StartNone true heap_S) as [g h1|e] eqn:Hrun.
  - destruct (@constructed_grammar_has_no_reference example_imports _ _ _ _ _ _ _ _ _
                (module_heap_loaded _) Hrun) as (HT & _ & HP & _).
    exists g, h1. auto.
  - vm_compute in Hrun. discriminate Hrun.
Defined.

(** ** Productions from a table, grammar.py:807 *)

Lemma valid_have_names (h : heap) (l : list addr) :
  Forall (fun a => is_Some (h !! a)) l -> exists names, have_names h l names.
Proof.
  induction 1 as [|a l [o Ho] _ (names & IH)]; [exists []; constructor|].
  exists (obj_name o :: names). constructor; [eauto|exact IH].
Qed.

Lemma all_EMPTY_count (h : heap) (l : list addr) (names : list string) :
  have_names h l names ->
  count_named_EMPTY names <= length l /\
  (all_EMPTY h l = true <-> count_named_EMPTY names = length l).
Proof.
  induction 1 as [|a n l names (o & Ha & Hn) _ [IHle IH]]; [by split|].
  rewrite count_named_EMPTY_cons. cbn [all_EMPTY forallb length].
  unfold name_at at 1. rewrite Ha, Hn, andb_true_iff. fold (all_EMPTY h l).
  destruct (String.eqb n "EMPTY"); split; try lia; rewrite IH; split; lia.
Qed.

Lemma all_EMPTY_len (h : heap) (l : list addr) (names : list string) :
  have_names h l names ->
  negb (length l - count_named_EMPTY names =? 0) = negb (all_EMPTY h l).
Proof.
  intros Hn. destruct (all_EMPTY_count _ _ _ Hn) as [Hle Hiff]. f_equal.
  destruct (Nat.eqb_spec (length l - count_named_EMPTY names) 0) as [H0|H0];
    destruct (all_EMPTY h l); try done.
  - assert (false = true) by (apply Hiff; lia). done.
  - assert (count_named_EMPTY names = length l) by by apply Hiff. lia.
Qed.

Lemma all_EMPTY_app (h new : heap) (l : list addr) :
  Forall (fun a => is_Some (h !! a)) l -> all_EMPTY (h ++ new) l = all_EMPTY h l.
Proof.
  induction 1 as [|a l [o Ho] _ IH]; [done|]. cbn [all_EMPTY forallb].
  fold (all_EMPTY (h ++ new) l) (all_EMPTY h l). rewrite IH. f_equal.
  unfold name_at. by rewrite (lookup_app_l_Some _ _ _ _ Ho), Ho.
Qed.


(** What [Production.__init__] builds from live symbols. *)
Lemma Production_init_value (h : heap) (sym : addr) (l : list addr)
    (asg : option (list Assignment)) (assoc_ prior_ : Z) (d n ne : bool) :
  singletons_loaded h -> Forall (fun a => is_Some (h !! a)) l ->
  exists p,
    Production_init sym l asg assoc_ prior_ d n ne h = Ok p h /\
    symbol p = sym /\ rhs p = (if all_EMPTY h l then [] else l) /\
    assoc p = assoc_ /\ prod_prior p = prior_ /\ prod_dynamic p = d /\
    nops p = n /\ nopse p = ne /\ prod_id p = None /\
    forall dict, assignments p = Some dict ->
      exists asgs,
        asg = Some asgs /\
        dict = fold_left (fun d a => match asg_name a with
                                     | Some n => if Str.truthy n then Dict.set n a d else d
                                     | None => d
                                     end) asgs [].
Proof.
  intros Hs Hl. destruct (valid_have_names _ _ Hl) as (names & Hn).
  unfold Production_init, ProductionRHS_truthy, bind.
  rewrite (ProductionRHS_len_eq _ _ _ Hs Hn). unfold ret.
  eexists. split; [reflexivity|]. simpl.
  split; [done|]. split; [rewrite (all_EMPTY_len _ _ _ Hn); by destruct (all_EMPTY h l)|].
  do 6 (split; [done|]).
  intros dict Hd. destruct asg as [[|a0 asgs]|]; try discriminate.
  injection Hd as <-. eauto.
Qed.





Lemma Production_init_total (h : heap) (sym : addr) (l : list addr)
    (asg : option (list Assignment)) (assoc_ prior_ : Z) (d n ne : bool) :
  singletons_loaded h -> Forall (fun a => is_Some (h !! a)) l ->
  exists p, Production_init sym l asg assoc_ prior_ d n ne h = Ok p h.
Proof.
  intros Hs Hl. destruct (valid_have_names _ _ Hl) as (names & Hn).
  unfold Production_init, ProductionRHS_truthy, bind.
  rewrite (ProductionRHS_len_eq _ _ _ Hs Hn). unfold ret. eauto.
Qed.

Lemma is_Some_app (h new : heap) (a : addr) :
  is_Some (h !! a) -> is_Some ((h ++ new) !! a).
Proof. intros [o Ho]. exists o. by apply lookup_app_l_Some. Qed.

Lemma item_in_heap_app (h new : heap) (item : rhs_item) :
  item_in_heap h item -> item_in_heap (h ++ new) item.
Proof. destruct item; simpl; [apply is_Some_app|done]. Qed.

Lemma convert_rhs_total (items : list rhs_item) (h : heap) :
  Forall (item_in_heap h) items ->
  exists l new, convert_rhs items h = Ok l (h ++ new) /\
                Forall (fun a => is_Some ((h ++ new) !! a)) l.
Proof.
  revert h. induction items as [|[a|t] items IH]; intros h Hall.
  - exists [], []. simpl. rewrite app_nil_r. by split.
  - apply Forall_cons_iff in Hall as [Ha Hall].
    destruct (IH h Hall) as (l & new & Hrun & Hl). exists (a :: l), new.
    simpl. rewrite (bind_eq _ _ _ _ _ Hrun). split; [done|].
    constructor; [by apply is_Some_app|done].
  - apply Forall_cons_iff in Hall as [_ Hall].
    destruct (IH (h ++ [Terminal_init t None])) as (l & new & Hrun & Hl).
    { eapply Forall_impl; [|exact Hall]. intros item. apply item_in_heap_app. }
    exists (length h :: l), (Terminal_init t None :: new).
    simpl. rewrite (bind_eq _ _ _ _ _ (alloc_eq _ _)), (bind_eq _ _ _ _ _ Hrun).
    rewrite <- app_assoc in Hl |- *. split; [done|].
    constructor; [|done]. exists (Terminal_init t None).
    by apply list_lookup_middle.
Qed.

Lemma create_production_outcome (row_text : production_row -> string)
    (row : production_row) (h : heap) :
  singletons_loaded h -> row_in_heap h row ->
  if lhs_is_NonTerminal h row
  then exists p new, create_production row_text row h = Ok p (h ++ new)
  else exists message, create_production row_text row h = Raise (GrammarError message).
Proof.
  intros Hs [[o Ho] Hrhs]. unfold lhs_is_NonTerminal, create_production.
  rewrite Ho, (bind_eq _ _ _ _ _ (deref_eq _ _ _ Ho)).
  destruct (isinstance_NonTerminal o); simpl; [|unfold raise; eauto].
  destruct (convert_rhs_total _ _ Hrhs) as (l & new & Hrun & Hl).
  rewrite (bind_eq _ _ _ _ _ Hrun).
  destruct (Production_init_total (h ++ new) (row_lhs row) l None
              (nth 0 (row_rest row) ASSOC_NONE) (nth 1 (row_rest row) DEFAULT_PRIORITY)
              false false false (singletons_loaded_app _ _ Hs) Hl) as (p & Hp).
  eauto.
Qed.

Lemma lhs_is_NonTerminal_app (h new : heap) (rows : list production_row) :
  Forall (row_in_heap h) rows ->
  forallb (lhs_is_NonTerminal (h ++ new)) rows = forallb (lhs_is_NonTerminal h) rows.
Proof.
  induction 1 as [|row rows [[o Ho] _] _ IH]; [done|]. simpl. rewrite IH. f_equal.
  unfold lhs_is_NonTerminal. by rewrite (lookup_app_l_Some _ _ _ _ Ho), Ho.
Qed.

(** When [create_productions] returns: on a table whose symbols are all
    objects, it returns productions if the left-hand side of every row is
    a non-terminal, and raises a [GrammarError] if that of some row is
    not. *)
Theorem create_productions_outcome (row_text : production_row -> string)
    (rows : list production_row) (h : heap) :
  singletons_loaded h -> Forall (row_in_heap h) rows ->
  if forallb (lhs_is_NonTerminal h) rows
  then exists ps h', create_productions row_text rows h = Ok ps h'
  else exists message, create_productions row_text rows h = Raise (GrammarError message).
Proof.
  unfold create_productions. revert h.
  induction rows as [|row rows IH]; intros h Hs Hall; [simpl; eauto|].
  apply Forall_cons_iff in Hall as [Hrow Hall].
  pose proof (create_production_outcome row_text row h Hs Hrow) as Hone.
  cbn [forallb map_m]. unfold bind.
  destruct (lhs_is_NonTerminal h row); simpl.
  - destruct Hone as (p & new & ->).
    assert (Hall' : Forall (row_in_heap (h ++ new)) rows).
    { eapply Forall_impl; [|exact Hall]. intros r [Hl Hr]. split; [by apply is_Some_app|].
      eapply Forall_impl; [|exact Hr]. intros item. apply item_in_heap_app. }
    specialize (IH (h ++ new) (singletons_loaded_app _ _ Hs) Hall').
    rewrite (lhs_is_NonTerminal_app _ _ _ Hall) in IH.
    destruct (forallb (lhs_is_NonTerminal h) rows).
    + destruct IH as (ps & h' & ->). unfold ret. eauto.
    + destruct IH as (m & ->). eauto.
  - destruct Hone as (m & ->). eauto.
Qed.

Lemma create_productions_outcome_witness :
  exists ps h',
    create_productions (fun _ => EmptyString)
      [{| row_lhs := nt_S; row_rhs := [ItemText "a"; ItemSymbol nt_S];
          row_rest := [ASSOC_LEFT; 5%Z] |};
       {| row_lhs := nt_S; row_rhs := [ItemSymbol EMPTY]; row_rest := [] |}] heap_S
    = Ok ps h'.
Proof.
  refine (create_productions_outcome (fun _ => EmptyString)
            [{| row_lhs := nt_S; row_rhs := [ItemText "a"; ItemSymbol nt_S];
                row_rest := [ASSOC_LEFT; 5%Z] |};
             {| row_lhs := nt_S; row_rhs := [ItemSymbol EMPTY]; row_rest := [] |}]
            heap_S (module_heap_loaded _) _).
  repeat constructor; simpl; by eexists.
Defined.

Section FromStructFacts.
Context `{Imports}.

(** [Grammar.from_struct] returns no grammar, whatever it is given: it
    constructs with the check of recognizers on, and that construction
    always raises. *)
Theorem from_struct_never_returns (row_text : production_row -> string)
    (rows : list production_row) (start : start_arg)
    (recognizers : option (Dict.t Recognizer)) (h : heap) (g : Grammar) (h1 : heap) :
  from_struct row_text rows start recognizers h <> Ok g h1.
Proof.
  unfold from_struct. intros Hrun.
  apply bind_Ok in Hrun as (ps & h2 & _ & Hrun).
  apply Grammar_init_Ok in Hrun as (? & ? & ? & ? & ? & _ & _ & _ & _ & Hrun).
  by apply init_grammar_checked_fails in Hrun.
Qed.

End FromStructFacts.

(** ** Iterating over a grammar, grammar.py:693 *)

Lemma py_eq_symbol (h : heap) (c x : addr) (oc o : object) :
  h !! c = Some oc -> h !! x = Some o ->
  isinstance_Terminal oc || isinstance_NonTerminal oc = true ->
  py_eq c x h = Ok (String.eqb (obj_name oc) (obj_name o)) h.
Proof.
  intros Hc Hx Hsym. unfold py_eq.
  rewrite (bind_eq _ _ _ _ _ (deref_eq _ _ _ Hc)).
  rewrite (bind_eq _ _ _ _ _ (deref_eq _ _ _ Hx)). unfold ret. f_equal.
  destruct (Nat.eqb_spec c x) as [->|_].
  - rewrite Hc in Hx. injection Hx as <-. by rewrite String.eqb_refl.
  - by destruct oc.
Qed.

Lemma not_in_specials (h : heap) (x : addr) (o : object) :
  singletons_loaded h -> h !! x = Some o ->
  not_in_list x [AUGSYMBOL; STOP] h = Ok (iter_keeps h x) h.
Proof.
  intros ((s0 & L0 & N0) & (s1 & t1 & L1 & N1) & _) Hx.
  assert (Hn0 : obj_name (NonTerminal s0) = "S'") by (simpl; unfold name; by rewrite N0).
  assert (Hn1 : obj_name (Terminal s1 t1) = "STOP") by (simpl; unfold name; by rewrite N1).
  unfold not_in_list, iter_keeps. rewrite (name_at_Some _ _ _ Hx).
  rewrite (bind_eq _ _ _ _ _ (py_eq_symbol _ _ _ _ _ L0 Hx eq_refl)).
  rewrite Hn0, (String.eqb_sym "S'").
  destruct (String.eqb (obj_name o) "S'"); [done|].
  rewrite (bind_eq _ _ _ _ _ (py_eq_symbol _ _ _ _ _ L1 Hx eq_refl)).
  rewrite Hn1, (String.eqb_sym "STOP").
  by destruct (String.eqb (obj_name o) "STOP").
Qed.

Lemma filter_m_specials (h : heap) (l : list addr) :
  singletons_loaded h -> Forall (fun x => exists o, h !! x = Some o) l ->
  filter_m (fun s => not_in_list s [AUGSYMBOL; STOP]) l h
  = Ok (List.filter (iter_keeps h) l) h.
Proof.
  intros Hs. induction 1 as [|x l (o & Hx) _ IH]; [done|].
  cbn [filter_m]. rewrite (bind_eq _ _ _ _ _ (not_in_specials _ _ _ Hs Hx)).
  rewrite (bind_eq _ _ _ _ _ IH). simpl. by destruct (iter_keeps h x).
Qed.

Section Iteration.
Context `{Imports}.

(** Iterating over a constructed grammar yields its non-terminals, then
    its terminals, in the order of the two sets, but for every symbol
    named [S'] or [STOP]. *)
Theorem iteration_skips_augmented_and_stop
    (productions_ : option (list Production)) (imports_ : option (Dict.t string))
    (file_path_ : option string) (recognizers : option (Dict.t Recognizer))
    (start : start_arg) (no_check : bool) (h : heap) (g : Grammar) (h1 : heap) :
  singletons_loaded h ->
  Grammar_init productions_ imports_ file_path_ recognizers start no_check h = Ok g h1 ->
  Grammar_iter g h1
  = Ok (List.filter (iter_keeps h1) (nonterminals g ++ terminals g)) h1.
Proof.
  intros Hs Hrun.
  destruct (Grammar_init_resolved _ _ _ _ _ _ _ _ _ Hs Hrun)
    as (ps & cache & h0 & hc & _ & Hev0 & Hev & Hev1 & Hsc & _ & _ & _ & Hts & Hnts & _).
  apply filter_m_specials; [by eapply heap_evolves_loaded|].
  apply Forall_app. split.
  - eapply Forall_impl; [|exact Hnts].
    intros a Ha. destruct (is_NonTerminal_evolves _ _ _ _ Hev1 Ha). eauto.
  - eapply Forall_impl; [|exact Hts].
    intros a Ha. destruct (is_Terminal_evolves _ _ _ _ Hev1 Ha) as (? & ? & ?). eauto.
Qed.

End Iteration.

Lemma iteration_witness :
  exists g h1,
    @Grammar_init example_imports (Some productions_S) None (Some "grammar.pg")
      None StartNone true heap_S = Ok g h1 /\
    Grammar_iter g h1 = Ok [nt_S; EMPTY; EOF; term_a] h1.
Proof.
  destruct (@Grammar_init example_imports (Some productions_S) None (Some "grammar.pg")
              None StartNone true heap_S) as [g h1|e] eqn:Hrun.
  - exists g, h1. split; [reflexivity|].
    rewrite (@iteration_skips_augmented_and_stop example_imports _ _ _ _ _ _ _ _ _
               (module_heap_loaded _) Hrun).
    vm_compute in Hrun. injection Hrun as <- <-. reflexivity.
  - vm_compute in Hrun. discriminate Hrun.
Defined.

(** ** Terminal rules, grammar.py:1198-1237 *)

Lemma last_priority_cons (t : prop_value) (props : list prop_value) (z : Z) :
  last_priority (t :: props) z = last_priority props (last_priority [t] z).
Proof.
  unfold last_priority. destruct t as [z'|s]; simpl; [|done].
  rewrite list.last_cons. by destruct (list.last _).
Qed.

Lemma last_finish_cons (t : prop_value) (props : list prop_value) (f : option bool) :
  last_finish (t :: props) f = last_finish props (last_finish [t] f).
Proof.
  unfold last_finish. simpl. destruct (prop_finish t) as [b|]; simpl; [|done].
  rewrite list.last_cons. by destruct (list.last _).
Qed.

Lemma set_term_prop_known (attrs : TerminalAttrs) (t : prop_value) :
  if known_prop t
  then exists attrs',
      set_term_prop attrs t = inr attrs' /\
      recognizer attrs' = recognizer attrs /\ keyword attrs' = keyword attrs /\
      prior attrs' = last_priority [t] (prior attrs) /\
      finish attrs' = last_finish [t] (finish attrs) /\
      prefer attrs' = prefer attrs || is_prop "prefer" t /\
      dynamic attrs' = dynamic attrs || is_prop "dynamic" t
  else set_term_prop attrs t = inl AssertionError.
Proof.
  destruct t as [z|s]; unfold last_priority, last_finish, prop_finish; simpl.
  - eexists. split; [done|]. simpl. by rewrite !orb_false_r.
  - unfold Str.mem. simpl. rewrite !orb_false_r.
    destruct (String.eqb_spec s "finish") as [->|_];
      [eexists; split; [done|]; simpl; by rewrite !orb_false_r|].
    destruct (String.eqb_spec s "nofinish") as [->|_];
      [eexists; split; [done|]; simpl; by rewrite !orb_false_r|].
    destruct (String.eqb_spec s "prefer") as [->|_];
      [eexists; split; [done|]; simpl; by rewrite ?orb_false_r, ?orb_true_r|].
    destruct (String.eqb_spec s "dynamic") as [->|_];
      [eexists; split; [done|]; simpl; by rewrite ?orb_false_r, ?orb_true_r|].
    done.
Qed.

Lemma set_term_props_core (attrs : TerminalAttrs) (props : list prop_value) :
  if forallb known_prop props
  then exists attrs',
      _set_term_props attrs props = inr attrs' /\
      recognizer attrs' = recognizer attrs /\ keyword attrs' = keyword attrs /\
      prior attrs' = last_priority props (prior attrs)
  else _set_term_props attrs props = inl AssertionError.
Proof.
  revert attrs. induction props as [|t props IH]; intros attrs; [by exists attrs|].
  pose proof (set_term_prop_known attrs t) as Ht.
  rewrite last_priority_cons. simpl.
  destruct (known_prop t); simpl; [|by rewrite Ht].
  destruct Ht as (a1 & -> & Hr & Hk & Hp & _). specialize (IH a1).
  destruct (forallb known_prop props); [|done].
  destruct IH as (a2 & H2 & Hr2 & Hk2 & Hp2). exists a2.
  split; [done|]. split; [congruence|]. split; [congruence|]. by rewrite Hp2, Hp.
Qed.

(** [_set_term_props] goes through the properties in order.  If every
    property is a priority or one of [finish], [nofinish], [prefer] and
    [dynamic], the recognizer and the [keyword] flag stay, the priority is
    the last one given, [finish] follows the last of [finish] and
    [nofinish], [prefer] and [dynamic] are set by their keywords and never
    cleared, and properties given after a list apply to what the list
    left.  A property of another name is an [AssertionError], wherever it
    stands in the list. *)
Theorem set_term_props_in_order (attrs : TerminalAttrs) (props : list prop_value) :
  (forallb known_prop props = true ->
   exists attrs',
     _set_term_props attrs props = inr attrs' /\
     recognizer attrs' = recognizer attrs /\ keyword attrs' = keyword attrs /\
     prior attrs' = last_priority props (prior attrs) /\
     finish attrs' = last_finish props (finish attrs) /\
     prefer attrs' = prefer attrs || existsb (is_prop "prefer") props /\
     dynamic attrs' = dynamic attrs || existsb (is_prop "dynamic") props /\
     forall more, _set_term_props attrs (props ++ more) = _set_term_props attrs' more) /\
  (forallb known_prop props = false ->
   _set_term_props attrs props = inl AssertionError).
Proof.
  revert attrs. induction props as [|t props IH]; intros attrs.
  - split; [|discriminate]. intros _. exists attrs.
    unfold last_priority, last_finish. simpl. rewrite !orb_false_r.
    split; [done|]. split; [done|]. split; [done|]. split; [done|].
    split; [by destruct (finish attrs)|]. done.
  - pose proof (set_term_prop_known attrs t) as Ht.
    rewrite last_priority_cons, last_finish_cons. simpl.
    destruct (known_prop t); simpl.
    + destruct Ht as (a1 & -> & Hr & Hk & Hp & Hf & Hpr & Hd).
      destruct (IH a1) as [IHok IHbad]. split; [|done].
      intros Hall.
      destruct (IHok Hall) as (a2 & H2 & Hr2 & Hk2 & Hp2 & Hf2 & Hpr2 & Hd2 & Hmore).
      exists a2. split; [done|]. split; [congruence|]. split; [congruence|].
      split; [by rewrite Hp2, Hp|]. split; [by rewrite Hf2, Hf|].
      split; [by rewrite Hpr2, Hpr, orb_assoc|].
      split; [by rewrite Hd2, Hd, orb_assoc|]. done.
    + split; [discriminate|]. intros _. by rewrite Ht.
Qed.

Lemma new_terminal_cases (sym : GrammarSymbol) (attrs : TerminalAttrs)
    (props : option (list prop_value)) (h : heap) :
  if props_known props
  then exists attrs',
      recognizer attrs' = recognizer attrs /\ keyword attrs' = keyword attrs /\
      prior attrs' = match props with
                     | Some l => last_priority l (prior attrs)
                     | None => prior attrs
                     end /\
      new_terminal (Terminal sym attrs) props h
      = Ok (length h) (h ++ [Terminal sym attrs'])
  else new_terminal (Terminal sym attrs) props h = Raise AssertionError.
Proof.
  destruct props as [l|]; simpl; [|by exists attrs].
  pose proof (set_term_props_core attrs l) as Hcore. unfold bind, lift.
  destruct (forallb known_prop l).
  - destruct Hcore as (attrs' & -> & Hr & Hk & Hp). by exists attrs'.
  - by rewrite Hcore.
Qed.

Section TerminalRuleFacts.
Context `{Imports}.

Lemma check_name_cases (context : Context) (name_ : string) :
  if Str.mem name_ RESERVED_SYMBOL_NAMES
  then exists message, check_name context name_ = inl (GrammarError message)
  else check_name context name_ = inr tt.
Proof.
  unfold check_name. destruct (Str.mem name_ RESERVED_SYMBOL_NAMES); eauto.
Qed.

(** The action of a terminal rule with a recognizer, for a right-hand side
    that is a terminal.  A name among [EOF], [STOP] and [EMPTY] is refused
    with a [GrammarError]; a property that is neither a priority nor one
    of [finish], [nofinish], [prefer] and [dynamic] is an
    [AssertionError].  Otherwise the action returns one production and
    adds one object to the heap: a terminal of the rule's name that has the
    recognizer of the terminal on the right-hand side and the last
    priority among the properties.  The production goes from the new
    terminal to the terminal on the right-hand side, or to nothing if that
    one is named [EMPTY]. *)
Theorem act_term_rule_production (context : Context) (name_ : string) (rhs_term : addr)
    (sym : GrammarSymbol) (t : TerminalAttrs) (props : option (list prop_value))
    (h : heap) :
  singletons_loaded h ->
  h !! rhs_term = Some (Terminal sym t) ->
  if Str.mem name_ RESERVED_SYMBOL_NAMES
  then exists message,
      act_term_rule context name_ rhs_term props h = Raise (GrammarError message)
  else if props_known props
  then exists attrs,
      recognizer attrs = Some (match recognizer t with
                               | Some r => r
                               | None => StringRecognizer name_ false
                               end) /\
      keyword attrs = false /\ prior attrs = props_priority props /\
      act_term_rule context name_ rhs_term props h
      = Ok [plain_production (length h) (single_rhs (name sym) rhs_term) false]
           (h ++ [Terminal (GrammarSymbol_init name_) attrs])
  else act_term_rule context name_ rhs_term props h = Raise AssertionError.
Proof.
  intros Hs Hrhs.
  assert (Hrun : act_term_rule context name_ rhs_term props h
                 = match check_name context name_ with
                   | inl e => Raise e
                   | inr _ =>
                       (term <- new_terminal (Terminal_init name_ (recognizer t)) props ;;
                        p <- Production_new term [rhs_term] false ;;
                        ret [p]) h
                   end).
  { unfold act_term_rule, bind at 1, lift at 1.
    destruct (check_name context name_); [done|].
    unfold ret at 1.
    assert (Hg : get_recognizer rhs_term h = Ok (recognizer t) h).
    { unfold get_recognizer. by rewrite (bind_eq _ _ _ _ _ (deref_eq _ _ _ Hrhs)). }
    by rewrite (bind_eq _ _ _ _ _ Hg). }
  rewrite Hrun. clear Hrun.
  pose proof (check_name_cases context name_) as Hcheck.
  destruct (Str.mem name_ RESERVED_SYMBOL_NAMES).
  { destruct Hcheck as (m & ->). by exists m. }
  rewrite Hcheck. unfold Terminal_init.
  match goal with
  | |- context [new_terminal (Terminal ?s0 ?a0) props] =>
      pose proof (new_terminal_cases s0 a0 props h) as Hnew
  end.
  destruct (props_known props).
  - destruct Hnew as (attrs & Hr & Hk & Hp & Hnew). exists attrs.
    split; [exact Hr|]. split; [exact Hk|]. split; [by destruct props|].
    rewrite (bind_eq _ _ _ _ _ Hnew).
    assert (Hs1 : singletons_loaded (h ++ [Terminal (GrammarSymbol_init name_) attrs]))
      by (apply singletons_loaded_app; exact Hs).
    rewrite (bind_eq _ _ _ _ _
               (Production_new_eq _ _ [rhs_term] [name sym] false Hs1 ltac:(
                  constructor; [|constructor];
                  exists (Terminal sym t); split; [by apply lookup_app_l_Some|done]))).
    unfold ret, single_rhs, count_named_EMPTY. rewrite filter_cons.
    destruct (String.eqb_spec (name sym) "EMPTY") as [He|He].
    + by rewrite decide_True.
    + by rewrite decide_False.
  - unfold bind. by rewrite Hnew.
Qed.

(** The action of a terminal rule without a body refuses the names [EOF],
    [STOP] and [EMPTY] with a [GrammarError], and a property it does not
    know with an [AssertionError].  Otherwise it returns one production
    with an empty right-hand side, whose symbol is the one object it adds
    to the heap: a terminal of the rule's name without a recognizer, with
    the last priority among the properties. *)
Theorem act_term_rule_empty_body_production (context : Context) (name_ : string)
    (props : option (list prop_value)) (h : heap) :
  if Str.mem name_ RESERVED_SYMBOL_NAMES
  then exists message,
      act_term_rule_empty_body context name_ props h = Raise (GrammarError message)
  else if props_known props
  then exists attrs,
      recognizer attrs = None /\ keyword attrs = false /\
      prior attrs = props_priority props /\
      act_term_rule_empty_body context name_ props h
      = Ok [plain_production (length h) [] false]
           (h ++ [Terminal (GrammarSymbol_init name_) attrs])
  else act_term_rule_empty_body context name_ props h = Raise AssertionError.
Proof.
  unfold act_term_rule_empty_body.
  pose proof (check_name_cases context name_) as Hcheck.
  destruct (Str.mem name_ RESERVED_SYMBOL_NAMES).
  { destruct Hcheck as (m & Hm). exists m. unfold bind, lift. by rewrite Hm. }
  rewrite Hcheck. rewrite !(bind_eq (lift (inr tt)) _ h h tt eq_refl).
  unfold Terminal_init, set_recognizer.
  match goal with
  | |- context [new_terminal (Terminal ?s0 ?a0) props] =>
      pose proof (new_terminal_cases s0 a0 props h) as Hnew
  end.
  destruct (props_known props).
  - destruct Hnew as (attrs & Hr & Hk & Hp & Hnew). exists attrs.
    split; [exact Hr|]. split; [exact Hk|]. split; [by destruct props|].
    by rewrite (bind_eq _ _ _ _ _ Hnew).
  - unfold bind. by rewrite Hnew.
Qed.

End TerminalRuleFacts.

Lemma act_term_rule_witness :
  exists attrs,
    recognizer attrs = Some (StringRecognizer "a" false) /\
    keyword attrs = false /\ prior attrs = 5%Z /\
    @act_term_rule example_imports fresh_context "A" term_a (Some [PropInt 5; PropStr "prefer"]) heap_S
    = Ok [plain_production (length heap_S) [term_a] false]
         (heap_S ++ [Terminal (GrammarSymbol_init "A") attrs]).
Proof.
  exact (@act_term_rule_production example_imports fresh_context "A" term_a
           (GrammarSymbol_init "a") _ (Some [PropInt 5; PropStr "prefer"]) heap_S
           (module_heap_loaded _) eq_refl).
Defined.


(** ** Disambiguation rules of a production, grammar.py:1176 *)

Lemma disrule_step_fields (d : disrules) (t : prop_value) :
  dr_assoc (disrule_step d t)
  = match rule_assoc t with Some a => Some a | None => dr_assoc d end /\
  dr_priority (disrule_step d t)
  = match prop_priority t with Some z => Some z | None => dr_priority d end /\
  dr_dynamic (disrule_step d t)
  = (if is_prop "dynamic" t then Some true else dr_dynamic d) /\
  dr_nops (disrule_step d t) = (if is_prop "nops" t then Some true else dr_nops d) /\
  dr_nopse (disrule_step d t) = (if is_prop "nopse" t then Some true else dr_nopse d).
Proof.
  destruct t as [z|s]; [done|]. unfold rule_assoc, Str.mem. simpl.
  rewrite !orb_false_r.
  destruct (String.eqb_spec s "left") as [->|_]; [done|].
  destruct (String.eqb_spec s "reduce") as [->|_]; [done|].
  destruct (String.eqb_spec s "right") as [->|_]; [done|].
  destruct (String.eqb_spec s "shift") as [->|_]; [done|].
  destruct (String.eqb_spec s "dynamic") as [->|_]; [done|].
  destruct (String.eqb_spec s "nops") as [->|_]; [done|].
  by destruct (String.eqb_spec s "nopse") as [->|_].
Qed.

Lemma disrule_step_unknown (d : disrules) (t : prop_value) :
  known_rule t = false -> disrule_step d t = d.
Proof.
  destruct t as [z|s]; [discriminate|]. unfold known_rule, Str.mem. simpl.
  destruct (String.eqb s "left"), (String.eqb s "reduce"), (String.eqb s "right"),
    (String.eqb s "shift"), (String.eqb s "dynamic"), (String.eqb s "nops"),
    (String.eqb s "nopse"); simpl; done.
Qed.

Lemma fold_disrules_known (l : list prop_value) (d : disrules) :
  fold_left disrule_step (List.filter known_rule l) d = fold_left disrule_step l d.
Proof.
  revert d. induction l as [|t l IH]; intros d; [done|]. simpl.
  destruct (known_rule t) eqn:Hk; simpl; [apply IH|].
  by rewrite (disrule_step_unknown _ _ Hk).
Qed.

Lemma fold_disrules_fields (rules : list prop_value) :
  dr_assoc (fold_left disrule_step rules no_disrules)
  = list.last (omap rule_assoc rules) /\
  dr_priority (fold_left disrule_step rules no_disrules)
  = list.last (omap prop_priority rules) /\
  dr_dynamic (fold_left disrule_step rules no_disrules) = flag_set "dynamic" rules /\
  dr_nops (fold_left disrule_step rules no_disrules) = flag_set "nops" rules /\
  dr_nopse (fold_left disrule_step rules no_disrules) = flag_set "nopse" rules.
Proof.
  induction rules as [|t rules IH] using rev_ind; [done|].
  destruct IH as (Ia & Ip & Id & In_ & Ie).
  rewrite fold_left_app. cbn [fold_left].
  destruct (disrule_step_fields (fold_left disrule_step rules no_disrules) t)
    as (-> & -> & -> & -> & ->).
  rewrite Ia, Ip, Id, In_, Ie. unfold flag_set.
  rewrite !omap_app, !list.last_app, !existsb_app. simpl.
  rewrite !orb_false_r.
  split; [by destruct (rule_assoc t)|]. split; [by destruct (prop_priority t)|].
  split; [destruct (is_prop "dynamic" t); by rewrite ?orb_true_r, ?orb_false_r|].
  split; [destruct (is_prop "nops" t); by rewrite ?orb_true_r, ?orb_false_r|].
  destruct (is_prop "nopse" t); by rewrite ?orb_true_r, ?orb_false_r.
Qed.

(** What [act_production] returns for a list of disambiguation rules: the
    assignments as they came, and a dictionary in which [assoc] is what
    the last of [left], [reduce], [right] and [shift] says, [priority] is
    the last number, and [dynamic], [nops] and [nopse] are [True] if the
    rule is there; a key whose rule is not there is not in the dictionary.
    The other rules are passed over: without them the result is the
    same. *)
Theorem act_production_disrules {A} (assignments_ : A) (rules : list prop_value) :
  fst (act_production assignments_ (Some rules)) = assignments_ /\
  dr_assoc (snd (act_production assignments_ (Some rules)))
  = list.last (omap rule_assoc rules) /\
  dr_priority (snd (act_production assignments_ (Some rules)))
  = list.last (omap prop_priority rules) /\
  dr_dynamic (snd (act_production assignments_ (Some rules))) = flag_set "dynamic" rules /\
  dr_nops (snd (act_production assignments_ (Some rules))) = flag_set "nops" rules /\
  dr_nopse (snd (act_production assignments_ (Some rules))) = flag_set "nopse" rules /\
  act_production assignments_ (Some (List.filter known_rule rules))
  = act_production assignments_ (Some rules).
Proof.
  split; [done|]. unfold act_production. simpl.
  destruct (fold_disrules_fields rules) as (Ha & Hp & Hd & Hn & He).
  do 5 (split; [done|]). by rewrite fold_disrules_known.
Qed.

(** ** Production rules, grammar.py:1088 *)

Lemma imap_map_preserved {A B} (f : A -> B) (g : nat -> A -> A) (l : list A) :
  (forall i a, f (g i a) = f a) -> map f (imap g l) = map f l.
Proof.
  revert g. induction l as [|x l IH]; intros g Hg; [done|].
  rewrite imap_cons. simpl. rewrite Hg. f_equal. apply IH. intros i a. apply Hg.
Qed.

Lemma imap_existsb_preserved {A} (f : A -> bool) (g : nat -> A -> A) (l : list A) :
  (forall i a, f (g i a) = f a) -> existsb f (imap g l) = existsb f l.
Proof.
  revert g. induction l as [|x l IH]; intros g Hg; [done|].
  rewrite imap_cons. simpl. rewrite Hg. f_equal. apply IH. intros i a. apply Hg.
Qed.

Lemma imap_Forall_preserved {A} (P : A -> Prop) (g : nat -> A -> A) (l : list A) :
  (forall i a, P a -> P (g i a)) -> Forall P l -> Forall P (imap g l).
Proof.
  intros Hg Hall. revert g Hg. induction Hall as [|x l Hx _ IH]; intros g Hg.
  - constructor.
  - rewrite imap_cons. constructor; [by apply Hg|]. apply IH. intros i a. apply Hg.
Qed.

Lemma index_step_name (i : nat) (a : Assignment) :
  asg_name (if asg_named a then set_index i a else a) = asg_name a.
Proof. by destruct (asg_named a). Qed.

Lemma index_step_named (i : nat) (a : Assignment) :
  asg_named (if asg_named a then set_index i a else a) = asg_named a.
Proof. unfold asg_named at 1. by rewrite index_step_name. Qed.

Lemma index_step_symbol (i : nat) (a : Assignment) :
  asg_symbol (if asg_named a then set_index i a else a) = asg_symbol a.
Proof. by destruct (asg_named a). Qed.

Lemma index_step_orig (i : nat) (a : Assignment) :
  orig_symbol (if asg_named a then set_index i a else a) = orig_symbol a.
Proof. by destruct (asg_named a). Qed.

Lemma Dict_set_nonempty {V} (k : string) (v : V) (d : Dict.t V) : Dict.set k v d <> [].
Proof. destruct d as [|[k' v'] d]; simpl; [done|]. by destruct (String.eqb k k'). Qed.

Lemma assignments_dict_get (l : list Assignment) (d0 : Dict.t Assignment) (n : string)
    (a : Assignment) :
  Dict.get n
    (fold_left (fun d a => match asg_name a with
                           | Some n => if Str.truthy n then Dict.set n a d else d
                           | None => d
                           end) l d0) = Some a ->
  (In a l /\ asg_name a = Some n /\ asg_named a = true) \/ Dict.get n d0 = Some a.
Proof.
  revert d0. induction l as [|x l IH]; intros d0 Hget; [by right|].
  simpl in Hget. apply IH in Hget as [(Hin & Hn & Ht)|Hget]; [left; simpl; auto|].
  destruct (asg_name x) as [m|] eqn:Hm; [|by right].
  destruct (Str.truthy m) eqn:Htm; [|by right].
  rewrite Dict_get_set in Hget. destruct (String.eqb_spec n m) as [->|Hne]; [|by right].
  injection Hget as <-. left. simpl. unfold asg_named. rewrite Hm. auto.
Qed.

Lemma collect_attrs_total (h : heap) (l : list Assignment) (attrs : Dict.t PGAttribute) :
  Forall (fun a => is_Some (h !! orig_symbol a)) l ->
  exists attrs', collect_attrs attrs l h = Ok attrs' h /\
                 (attrs' = [] <-> attrs = [] /\ existsb asg_named l = false).
Proof.
  intros Hall. revert attrs. unfold collect_attrs.
  induction Hall as [|a l [o Ho] _ IH]; intros attrs.
  - exists attrs. split; [done|]. simpl. tauto.
  - cbn [fold_m existsb]. unfold asg_named at 1.
    destruct (asg_name a) as [n|]; [destruct (Str.truthy n)|].
    + assert (Hbody :
                (type_name <- get_name (orig_symbol a) ;;
                 ret (Dict.set n {| pga_name := n; pga_multiplicity := multiplicity a;
                                    pga_type_name := type_name |} attrs)) h
                = Ok (Dict.set n {| pga_name := n; pga_multiplicity := multiplicity a;
                                    pga_type_name := obj_name o |} attrs) h)
        by (by rewrite (bind_eq _ _ _ _ _ (get_name_eq _ _ _ Ho))).
      rewrite (bind_eq _ _ _ _ _ Hbody).
      destruct (IH (Dict.set n {| pga_name := n; pga_multiplicity := multiplicity a;
                                  pga_type_name := obj_name o |} attrs))
        as (attrs' & -> & Hiff).
      exists attrs'. split; [done|]. rewrite Hiff. simpl.
      split; [intros [Hset _]; by apply Dict_set_nonempty in Hset|intros [_ [=]]].
    + rewrite (bind_eq _ _ _ h attrs) by done.
      destruct (IH attrs) as (attrs' & -> & Hiff). by exists attrs'.
    + rewrite (bind_eq _ _ _ h attrs) by done.
      destruct (IH attrs) as (attrs' & -> & Hiff). by exists attrs'.
Qed.

Lemma rule_alternative_step (sym : addr) (st : list Production * Dict.t PGAttribute)
    (alt : list Assignment * option (list prop_value)) (h : heap) :
  singletons_loaded h -> Forall (assignment_in_heap h) (fst alt) ->
  exists p attrs,
    rule_alternative sym st (act_production (fst alt) (snd alt)) h
    = Ok (fst st ++ [p], attrs) h /\
    alt_production h sym alt p /\
    (attrs = [] <-> snd st = [] /\ existsb asg_named (fst alt) = false).
Proof.
  intros Hs Hall. unfold rule_alternative. cbn [fst snd act_production].
  assert (Hsyms : map asg_symbol (index_assignments (fst alt)) = map asg_symbol (fst alt)).
  { apply imap_map_preserved. intros i a. apply index_step_symbol. }
  assert (Hvalid : Forall (fun a => is_Some (h !! a))
                     (map asg_symbol (index_assignments (fst alt)))).
  { rewrite Hsyms. apply Forall_map. eapply Forall_impl; [|exact Hall].
    by intros a [Ha _]. }
  assert (Horig : Forall (fun a => is_Some (h !! orig_symbol a))
                    (index_assignments (fst alt))).
  { apply imap_Forall_preserved.
    - intros i a. by rewrite index_step_orig.
    - eapply Forall_impl; [|exact Hall]. by intros a [_ Ha]. }
  match goal with
  | |- context [Production_init sym ?l ?asg ?a0 ?p0 ?d0 ?n0 ?ne0] =>
      destruct (Production_init_value h sym l asg a0 p0 d0 n0 ne0 Hs Hvalid)
        as (p & Hp & Hsym & Hrhs & Hassoc & Hprior & Hdyn & Hnops & Hnopse & Hid & Hasg)
  end.
  destruct (collect_attrs_total h _ (snd st) Horig) as (attrs & Hattrs & Hiff).
  exists p, attrs. rewrite (bind_eq _ _ _ _ _ Hp), (bind_eq _ _ _ _ _ Hattrs).
  split; [done|]. split.
  - assert (Hfields := fold_disrules_fields (alt_rules alt)).
    assert (Hd : match snd alt with
                 | Some l => fold_left disrule_step l no_disrules
                 | None => no_disrules
                 end = fold_left disrule_step (alt_rules alt) no_disrules).
    { unfold alt_rules. by destruct (snd alt). }
    rewrite Hd in Hassoc, Hprior, Hdyn, Hnops, Hnopse.
    destruct Hfields as (Fa & Fp & Fd & Fn & Fe).
    rewrite Fa in Hassoc. rewrite Fp in Hprior. rewrite Fd in Hdyn.
    rewrite Fn in Hnops. rewrite Fe in Hnopse. unfold flag_set in *.
    split; [done|]. split; [by rewrite Hrhs, Hsyms|].
    split; [rewrite Hassoc; by destruct (list.last _)|].
    split; [rewrite Hprior; by destruct (list.last _)|].
    split; [rewrite Hdyn; by destruct (existsb (is_prop "dynamic") _)|].
    split; [rewrite Hnops; by destruct (existsb (is_prop "nops") _)|].
    split; [rewrite Hnopse; by destruct (existsb (is_prop "nopse") _)|].
    split; [done|].
    intros d n a Hd' Hget. destruct (Hasg d Hd') as (asgs & [= <-] & ->).
    apply assignments_dict_get in Hget as [(Hin & Hn & Ht)|Hget]; [|discriminate].
    apply list_elem_of_In, elem_of_lookup_imap_1 in Hin as (i & a0 & -> & Hi).
    exists i, a0. rewrite index_step_name in Hn. rewrite index_step_named in Ht.
    rewrite Ht. auto.
  - rewrite Hiff. unfold index_assignments.
    rewrite imap_existsb_preserved; [done|]. intros i a. apply index_step_named.
Qed.

Lemma rule_loop (sym : addr) (alts : list (list Assignment * option (list prop_value)))
    (h : heap) (prods : list Production) (attrs : Dict.t PGAttribute) :
  singletons_loaded h ->
  Forall (fun alt => Forall (assignment_in_heap h) (fst alt)) alts ->
  exists ps attrs',
    fold_m (map (fun alt => act_production (fst alt) (snd alt)) alts) (prods, attrs)
      (rule_alternative sym) h
    = Ok (prods ++ ps, attrs') h /\
    Forall2 (alt_production h sym) alts ps /\
    (attrs' = [] <-> attrs = [] /\ rule_named alts = false).
Proof.
  intros Hs Hall. revert prods attrs.
  induction Hall as [|alt alts Halt _ IH]; intros prods attrs.
  - exists [], attrs. rewrite app_nil_r. split; [done|]. split; [constructor|].
    simpl. tauto.
  - destruct (rule_alternative_step sym (prods, attrs) alt h Hs Halt)
      as (p & attrs1 & Hstep & Hprod & Hiff1).
    destruct (IH (prods ++ [p]) attrs1) as (ps & attrs' & Hrest & Hps & Hiff).
    exists (p :: ps), attrs'. cbn [map fold_m].
    rewrite (bind_eq _ _ _ _ _ Hstep). cbn [fst snd]. rewrite Hrest.
    split; [by rewrite <- app_assoc|]. split; [by constructor|].
    rewrite Hiff, Hiff1. cbn [fst snd rule_named existsb].
    rewrite orb_false_iff. unfold rule_named. tauto.
Qed.

Lemma alt_production_before (h new : heap) (sym : addr)
    (alts : list (list Assignment * option (list prop_value))) (ps : list Production) :
  Forall (fun alt => Forall (assignment_in_heap h) (fst alt)) alts ->
  Forall2 (alt_production (h ++ new) sym) alts ps ->
  Forall2 (alt_production h sym) alts ps.
Proof.
  intros Hall Hps. induction Hps as [|alt p alts ps Hp _ IH]; [constructor|].
  apply Forall_cons_iff in Hall as [Halt Hall]. constructor; [|by apply IH].
  destruct Hp as (Hsym & Hrhs & Hrest). split; [done|]. split; [|done].
  rewrite Hrhs, all_EMPTY_app; [done|].
  apply Forall_map. eapply Forall_impl; [|exact Halt]. by intros a [Ha _].
Qed.

Section ProductionRuleFacts.
Context `{Imports}.

(** The action of a production rule, for alternatives as [act_production]
    gives them, whose symbols are objects.  A name among [EOF], [STOP]
    and [EMPTY] is refused with a [GrammarError].  Otherwise the action
    adds one object to the heap, a non-terminal of the rule's name, and
    returns one production for each alternative, in their order, all with
    that non-terminal on the left: the right-hand side is the list of the
    symbols of the assignments, unless every one of them equals [EMPTY],
    when it is empty; the associativity and the priority are those of the
    last rule that gives one, or the defaults; and an assignment kept
    under its name has the index of its place in the alternative.  If some assignment has a
    name, the non-terminal gets the action name [obj], and a context
    without [classes] is an [AttributeError]; if none has, [classes] is
    not read and stays as it is. *)
Theorem act_production_rule_productions (context : Context) (classes : classes_t)
    (name_ : string) (alts : list (list Assignment * option (list prop_value)))
    (h : heap) :
  singletons_loaded h ->
  Forall (fun alt => Forall (assignment_in_heap h) (fst alt)) alts ->
  if Str.mem name_ RESERVED_SYMBOL_NAMES
  then exists message,
      act_production_rule context classes name_
        (map (fun alt => act_production (fst alt) (snd alt)) alts) h
      = Raise (GrammarError message)
  else if rule_named alts && is_None classes
  then act_production_rule context classes name_
         (map (fun alt => act_production (fst alt) (snd alt)) alts) h
       = Raise (AttributeError "classes")
  else exists ps classes',
      act_production_rule context classes name_
        (map (fun alt => act_production (fst alt) (snd alt)) alts) h
      = Ok (ps, classes')
           (h ++ [if rule_named alts
                  then set_action_name "obj" (NonTerminal_init name_)
                  else NonTerminal_init name_]) /\
      Forall2 (alt_production h (length h)) alts ps /\
      (rule_named alts = false -> classes' = classes).
Proof.
  intros Hs Hall. unfold act_production_rule.
  pose proof (check_name_cases context name_) as Hcheck.
  destruct (Str.mem name_ RESERVED_SYMBOL_NAMES).
  { destruct Hcheck as (m & Hm). exists m. unfold bind, lift. by rewrite Hm. }
  rewrite Hcheck. rewrite !(bind_eq (lift (inr tt)) _ h h tt eq_refl).
  rewrite !(bind_eq _ _ _ _ _ (alloc_eq _ _)).
  assert (Hs1 : singletons_loaded (h ++ [NonTerminal_init name_]))
    by (apply singletons_loaded_app; exact Hs).
  assert (Hall1 : Forall (fun alt => Forall (assignment_in_heap (h ++ [NonTerminal_init name_]))
                                       (fst alt)) alts).
  { eapply Forall_impl; [|exact Hall]. intros alt Halt.
    eapply Forall_impl; [|exact Halt]. intros a [Ha Ho].
    split; by apply is_Some_app. }
  destruct (rule_loop (length h) alts _ [] [] Hs1 Hall1) as (ps & attrs & Hloop & Hps & Hiff).
  apply (alt_production_before _ _ _ _ _ Hall) in Hps.
  rewrite !(bind_eq _ _ _ _ _ Hloop). cbn [fst snd app].
  destruct (rule_named alts).
  - destruct attrs as [|kv attrs]; [by destruct (proj1 Hiff eq_refl)|].
    destruct classes as [cs|]; simpl; [|done].
    eexists ps, _. rewrite (bind_eq _ _ _ _ _ (modify_new _ _ _)).
    split; [reflexivity|]. by split.
  - destruct attrs as [|kv attrs]; [|discriminate (proj2 Hiff (conj eq_refl eq_refl))].
    simpl. exists ps, classes. by split.
Qed.

End ProductionRuleFacts.

Lemma act_production_rule_witness :
  exists ps classes',
    @act_production_rule example_imports fresh_context (Some []) "T"
      (map (fun alt => act_production (fst alt) (snd alt)) alts_T) heap_S
    = Ok (ps, classes') (heap_S ++ [set_action_name "obj" (NonTerminal_init "T")]) /\
    Forall2 (alt_production heap_S (length heap_S)) alts_T ps /\
    (rule_named alts_T = false -> classes' = Some []).
Proof.
  refine (@act_production_rule_productions example_imports fresh_context (Some []) "T"
            alts_T heap_S (module_heap_loaded _) _).
  repeat constructor; by eexists.
Defined.

(** ** Recognizers of the grammar language, grammar.py:1395-1410 *)

Lemma strip_ends_delimited (q1 q2 : ascii) (body : string) :
  strip_ends (String q1 (body +:+ String q2 EmptyString)) = body.
Proof.
  unfold strip_ends. cbn [String.length]. rewrite length_append. cbn [String.length].
  replace (S (String.length body + 1) - 2) with (String.length body) by lia.
  cbn [String.substring]. apply substring_prefix.
Qed.

Lemma replace_pair_head (c1 c2 x : ascii) (by_ s : string) :
  Ascii.eqb x c1 = false ->
  replace_pair c1 c2 by_ (String x s) = String x (replace_pair c1 c2 by_ s).
Proof. intros Hx. destruct s as [|y s]; simpl; [done|]. by rewrite Hx. Qed.

Lemma replace_pair_miss (c1 c2 y : ascii) (by_ s : string) :
  Ascii.eqb y c2 = false ->
  replace_pair c1 c2 by_ (String c1 (String y s))
  = String c1 (replace_pair c1 c2 by_ (String y s)).
Proof. intros Hy. cbn [replace_pair]. by rewrite Hy, andb_false_r. Qed.

Lemma replace_pair_hit (c1 c2 : ascii) (by_ s : string) :
  replace_pair c1 c2 by_ (String c1 (String c2 s)) = by_ +:+ replace_pair c1 c2 by_ s.
Proof. cbn [replace_pair]. by rewrite !Ascii.eqb_refl. Qed.

Lemma replace_pair_skip (c1 c2 : ascii) (by_ u w : string) :
  has_char c1 u = false ->
  replace_pair c1 c2 by_ (u +:+ w) = u +:+ replace_pair c1 c2 by_ w.
Proof.
  induction u as [|x u IH]; intros Hu; [by rewrite !append_nil_l|].
  simpl in Hu. apply orb_false_iff in Hu as [Hx Hu].
  rewrite !append_cons, <- (IH Hu). by apply replace_pair_head.
Qed.

Lemma replace_pair_absent (c1 c2 : ascii) (by_ s : string) :
  has_char c1 s = false -> replace_pair c1 c2 by_ s = s.
Proof.
  intros Hs. rewrite <- (append_nil_r s) at 1.
  rewrite (replace_pair_skip _ _ _ _ _ Hs). simpl. apply append_nil_r.
Qed.

(** A replacement that looks for a backslash before a character other
    than a backslash and [n] leaves two backslashes before [n] alone. *)
Lemma replace_pair_other (c2 : ascii) (by_ u v : string) :
  Ascii.eqb Str.backslash c2 = false -> Ascii.eqb "n" c2 = false ->
  has_char Str.backslash u = false -> has_char Str.backslash v = false ->
  replace_pair Str.backslash c2 by_
    (u +:+ String Str.backslash (String Str.backslash (String "n" v)))
  = u +:+ String Str.backslash (String Str.backslash (String "n" v)).
Proof.
  intros Hb Hn Hu Hv. rewrite (replace_pair_skip _ _ _ _ _ Hu). f_equal.
  rewrite (replace_pair_miss _ _ _ _ _ Hb), (replace_pair_miss _ _ _ _ _ Hn).
  by rewrite replace_pair_absent.
Qed.

(** The action of a string recognizer takes the text between the first
    and the last character of the match and makes a terminal of that
    name, after the replacements, that matches the same text.  A text
    without backslash is taken as it is.  The replacements go one after
    the other over the whole text, so that an escaped backslash in front
    of [n] does not stay a backslash and an [n]: the one before has left
    a backslash and an [n], and they become a newline. *)
Theorem act_recognizer_str_unescapes (ignore_case : bool) (q1 q2 : ascii) (body : string)
    (h : heap) :
  act_recognizer_str ignore_case (String q1 (body +:+ String q2 EmptyString)) h
  = Ok (length h)
       (h ++ [Terminal_init (unescape body)
                (Some (StringRecognizer (unescape body) ignore_case))]) /\
  (has_char Str.backslash body = false -> unescape body = body) /\
  (forall u v, has_char Str.backslash u = false -> has_char Str.backslash v = false ->
     unescape (u +:+ String Str.backslash (String Str.backslash (String "n" v)))
     = u +:+ String Str.newline v).
Proof.
  split; [|split].
  - unfold act_recognizer_str. rewrite strip_ends_delimited. apply alloc_eq.
  - intros Hb. unfold unescape. cbv zeta.
    by rewrite !(replace_pair_absent _ _ _ body Hb).
  - intros u v Hu Hv. unfold unescape. cbv zeta.
    rewrite (replace_pair_other "034" _ u v), (replace_pair_other "039" _ u v) by done.
    rewrite (replace_pair_skip _ _ _ _ _ Hu), replace_pair_hit.
    rewrite (replace_pair_absent _ _ _ (String "n" v)) by done.
    rewrite append_cons, append_nil_l.
    rewrite (replace_pair_skip _ _ _ _ _ Hu), replace_pair_hit.
    rewrite (replace_pair_absent _ _ _ v) by done.
    rewrite append_cons, append_nil_l.
    apply replace_pair_absent. rewrite has_char_app, Hu. simpl. exact Hv.
Qed.

Section RegexRecognizerFacts.
Context `{Imports}.

(** The action of a regular expression recognizer takes the text between
    the first and the last character of the match as it is, backslashes
    included.  If the text compiles as a pattern, under the flags of the
    context and [re.IGNORECASE] when the context ignores case, the action
    adds one terminal to the heap, named by the text, whose recognizer has
    the text and these flags; if it does not compile, the action raises a
    [GrammarError] and there is no terminal. *)
Theorem act_recognizer_regex_terminal (re_flags : Z) (ignore_case : bool) (d1 d2 : ascii)
    (body : string) (h : heap) :
  match re_compile_error body
          (if ignore_case then Z.lor re_flags re_IGNORECASE else re_flags) with
  | None =>
      act_recognizer_regex re_flags ignore_case
        (String d1 (body +:+ String d2 EmptyString)) h
      = Ok (length h)
           (h ++ [Terminal (GrammarSymbol_init body)
                    {| prior := DEFAULT_PRIORITY;
                       recognizer :=
                         Some (RegExRecognizer body
                                 (if ignore_case then Z.lor re_flags re_IGNORECASE
                                  else re_flags) ignore_case);
                       finish := None; prefer := false; dynamic := false;
                       keyword := false |}])
  | Some _ =>
      exists message,
        act_recognizer_regex re_flags ignore_case
          (String d1 (body +:+ String d2 EmptyString)) h
        = Raise (GrammarError message)
  end.
Proof.
  unfold act_recognizer_regex. rewrite strip_ends_delimited.
  unfold RegExRecognizer_init, bind, lift.
  destruct (re_compile_error body _) as [report|]; [by eexists|].
  cbv beta iota. apply alloc_eq.
Qed.

End RegexRecognizerFacts.
